(** * Age verifier: decryption-request lifecycle, retry engine and credential NFT

    A shallow embedding of
    - the Solidity contracts [AgeCredentialNFT] (simplified version) and
      [AgeVerifierWithNFT],
    - the TypeScript client utilities [safeContractCall],
      [waitForTransactionWithPublicRpc], [retryWithBackoff],
      [checkAndRetryDecryption], [RelayerClient.pollDecryption] and the
      [waitForCallbackCompletion] helper of the [useDecryption] hook,
    followed by the properties of the specification that concern them,
    and by further properties of the same code and of the full version of
    [AgeCredentialNFT]. *)

From Stdlib Require Import ZArith Lia String List.
From stdpp Require Import base option gmap strings list.

Open Scope Z_scope.

(** ** Solidity values and transaction results *)

Module Evm.

(** [address] and [uint256] values; [address(0)] is [0]. *)
Definition address := Z.
Definition uint256_max : Z := 2 ^ 256 - 1.
Definition uint8_max : Z := 255.

(** An [euint32] is an opaque 32-byte ciphertext handle. *)
Definition euint32 := Z.

(** Outcome of a call: normal return, [require]/[revert] with a reason
    string, or a checked-arithmetic panic. *)
Inductive result (A : Type) : Type :=
| Ok (a : A)
| Revert (reason : string)
| Panic (code : Z).
Arguments Ok {A} a.
Arguments Revert {A} reason.
Arguments Panic {A} code.

Definition bind {A B : Type} (m : result A) (k : A -> result B) : result B :=
  match m with
  | Ok a => k a
  | Revert r => Revert r
  | Panic c => Panic c
  end.

Definition is_ok {A : Type} (m : result A) : bool :=
  match m with Ok _ => true | _ => false end.

Definition require (cond : bool) (reason : string) : result unit :=
  if cond then Ok tt else Revert reason.

(** Solidity 0.8 arithmetic on [uint256] and [uint8] reverts on overflow
    with panic code 0x11. *)
Definition checked_add (a b : Z) : result Z :=
  if a + b <=? uint256_max then Ok (a + b) else Panic 17.

Definition checked_add8 (a b : Z) : result Z :=
  if a + b <=? uint8_max then Ok (a + b) else Panic 17.

(** Time units. *)
Definition minutes : Z := 60.

(** Reading a [mapping]: absent keys hold the zero value. *)
Definition mget {V : Type} (zero : V) (m : gmap Z V) (k : Z) : V :=
  default zero (m !! k).

End Evm.

Import Evm.

Notation "'do' x <- m ; k" := (Evm.bind m (fun x => k))
  (at level 10, x name, m at level 100, k at level 200).
Notation "'requires' c 'or_revert' r ; k" := (Evm.bind (Evm.require c r) (fun _ => k))
  (at level 10, c at level 100, r at level 100, k at level 200).

(** Events of both contracts, in one log type. *)
Inductive Event : Type :=
| Transfer (from to : address) (tokenId : Z)
| CredentialMinted (to : address) (tokenId timestamp : Z)
| MinterAuthorized (minter : address)
| VerificationRequested (user : address) (requestId : Z)
| VerificationResult (user : address) (isEligible : bool)
| NFTCredentialMinted (user : address) (tokenId : Z)
| NFTContractSet (nftContract : address)
| DecryptionRequested (requestId : Z) (user : address) (timestamp : Z)
| DecryptionCompleted (requestId : Z) (decryptedResult : bool)
| DecryptionRetrying (oldRequestId newRequestId retryCount : Z).

(** ** The credential token contract (AgeCredentialNFT, simplified version) *)

Module AgeCredentialNFT.

Record State : Type := mkState {
  owner : address;                     (* Ownable._owner *)
  owners : gmap Z address;             (* ERC721._owners *)
  balances : gmap Z Z;                 (* ERC721._balances *)
  tokenIdCounter : Z;                  (* _tokenIdCounter *)
  encryptedAges : gmap Z euint32;
  addressToTokenId : gmap Z Z;
  mintTimestamp : gmap Z Z;
  authorizedMinters : gmap Z bool
}.

(** constructor: [_tokenIdCounter = 1], deployer becomes owner. *)
Definition constructor (deployer : address) : State :=
  mkState deployer ∅ ∅ 1 ∅ ∅ ∅ ∅.

Definition _ownerOf (s : State) (tokenId : Z) : address :=
  mget 0 (owners s) tokenId.

Definition balanceOf (s : State) (a : address) : Z :=
  mget 0 (balances s) a.

Definition hasCredential (s : State) (account : address) : bool :=
  negb (mget 0 (addressToTokenId s) account =? 0).

Definition getTokenIdOf (s : State) (account : address) : Z :=
  mget 0 (addressToTokenId s) account.

(** The library's [ERC721._update] for the calls made here: moves the
    token, adjusts both balances and logs [Transfer]; returns the previous
    owner. With a non-zero [auth] the library first checks that [auth] may
    move the token, which fails for a token nobody owns. Approvals are not
    tracked: the override below never lets an owned token reach this
    function with a non-zero [to]. *)
Definition super_update (s : State) (to : address) (tokenId : Z) (auth : address)
  : result (State * list Event * address) :=
  let from := _ownerOf s tokenId in
  requires (negb (negb (auth =? 0) && (from =? 0))) or_revert "ERC721NonexistentToken";
  requires ((auth =? 0) || (auth =? from)) or_revert "ERC721InsufficientApproval";
  let bal1 := if from =? 0 then balances s
              else <[from := mget 0 (balances s) from - 1]> (balances s) in
  let bal2 := if to =? 0 then bal1
              else <[to := mget 0 bal1 to + 1]> bal1 in
  Ok (mkState (owner s) (<[tokenId := to]> (owners s)) bal2 (tokenIdCounter s)
              (encryptedAges s) (addressToTokenId s) (mintTimestamp s)
              (authorizedMinters s),
      [Transfer from to tokenId], from).

(** The contract's override of [_update]: a token that has an owner cannot
    be moved to another address. *)
Definition _update (s : State) (to : address) (tokenId : Z) (auth : address)
  : result (State * list Event * address) :=
  let from := _ownerOf s tokenId in
  if negb (from =? 0) && negb (to =? 0) then Revert "Soulbound: cannot transfer"
  else super_update s to tokenId auth.

(** The library's [_safeMint], for a recipient on which its closing
    acceptance check changes nothing: an account without code, or a contract
    whose [onERC721Received] returns the selector and calls nothing. The
    check itself, with recipients that refuse the token or call the verifier
    from inside it, is modelled in [Reentrancy] below. *)
Definition _safeMint (s : State) (to : address) (tokenId : Z)
  : result (State * list Event) :=
  requires (negb (to =? 0)) or_revert "ERC721InvalidReceiver";
  do r <- _update s to tokenId 0;
  let '(s', evs, previousOwner) := r in
  requires (previousOwner =? 0) or_revert "ERC721InvalidSender";
  Ok (s', evs).

(** The library's [transferFrom], which goes through [_update]. *)
Definition transferFrom (sender : address) (s : State) (from to : address) (tokenId : Z)
  : result (State * list Event) :=
  requires (negb (to =? 0)) or_revert "ERC721InvalidReceiver";
  do r <- _update s to tokenId sender;
  let '(s', evs, previousOwner) := r in
  requires (previousOwner =? from) or_revert "ERC721IncorrectOwner";
  Ok (s', evs).

Definition authorizeMinter (sender : address) (s : State) (minter : address)
  : result (State * list Event) :=
  requires (sender =? owner s) or_revert "OwnableUnauthorizedAccount";
  Ok (mkState (owner s) (owners s) (balances s) (tokenIdCounter s)
              (encryptedAges s) (addressToTokenId s) (mintTimestamp s)
              (<[minter := true]> (authorizedMinters s)),
      [MinterAuthorized minter]).

Definition mintCredential (sender : address) (now : Z) (s : State)
           (to : address) (encryptedAge : euint32)
  : result (State * list Event * Z) :=
  requires (mget false (authorizedMinters s) sender) or_revert "Not authorized";
  requires (mget 0 (addressToTokenId s) to =? 0) or_revert "Already has credential";
  let tokenId := tokenIdCounter s in
  do next <- checked_add (tokenIdCounter s) 1;
  let s1 := mkState (owner s) (owners s) (balances s) next
                    (encryptedAges s) (addressToTokenId s) (mintTimestamp s)
                    (authorizedMinters s) in
  do r <- _safeMint s1 to tokenId;
  let '(s2, evs) := r in
  Ok (mkState (owner s2) (owners s2) (balances s2) (tokenIdCounter s2)
              (<[tokenId := encryptedAge]> (encryptedAges s2))
              (<[to := tokenId]> (addressToTokenId s2))
              (<[tokenId := now]> (mintTimestamp s2))
              (authorizedMinters s2),
      evs ++ [CredentialMinted to tokenId now], tokenId).

End AgeCredentialNFT.

(** ** The verifier contract (AgeVerifierWithNFT) *)

Module AgeVerifierWithNFT.

Record DecryptionRequest : Type := mkRequest {
  requester : address;
  timestamp : Z;
  retryCount : Z;      (* uint8 *)
  processed : bool
}.

(** The value of a [decryptionRequests] slot that was never written. *)
Definition noRequest : DecryptionRequest := mkRequest 0 0 0 false.

Definition REQUEST_TIMEOUT : Z := 30 * minutes.
Definition MAX_RETRIES : Z := 3.

Record State : Type := mkState {
  MINIMUM_AGE : euint32;
  nftContract : address;
  isVerified : gmap Z bool;
  userEncryptedAges : gmap Z euint32;
  decryptionRequests : gmap Z DecryptionRequest;
  requestIdToUser : gmap Z address;
  userToRequestId : gmap Z Z
}.

(** The ledger as the verifier sees it: its own storage, its own address,
    and the storage of the token contract that [nftContract] designates
    when it is not [address(0)]. *)
Record World : Type := mkWorld {
  verifier : State;
  self : address;
  nft : AgeCredentialNFT.State
}.

(** What a transaction brings with it: caller and block time, and the
    answers of the FHE library during the call, which is not part of this
    repository: the handle of a ciphertext it creates, the id it assigns
    to a decryption request, and whether the proof or signatures handed to
    it are accepted. *)
Record Env : Type := mkEnv {
  msg_sender : address;
  block_timestamp : Z;
  fhe_handle : euint32;
  fhe_requestId : Z;
  fhe_accepts : bool
}.

Definition set_nftContract (s : State) (a : address) : State :=
  mkState (MINIMUM_AGE s) a (isVerified s) (userEncryptedAges s)
          (decryptionRequests s) (requestIdToUser s) (userToRequestId s).
Definition set_isVerified (s : State) (m : gmap Z bool) : State :=
  mkState (MINIMUM_AGE s) (nftContract s) m (userEncryptedAges s)
          (decryptionRequests s) (requestIdToUser s) (userToRequestId s).
Definition set_userEncryptedAges (s : State) (m : gmap Z euint32) : State :=
  mkState (MINIMUM_AGE s) (nftContract s) (isVerified s) m
          (decryptionRequests s) (requestIdToUser s) (userToRequestId s).
Definition set_decryptionRequests (s : State) (m : gmap Z DecryptionRequest) : State :=
  mkState (MINIMUM_AGE s) (nftContract s) (isVerified s) (userEncryptedAges s)
          m (requestIdToUser s) (userToRequestId s).
Definition set_requestIdToUser (s : State) (m : gmap Z address) : State :=
  mkState (MINIMUM_AGE s) (nftContract s) (isVerified s) (userEncryptedAges s)
          (decryptionRequests s) m (userToRequestId s).
Definition set_userToRequestId (s : State) (m : gmap Z Z) : State :=
  mkState (MINIMUM_AGE s) (nftContract s) (isVerified s) (userEncryptedAges s)
          (decryptionRequests s) (requestIdToUser s) m.

Definition set_verifier (w : World) (s : State) : World :=
  mkWorld s (self w) (nft w).
Definition set_nft (w : World) (n : AgeCredentialNFT.State) : World :=
  mkWorld (verifier w) (self w) n.

Definition request (s : State) (requestId : Z) : DecryptionRequest :=
  mget noRequest (decryptionRequests s) requestId.

(** constructor(_nftContract) *)
Definition constructor (minimumAgeHandle : euint32) (_nftContract : address) : State :=
  mkState minimumAgeHandle _nftContract ∅ ∅ ∅ ∅ ∅.

Definition setNFTContract (w : World) (_nftContract : address)
  : result (World * list Event) :=
  Ok (set_verifier w (set_nftContract (verifier w) _nftContract),
      [NFTContractSet _nftContract]).

(** _mintNFTCredential(user) *)
Definition _mintNFTCredential (now : Z) (w : World) (user : address)
  : result (World * list Event) :=
  if AgeCredentialNFT.hasCredential (nft w) user then Ok (w, [])
  else
    let userAge := mget 0 (userEncryptedAges (verifier w)) user in
    do r <- AgeCredentialNFT.mintCredential (self w) now (nft w) user userAge;
    let '(n', evs, tokenId) := r in
    Ok (set_nft w n', evs ++ [NFTCredentialMinted user tokenId]).

(** verifyAge(encryptedAge, proof) *)
Definition verifyAge (e : Env) (w : World) : result (World * list Event) :=
  requires (fhe_accepts e) or_revert "FHE.fromExternal";
  let s := verifier w in
  let age := fhe_handle e in
  let s := set_userEncryptedAges s (<[msg_sender e := age]> (userEncryptedAges s)) in
  let requestId := fhe_requestId e in
  let s := set_decryptionRequests s
             (<[requestId := mkRequest (msg_sender e) (block_timestamp e) 0 false]>
                (decryptionRequests s)) in
  let s := set_requestIdToUser s (<[requestId := msg_sender e]> (requestIdToUser s)) in
  let s := set_userToRequestId s (<[msg_sender e := requestId]> (userToRequestId s)) in
  Ok (set_verifier w s,
      [VerificationRequested (msg_sender e) requestId;
       DecryptionRequested requestId (msg_sender e) (block_timestamp e)]).

(** callbackDecryption(requestId, cleartexts, decryptionProof); [decoded]
    is [abi.decode(cleartexts, (bool))], [None] when decoding fails. *)
Definition callbackDecryption (e : Env) (w : World) (requestId : Z)
           (decoded : option bool) : result (World * list Event) :=
  let s := verifier w in
  let req := request s requestId in
  requires (0 <? timestamp req) or_revert "Invalid request ID";
  requires (negb (processed req)) or_revert "Request already processed";
  do deadline <- checked_add (timestamp req) REQUEST_TIMEOUT;
  requires (block_timestamp e <=? deadline) or_revert "Request expired";
  requires (fhe_accepts e) or_revert "FHE.checkSignatures";
  let user := mget 0 (requestIdToUser s) requestId in
  requires (negb (user =? 0)) or_revert "Invalid user";
  match decoded with
  | None => Revert "abi.decode"
  | Some decryptedResult =>
      let s := set_isVerified s (<[user := decryptedResult]> (isVerified s)) in
      let s := set_decryptionRequests s
                 (<[requestId := mkRequest (requester req) (timestamp req)
                                           (retryCount req) true]>
                    (decryptionRequests s)) in
      let w1 := set_verifier w s in
      let evs := [DecryptionCompleted requestId decryptedResult;
                  VerificationResult user decryptedResult] in
      if decryptedResult && negb (nftContract s =? 0) then
        do r <- _mintNFTCredential (block_timestamp e) w1 user;
        let '(w2, evs2) := r in
        Ok (w2, evs ++ evs2)
      else Ok (w1, evs)
  end.

(** verifyAgeMock(age) *)
Definition verifyAgeMock (e : Env) (w : World) (age : Z) : result (World * list Event) :=
  let s := verifier w in
  let res := 18 <=? age in
  let s := set_isVerified s (<[msg_sender e := res]> (isVerified s)) in
  let s := set_userEncryptedAges s
             (<[msg_sender e := fhe_handle e]> (userEncryptedAges s)) in
  let w1 := set_verifier w s in
  let evs := [VerificationResult (msg_sender e) res] in
  if res && negb (nftContract s =? 0) then
    do r <- _mintNFTCredential (block_timestamp e) w1 (msg_sender e);
    let '(w2, evs2) := r in
    Ok (w2, evs ++ evs2)
  else Ok (w1, evs).

(** mintNFTManual(). Unlike its siblings it calls [nftContract] without
    asking whether one is configured: the call
    [nftContract.hasCredential(msg.sender)] to [address(0)], which has no
    code, reverts (without a reason string of its own). *)
Definition mintNFTManual (e : Env) (w : World) : result (World * list Event) :=
  requires (mget false (isVerified (verifier w)) (msg_sender e))
    or_revert "Not verified yet";
  requires (negb (nftContract (verifier w) =? 0))
    or_revert "call to an address without code";
  requires (negb (AgeCredentialNFT.hasCredential (nft w) (msg_sender e)))
    or_revert "Already has credential";
  _mintNFTCredential (block_timestamp e) w (msg_sender e).

(** retryDecryption(requestId) returns (newRequestId) *)
Definition retryDecryption (e : Env) (s : State) (requestId : Z)
  : result (State * list Event * Z) :=
  let req := request s requestId in
  let user := mget 0 (requestIdToUser s) requestId in
  requires (negb (user =? 0)) or_revert "Invalid request";
  requires (msg_sender e =? user) or_revert "Only requester can retry";
  requires (negb (processed req)) or_revert "Request already processed";
  requires (retryCount req <? MAX_RETRIES) or_revert "Max retries exceeded";
  do coolDownEnd <- checked_add (timestamp req) (5 * minutes);
  requires (coolDownEnd <? block_timestamp e) or_revert "Too soon to retry";
  do deadline <- checked_add (timestamp req) REQUEST_TIMEOUT;
  requires (block_timestamp e <=? deadline) or_revert "Request expired";
  requires (negb (mget 0 (userToRequestId s) user =? 0)) or_revert "No encrypted age found";
  let newRequestId := fhe_requestId e in
  (* request.retryCount++ on the storage slot of the old request *)
  do bumped <- checked_add8 (retryCount req) 1;
  let s := set_decryptionRequests s
             (<[requestId := mkRequest (requester req) (timestamp req) bumped
                                       (processed req)]>
                (decryptionRequests s)) in
  (* the new record reads request.retryCount back from storage *)
  let s := set_decryptionRequests s
             (<[newRequestId := mkRequest user (block_timestamp e)
                                          (retryCount (request s requestId)) false]>
                (decryptionRequests s)) in
  let s := set_requestIdToUser s (<[newRequestId := user]> (requestIdToUser s)) in
  let s := set_userToRequestId s (<[user := newRequestId]> (userToRequestId s)) in
  Ok (s,
      [DecryptionRetrying requestId newRequestId (retryCount (request s requestId));
       DecryptionRequested newRequestId user (block_timestamp e)],
      newRequestId).

(** The storage a successful [retryDecryption] leaves behind, written out
    field by field. *)
Definition retried (e : Env) (s : State) (requestId : Z) : State :=
  let req := request s requestId in
  let user := mget 0 (requestIdToUser s) requestId in
  let bumped := <[requestId := mkRequest (requester req) (timestamp req)
                                         (retryCount req + 1) (processed req)]>
                  (decryptionRequests s) in
  let rc := retryCount (mget noRequest bumped requestId) in
  mkState (MINIMUM_AGE s) (nftContract s) (isVerified s) (userEncryptedAges s)
          (<[fhe_requestId e := mkRequest user (block_timestamp e) rc false]> bumped)
          (<[fhe_requestId e := user]> (requestIdToUser s))
          (<[user := fhe_requestId e]> (userToRequestId s)).

(** isRequestExpired(requestId) *)
Definition isRequestExpired (now : Z) (s : State) (requestId : Z) : result bool :=
  let req := request s requestId in
  if timestamp req =? 0 then Ok true
  else
    do deadline <- checked_add (timestamp req) REQUEST_TIMEOUT;
    Ok (deadline <? now).

Record RequestStatus : Type := mkStatus {
  st_exists : bool;
  st_processed : bool;
  st_retryCount : Z;
  st_expired : bool;
  st_timestamp : Z
}.

(** getRequestStatus(requestId) *)
Definition getRequestStatus (now : Z) (s : State) (requestId : Z) : result RequestStatus :=
  let req := request s requestId in
  let exists_ := 0 <? timestamp req in
  if negb exists_ then Ok (mkStatus false false 0 true 0)
  else
    do deadline <- checked_add (timestamp req) REQUEST_TIMEOUT;
    Ok (mkStatus exists_ (processed req) (retryCount req) (deadline <? now)
                 (timestamp req)).

End AgeVerifierWithNFT.

(** ** JavaScript values, exceptions and observable effects of the client *)

Module Js.

(** Thrown values. [Error] is [new Error(message)] with a literal message
    (also used for the errors raised by the network and the libraries);
    the others are the errors whose message is a template. *)
Inductive error : Type :=
| Error (message : string)
| ConfirmTimeoutError (maxAttempts : Z)
    (* new Error(`交易确认超时（${maxAttempts} 次，共 ${(maxAttempts * 2) / 60}分钟）`) *)
| GatewayTimeoutError (maxAttempts interval : Z)
    (* new Error(`Gateway 解密超时（${maxAttempts} 次，共 ${(maxAttempts * interval) / 1000}秒）`) *)
| Undefined
    (* throw of a variable that was never assigned *)
| TypeError (message : string).
    (* raised by the engine, as when a property of [undefined] is read *)

(** Reading a property of a thrown value ([error.message]) works on every
    object and raises a [TypeError] on [undefined]. *)
Definition is_undefined (e : error) : bool :=
  match e with Undefined => true | _ => false end.

Definition no_property_of_undefined : error :=
  TypeError "Cannot read properties of undefined (reading 'message')".

(** Completion of an awaited call. *)
Inductive outcome (A : Type) : Type :=
| Return (a : A)
| Throw (e : error).
Arguments Return {A} a.
Arguments Throw {A} e.

(** A value that may be [undefined]. *)
Inductive maybe_bool : Type :=
| JsUndefined
| JsBool (b : bool).

(** [v !== undefined] *)
Definition is_defined (v : maybe_bool) : bool :=
  match v with JsUndefined => false | JsBool _ => true end.

(** What a client function does besides returning: network requests,
    timers, callbacks and console warnings, in program order. *)
Inductive effect : Type :=
| EthCall (rpcUrl : string)                      (* provider.call *)
| GetBlockNumber (rpcUrl : string)               (* provider.getBlockNumber *)
| GetTransactionReceipt (rpcUrl : string) (i : Z)  (* provider.getTransactionReceipt *)
| SendTransaction (method : string) (arg : Z)    (* a write through the wallet *)
| Fetch (attempt : Z)                            (* fetch(gateway url, POST) *)
| ReadLedger (i : Z)                             (* reads through the contract object *)
| CallFn (attempt : Z)                           (* fn() *)
| Sleep (ms : Z)                                 (* setTimeout(resolve, ms) *)
| OnProgress (current total : Z)                 (* onProgress callback *)
| OnRetry (arg : Z)                              (* onRetry callback *)
| Warn (e : error).                              (* console.warn / console.error *)

(** The delays of the timers in a trace, in order. *)
Fixpoint sleeps (t : list effect) : list Z :=
  match t with
  | [] => []
  | Sleep ms :: t' => ms :: sleeps t'
  | _ :: t' => sleeps t'
  end.

(** The errors written to the console in a trace, in order. *)
Fixpoint warnings (t : list effect) : list error :=
  match t with
  | [] => []
  | Warn e :: t' => e :: warnings t'
  | _ :: t' => warnings t'
  end.

(** The gateway requests of a trace, by attempt number. *)
Fixpoint fetches (t : list effect) : list Z :=
  match t with
  | [] => []
  | Fetch attempt :: t' => attempt :: fetches t'
  | _ :: t' => fetches t'
  end.


(** The receipt polls of a trace, by endpoint and index. *)
Fixpoint receiptPolls (t : list effect) : list (string * Z) :=
  match t with
  | [] => []
  | GetTransactionReceipt rpcUrl i :: t' => (rpcUrl, i) :: receiptPolls t'
  | _ :: t' => receiptPolls t'
  end.

(** The ledger reads of a trace, by iteration. *)
Fixpoint ledgerReads (t : list effect) : list Z :=
  match t with
  | [] => []
  | ReadLedger i :: t' => i :: ledgerReads t'
  | _ :: t' => ledgerReads t'
  end.

(** The writes submitted in a trace. *)
Fixpoint sends (t : list effect) : list (string * Z) :=
  match t with
  | [] => []
  | SendTransaction method arg :: t' => (method, arg) :: sends t'
  | _ :: t' => sends t'
  end.

(** [needle] occurs in [hay]. *)
Fixpoint occurs_in (needle hay : string) : bool :=
  String.prefix needle hay
  || match hay with
     | EmptyString => false
     | String _ hay' => occurs_in needle hay'
     end.

(** Whether a thrown error names [msg] in its message. The template
    errors only interpolate numbers. *)
Definition mentions (thrown : error) (msg : string) : bool :=
  match thrown with
  | Error message => occurs_in msg message
  | _ => false
  end.

End Js.

Import Js.

(** ** walletCompatibility.ts *)

Module WalletCompatibility.

Definition FALLBACK_RPCS : list string :=
  [ "https://ethereum-sepolia-rpc.publicnode.com";
    "https://rpc.ankr.com/eth_sepolia";
    "https://eth-sepolia.public.blastapi.io" ]%string.

Section SafeContractCall.

(** The raw bytes an endpoint returns and the decoded first output. *)
Variables raw value : Type.

(** [provider.call({to, data})] on the endpoint with this url. *)
Variable eth_call : string -> outcome raw.

(** [iface.decodeFunctionResult(functionName, result)[0]] *)
Variable decode : raw -> outcome value.

(** The body of [for (const rpcUrl of FALLBACK_RPCS) { try ... catch ... }]
    followed by the final [throw]. *)
Fixpoint tryEndpoints (rpcs : list string) : outcome value * list effect :=
  match rpcs with
  | [] => (Throw (Error "所有 RPC 调用均失败"), [])
  | rpcUrl :: rest =>
      match eth_call rpcUrl with
      | Throw e =>
          let '(r, t) := tryEndpoints rest in
          (r, EthCall rpcUrl :: Warn e :: t)
      | Return result =>
          match decode result with
          | Throw e =>
              let '(r, t) := tryEndpoints rest in
              (r, EthCall rpcUrl :: Warn e :: t)
          | Return decoded0 => (Return decoded0, [EthCall rpcUrl])
          end
      end
  end.

Definition safeContractCall : outcome value * list effect :=
  tryEndpoints FALLBACK_RPCS.

(** An endpoint fails when its call throws or its answer does not decode. *)
Definition endpoint_fails (rpcUrl : string) : Prop :=
  match eth_call rpcUrl with
  | Throw _ => True
  | Return result => match decode result with Throw _ => True | Return _ => False end
  end.

(** An endpoint succeeds with [v] when its answer decodes to [v]. *)
Definition endpoint_yields (rpcUrl : string) (v : value) : Prop :=
  exists result, eth_call rpcUrl = Return result /\ decode result = Return v.

(** The error an endpoint fails with. *)
Definition endpoint_error (rpcUrl : string) : option error :=
  match eth_call rpcUrl with
  | Throw e => Some e
  | Return result => match decode result with Throw e => Some e | Return _ => None end
  end.

End SafeContractCall.

Arguments tryEndpoints {raw value} eth_call decode rpcs.
Arguments safeContractCall {raw value} eth_call decode.
Arguments endpoint_fails {raw value} eth_call decode rpcUrl.
Arguments endpoint_yields {raw value} eth_call decode rpcUrl v.
Arguments endpoint_error {raw value} eth_call decode rpcUrl.

Record TransactionReceipt : Type := mkReceipt {
  blockNumber : Z;
  status : Z
}.

Section WaitForTransaction.

(** [provider.getBlockNumber()] on the endpoint with this url. *)
Variable getBlockNumber : string -> outcome Z.

(** The [i]-th [provider.getTransactionReceipt(txHash)] on an endpoint;
    [Return None] is a [null] receipt. *)
Variable getTransactionReceipt : string -> Z -> outcome (option TransactionReceipt).

(** The endpoint-selection loop. [provider] is assigned before the probe
    is awaited, so a failed probe leaves the failed endpoint in it. *)
Fixpoint selectProvider (rpcs : list string) (provider : option string)
  : option string * list effect :=
  match rpcs with
  | [] => (provider, [])
  | rpcUrl :: rest =>
      let provider := Some rpcUrl in
      match getBlockNumber rpcUrl with
      | Return _ => (provider, [GetBlockNumber rpcUrl])
      | Throw e =>
          let '(p, t) := selectProvider rest provider in
          (p, GetBlockNumber rpcUrl :: Warn e :: t)
      end
  end.

(** [receipt && receipt.blockNumber] *)
Definition confirmed (r : option TransactionReceipt) : bool :=
  match r with
  | Some receipt => negb (blockNumber receipt =? 0)
  | None => false
  end.

(** [for (let i = 0; i < maxAttempts; i++)], with [remaining] iterations
    to go. *)
Fixpoint pollReceipt (provider : string) (maxAttempts : Z) (remaining : nat) (i : Z)
  : outcome TransactionReceipt * list effect :=
  match remaining with
  | O => (Throw (ConfirmTimeoutError maxAttempts), [])
  | S remaining' =>
      let continue (pre : list effect) :=
        let '(r, t) := pollReceipt provider maxAttempts remaining' (i + 1) in
        (r, GetTransactionReceipt provider i :: pre ++ Sleep 2000 :: t) in
      match getTransactionReceipt provider i with
      | Throw e => continue [Warn e]
      | Return r =>
          if confirmed r then
            match r with
            | Some receipt => (Return receipt, [GetTransactionReceipt provider i])
            | None => continue []
            end
          else continue []
      end
  end.

Definition waitForTransactionWithPublicRpc (txHash : string) (maxAttempts : option Z)
  : outcome TransactionReceipt * list effect :=
  let maxAttempts := default 60 maxAttempts in
  let '(provider, t0) := selectProvider FALLBACK_RPCS None in
  match provider with
  | None => (Throw (Error "所有公共 RPC 均不可用"), t0)
  | Some p =>
      let '(r, t) := pollReceipt p maxAttempts (Z.to_nat maxAttempts) 0 in
      (r, t0 ++ t)
  end.

(** A poll that does not show the transaction in a block: it throws, or
    returns [null], or a receipt without a block number. *)
Definition no_receipt (o : outcome (option TransactionReceipt)) : Prop :=
  match o with
  | Throw _ => True
  | Return r => confirmed r = false
  end.

End WaitForTransaction.

End WalletCompatibility.

(** ** retryMechanism.ts *)

Module RetryMechanism.

Record RetryOptions : Type := mkRetryOptions {
  maxRetries : option Z;
  retryDelay : option Z;     (* milliseconds *)
  onRetry : bool             (* whether a callback was supplied *)
}.

(** [options = {}] *)
Definition noOptions : RetryOptions := mkRetryOptions None None false.

Section RetryWithBackoff.

Variable T : Type.

(** The completion of the call [fn()] made in iteration [attempt]. *)
Variable fn : Z -> outcome T.

(** [for (let attempt = 0; attempt <= maxRetries; attempt++)], with
    [remaining] iterations to go; after the loop, [throw lastError!]. The
    [catch] block reads [error.message] for its warning before anything
    else it does: on a rejection with [undefined] that read throws, and the
    [TypeError] leaves the function. *)
Fixpoint retryLoop (maxRetries retryDelay : Z) (onRetry : bool)
         (remaining : nat) (attempt : Z) (lastError : option error)
  : outcome T * list effect :=
  match remaining with
  | O => (Throw (default Undefined lastError), [])
  | S remaining' =>
      match fn attempt with
      | Return v => (Return v, [CallFn attempt])
      | Throw e =>
          if (attempt <? maxRetries) && is_undefined e then
            (Throw no_property_of_undefined, [CallFn attempt])
          else
            let backoff :=
              if attempt <? maxRetries then
                let delay := retryDelay * 2 ^ attempt in
                Warn e :: (if onRetry then [OnRetry (attempt + 1)] else [])
                     ++ [Sleep delay]
              else [] in
            let '(r, t) := retryLoop maxRetries retryDelay onRetry remaining'
                                     (attempt + 1) (Some e) in
            (r, CallFn attempt :: backoff ++ t)
      end
  end.

Definition retryWithBackoff (options : RetryOptions) : outcome T * list effect :=
  let maxRetries := default 3 (maxRetries options) in
  let retryDelay := default 5000 (retryDelay options) in
  retryLoop maxRetries retryDelay (onRetry options)
            (Z.to_nat (maxRetries + 1)) 0 None.

End RetryWithBackoff.

Arguments retryLoop {T} fn maxRetries retryDelay onRetry remaining attempt lastError.
Arguments retryWithBackoff {T} fn options.

Import AgeVerifierWithNFT.

(** [receipt.logs.find(log => parseLog(log).name === 'DecryptionRetrying')]
    followed by [parsedEvent.args[1]]. *)
Fixpoint findDecryptionRetrying (logs : list Event) : option Z :=
  match logs with
  | [] => None
  | DecryptionRetrying _ newRequestId _ :: _ => Some newRequestId
  | _ :: rest => findDecryptionRetrying rest
  end.

(** [checkAndRetryDecryption(contract, userAddress, onRetry)], run by the
    account [msg_sender tx] against the ledger state [s]: the status is
    read at block time [nowRead], and the retry transaction, when one is
    sent, executes in the environment [tx]. The result is the returned
    [bigint | null], the ledger state afterwards, and the effects. *)
Definition checkAndRetryDecryption (nowRead : Z) (tx : Env) (s : State)
           (userAddress : address) (onRetry : bool)
  : option Z * State * list effect :=
  let requestId := mget 0 (userToRequestId s) userAddress in
  if requestId =? 0 then (None, s, [])
  else
    match getRequestStatus nowRead s requestId with
    | Ok status =>
        if st_processed status then (None, s, [])
        else if st_expired status && (st_retryCount status <? 3) then
          match retryDecryption tx s requestId with
          | Ok (s', logs, _) =>
              match findDecryptionRetrying logs with
              | Some newRequestId =>
                  (Some newRequestId, s',
                   SendTransaction "retryDecryption" requestId
                     :: (if onRetry then [OnRetry newRequestId] else []))
              | None => (Some requestId, s', [SendTransaction "retryDecryption" requestId])
              end
          | Revert reason =>
              (None, s, [SendTransaction "retryDecryption" requestId; Warn (Error reason)])
          | Panic _ =>
              (None, s, [SendTransaction "retryDecryption" requestId;
                         Warn (Error "panic")])
          end
        else (Some requestId, s, [])
    | Revert reason => (None, s, [Warn (Error reason)])
    | Panic _ => (None, s, [Warn (Error "panic")])
    end.

End RetryMechanism.

(** ** App.tsx: what the verification handler does once waiting for the
       decryption has timed out *)

Module App.

Import AgeVerifierWithNFT.

(** The two status lines the handler can end on. *)
Inductive TimeoutStatus : Type :=
| RetrySubmitted          (* '🔄 解密重试已提交，请稍候...' *)
| TimeoutCheckManually.   (* '⚠️ 解密超时。请稍后手动检查验证状态。' *)

(** [if (newRequestId)] on a [bigint | null] *)
Definition truthy (v : option Z) : bool :=
  match v with
  | Some n => negb (n =? 0)
  | None => false
  end.

(** The [catch] branch of [handleVerifyFHE] around the wait for the
    decryption. *)
Definition onDecryptionTimeout (nowRead : Z) (tx : Env) (s : State) (account : address)
  : TimeoutStatus * State * list effect :=
  let '(newRequestId, s', t) :=
    RetryMechanism.checkAndRetryDecryption nowRead tx s account true in
  if truthy newRequestId then (RetrySubmitted, s', t)
  else (TimeoutCheckManually, s', t).

End App.

(** ** relayerClient.ts *)

Module RelayerClient.

Record PollOptions : Type := mkPollOptions {
  maxAttempts : option Z;
  interval : option Z;       (* milliseconds *)
  onProgress : bool          (* whether a callback was supplied *)
}.

Definition noOptions : PollOptions := mkPollOptions None None false.

(** The completion of one [fetch] of the gateway: a thrown network error,
    or a response with its status and the completion of [response.json()]. *)
Inductive FetchReply (D : Type) : Type :=
| NetworkError (e : error)
| Response (status : Z) (json : outcome D).
Arguments NetworkError {D} e.
Arguments Response {D} status json.

(** [response.ok] *)
Definition ok (status : Z) : bool := (200 <=? status) && (status <=? 299).

Record PollResult (D : Type) : Type := mkPollResult {
  success : bool;
  data : D;
  attempts : Z
}.
Arguments mkPollResult {D} success data attempts.

Section PollDecryption.

Variable D : Type.

(** The reply to the request made in iteration [attempt]. *)
Variable gateway : Z -> FetchReply D.

(** [for (let attempt = 1; attempt <= maxAttempts; attempt++)], with
    [remaining] iterations to go. The progress percentage, a rounded
    floating-point quotient, is not represented in [OnProgress]. *)
Fixpoint pollLoop (maxAttempts interval : Z) (onProgress : bool)
         (remaining : nat) (attempt : Z)
  : outcome (PollResult D) * list effect :=
  match remaining with
  | O => (Throw (GatewayTimeoutError maxAttempts interval), [])
  | S remaining' =>
      let progress := if onProgress then [OnProgress attempt maxAttempts] else [] in
      let continue (pre : list effect) :=
        let wait := if attempt <? maxAttempts then [Sleep interval] else [] in
        let '(r, t) := pollLoop maxAttempts interval onProgress remaining'
                                (attempt + 1) in
        (r, progress ++ Fetch attempt :: pre ++ wait ++ t) in
      match gateway attempt with
      | NetworkError e => continue [Warn e]
      | Response status json =>
          if ok status then
            match json with
            | Return d =>
                (Return (mkPollResult true d attempt), progress ++ [Fetch attempt])
            | Throw e => continue [Warn e]
            end
          else if status =? 404 then continue []
          else continue [Warn (Error "Gateway 返回异常")]
      end
  end.

(** [pollDecryption(requestId, contractAddress, options)]; the request id
    and the contract address only go into the request body. *)
Definition pollDecryption (options : PollOptions)
  : outcome (PollResult D) * list effect :=
  let maxAttempts := default 60 (maxAttempts options) in
  let interval := default 5000 (interval options) in
  pollLoop maxAttempts interval (onProgress options) (Z.to_nat maxAttempts) 1.

(** A reply that is not a 2xx response. *)
Definition not_2xx (r : FetchReply D) : Prop :=
  match r with
  | NetworkError _ => True
  | Response status _ => ok status = false
  end.

End PollDecryption.

Arguments pollLoop {D} gateway maxAttempts interval onProgress remaining attempt.
Arguments pollDecryption {D} gateway options.
Arguments not_2xx {D} r.

End RelayerClient.

(** ** useDecryption.ts *)

Module UseDecryption.

Import AgeVerifierWithNFT.

Definition MAX_WAIT : Z := 120.
Definition INTERVAL : Z := 2000.

Section WaitForCallbackCompletion.

(** What the reads of iteration [i] see: the ledger state at that
    moment, or [None] when one of the reads throws. *)
Variable ledger : Z -> option State.

(** [await contract.isVerified(userAddress)]: the getter of a
    [mapping(address => bool)] returns a boolean. *)
Definition read_isVerified (s : State) (userAddress : address) : maybe_bool :=
  JsBool (mget false (isVerified s) userAddress).

(** One pass through the [try] block: [true] when it returns from the
    function. *)
Definition callbackObserved (s : State) (userAddress : address) : bool :=
  let isVerified := read_isVerified s userAddress in
  let requestId := mget 0 (userToRequestId s) userAddress in
  if negb (requestId =? 0) && processed (request s requestId) then true
  else is_defined isVerified.

(** [for (let i = 0; i < MAX_WAIT; i++)], with [remaining] iterations to
    go. [OnProgress i MAX_WAIT] stands for [onProgress(i / MAX_WAIT)]. *)
Fixpoint waitLoop (userAddress : address) (remaining : nat) (i : Z)
  : outcome unit * list effect :=
  match remaining with
  | O => (Throw (Error "等待回调超时 - 请检查合约状态或重试"), [])
  | S remaining' =>
      let continue (pre : list effect) :=
        let '(r, t) := waitLoop userAddress remaining' (i + 1) in
        (r, OnProgress i MAX_WAIT :: ReadLedger i :: pre ++ Sleep INTERVAL :: t) in
      match ledger i with
      | None => continue [Warn (Error "read failed")]
      | Some s =>
          if callbackObserved s userAddress
          then (Return tt, [OnProgress i MAX_WAIT; ReadLedger i])
          else continue []
      end
  end.

Definition waitForCallbackCompletion (userAddress : address)
  : outcome unit * list effect :=
  waitLoop userAddress (Z.to_nat MAX_WAIT) 0.

End WaitForCallbackCompletion.

End UseDecryption.

(** ** The metadata helpers of the full credential contract
       (contracts/AgeCredentialNFT.sol) *)

Module Metadata.

(** [bytes memory]: a fixed-length array of bytes, each a number below 256. *)
Definition bytes := list Z.

(** [new bytes(n)] *)
Definition new_bytes (n : Z) : bytes := replicate (Z.to_nat n) 0.

(** [buffer[i] = b]; an index outside the array panics with code 0x32. *)
Definition write (buffer : bytes) (i : Z) (b : Z) : result bytes :=
  if (0 <=? i) && (i <? Z.of_nat (length buffer))
  then Ok (<[Z.to_nat i := b]> buffer)
  else Panic 50.

(** [buffer[i]] *)
Definition read (buffer : bytes) (i : Z) : result Z :=
  if 0 <=? i then
    match buffer !! Z.to_nat i with
    | Some b => Ok b
    | None => Panic 50
    end
  else Panic 50.

(** Checked subtraction on [uint256]. *)
Definition checked_sub (a b : Z) : result Z :=
  if b <=? a then Ok (a - b) else Panic 17.

(** [uint8(x)] *)
Definition to_uint8 (x : Z) : Z := x mod 256.

(** The loops below run on gas; [remaining] bounds their iterations, and
    running out of it reverts the call. *)
Definition out_of_gas {A : Type} : result A := Revert "out of gas".

(** [while (temp != 0) { digits++; temp /= 10; }] *)
Fixpoint countDigits (remaining : nat) (temp digits : Z) : result Z :=
  if temp =? 0 then Ok digits
  else
    match remaining with
    | O => out_of_gas
    | S remaining' =>
        do digits' <- checked_add digits 1;
        countDigits remaining' (temp / 10) digits'
    end.

(** [while (value != 0) { digits -= 1;
      buffer[digits] = bytes1(uint8(48 + uint256(value % 10))); value /= 10; }] *)
Fixpoint fillDigits (remaining : nat) (value digits : Z) (buffer : bytes) : result bytes :=
  if value =? 0 then Ok buffer
  else
    match remaining with
    | O => out_of_gas
    | S remaining' =>
        do digits' <- checked_sub digits 1;
        do sum <- checked_add 48 (value mod 10);
        do buffer' <- write buffer digits' (to_uint8 sum);
        fillDigits remaining' (value / 10) digits' buffer'
    end.

(** A [uint256] has at most 78 decimal digits. *)
Definition digit_budget : nat := 78.

(** [_toString(value)] *)
Definition _toString (value : Z) : result bytes :=
  if value =? 0 then Ok [48]
  else
    do digits <- countDigits digit_budget value 0;
    fillDigits digit_budget value digits (new_bytes digits).

(** [_toHexChar(value)] on a [uint8]. *)
Definition _toHexChar (value : Z) : result Z :=
  if value <? 10 then
    do c <- checked_add8 48 value; Ok c
  else
    do c <- checked_add8 87 value; Ok c.

(** The first loop of [_toHexString]: [for (uint256 i = 0; i < 20; i++)],
    with [remaining] iterations to go. *)
Fixpoint hexLoop (remaining : nat) (addr : Z) (i : Z) (buffer : bytes) : result bytes :=
  match remaining with
  | O => Ok buffer
  | S remaining' =>
      let value := to_uint8 (Z.shiftr addr (8 * (19 - i))) in
      let hi := Z.shiftr value 4 in
      let lo := Z.land value 15 in
      do chi <- _toHexChar hi;
      do buffer1 <- write buffer (2 + i * 2) chi;
      do clo <- _toHexChar lo;
      do buffer2 <- write buffer1 (3 + i * 2) clo;
      hexLoop remaining' addr (i + 1) buffer2
  end.

(** [for (uint i = 0; i < 6; i++) { result[offset + i] = buffer[from + i]; }] *)
Fixpoint copyLoop (remaining : nat) (i offset from : Z) (buffer result_ : bytes)
  : result bytes :=
  match remaining with
  | O => Ok result_
  | S remaining' =>
      do b <- read buffer (from + i);
      do result' <- write result_ (offset + i) b;
      copyLoop remaining' (i + 1) offset from buffer result'
  end.

(** [_toHexString(addr)]: the shortened display of a 160-bit address. *)
Definition _toHexString (addr : Z) : result bytes :=
  let buffer := new_bytes 42 in
  do buffer <- write buffer 0 48;       (* "0" *)
  do buffer <- write buffer 1 120;      (* "x" *)
  do buffer <- hexLoop 20 addr 0 buffer;
  let result_ := new_bytes 14 in
  do result_ <- copyLoop 6 0 0 0 buffer result_;
  do result_ <- write result_ 6 46;     (* "." *)
  do result_ <- write result_ 7 46;
  copyLoop 6 0 8 36 buffer result_.

(** The Base64 alphabet, as bytes. *)
Definition table : bytes :=
  map (fun c : Ascii.ascii => Z.of_N (Ascii.N_of_ascii c))
      (list_ascii_of_string
         "ABCDEFGHIJKLMNOPQRSTUVWXYZabcdefghijklmnopqrstuvwxyz0123456789+/").

(** Operators on [bytes1]: a left shift drops the bits pushed out. *)
Definition shl1 (b n : Z) : Z := Z.land (Z.shiftl b n) 255.
Definition shr1 (b n : Z) : Z := Z.shiftr b n.

(** [result[j++] = c] *)
Definition push (st : bytes * Z) (c : Z) : result (bytes * Z) :=
  let '(result_, j) := st in
  do result' <- write result_ j c;
  do j' <- checked_add j 1;
  Ok (result', j').

(** [bytes(table)[uint8(x)]] *)
Definition lookup64 (x : Z) : result Z := read table (to_uint8 x).

(** The main loop of [encodeBase64]:
    [for (; i + 3 <= len; i += 3) { ... four characters ... }],
    with [remaining] iterations of gas. *)
Fixpoint encodeGroups (remaining : nat) (data : bytes) (len i : Z) (st : bytes * Z)
  : result (Z * (bytes * Z)) :=
  do bound <- checked_add i 3;
  if bound <=? len then
    match remaining with
    | O => out_of_gas
    | S remaining' =>
        do d0 <- read data i;
        do i1 <- checked_add i 1;
        do d1 <- read data i1;
        do i2 <- checked_add i 2;
        do d2 <- read data i2;
        do c0 <- lookup64 (shr1 d0 2);
        do st <- push st c0;
        do c1 <- lookup64 (Z.lor (shl1 (Z.land d0 3) 4) (shr1 d1 4));
        do st <- push st c1;
        do c2 <- lookup64 (Z.lor (shl1 (Z.land d1 15) 2) (shr1 d2 6));
        do st <- push st c2;
        do c3 <- lookup64 (Z.land d2 63);
        do st <- push st c3;
        do i' <- checked_add i 3;
        encodeGroups remaining' data len i' st
    end
  else Ok (i, st).

(** The tail of [encodeBase64]: the [if (i < len)] block. *)
Definition encodeTail (data : bytes) (len i : Z) (st : bytes * Z) : result (bytes * Z) :=
  if i <? len then
    do d0 <- read data i;
    do c0 <- lookup64 (shr1 d0 2);
    do st <- push st c0;
    do i1 <- checked_add i 1;
    do st <-
      (if i1 <? len then
         do d1 <- read data i1;
         do c1 <- lookup64 (Z.lor (shl1 (Z.land d0 3) 4) (shr1 d1 4));
         do st <- push st c1;
         do c2 <- lookup64 (shl1 (Z.land d1 15) 2);
         push st c2
       else
         do c1 <- lookup64 (shl1 (Z.land d0 3) 4);
         do st <- push st c1;
         push st 61);                      (* "=" *)
    push st 61
  else Ok st.

(** [encodeBase64(data)] *)
Definition encodeBase64 (data : bytes) : result bytes :=
  let len := Z.of_nat (length data) in
  if len =? 0 then Ok []
  else
    do len2 <- checked_add len 2;
    do encodedLen <- (let q := len2 / 3 in
                      if 4 * q <=? uint256_max then Ok (4 * q) else Panic 17);
    let result_ := new_bytes encodedLen in
    do r <- encodeGroups (length data) data len 0 (result_, 0);
    let '(i, st) := r in
    do st <- encodeTail data len i st;
    Ok (fst st).

(** Reading the digits back: the number a string of decimal digits
    denotes. *)
Definition parseDecimal (s : bytes) : Z :=
  foldl (fun acc b => acc * 10 + (b - 48)) 0 s.

(** The value of one lower-case hexadecimal digit. *)
Definition hexValue (c : Z) : Z :=
  if c <? 58 then c - 48 else c - 87.

(** The number a string of hexadecimal digits denotes. *)
Definition parseHex (s : bytes) : Z :=
  foldl (fun acc c => acc * 16 + hexValue c) 0 s.

(** The position of a character in the Base64 alphabet. *)
Definition index64 (c : Z) : Z :=
  if (65 <=? c) && (c <=? 90) then c - 65
  else if (97 <=? c) && (c <=? 122) then c - 71
  else if (48 <=? c) && (c <=? 57) then c + 4
  else if c =? 43 then 62
  else 63.

(** A Base64 decoder, written from the standard and not from the contract:
    four characters give three bytes, with "=" marking a short last group. *)
Fixpoint decodeBase64 (s : bytes) : bytes :=
  match s with
  | c0 :: c1 :: c2 :: c3 :: rest =>
      let a := index64 c0 in
      let b := index64 c1 in
      if c2 =? 61 then [a * 4 + b / 16]
      else
        let c := index64 c2 in
        if c3 =? 61 then [a * 4 + b / 16; (b mod 16) * 16 + c / 4]
        else
          let d := index64 c3 in
          [a * 4 + b / 16; (b mod 16) * 16 + c / 4; (c mod 4) * 64 + d]
          ++ decodeBase64 rest
  | _ => []
  end.

(** The [n] low decimal digits of [value] as characters, most significant
    first. *)
Fixpoint decimalDigits (n : nat) (value : Z) : bytes :=
  match n with
  | O => []
  | S n' => decimalDigits n' (value / 10) ++ [48 + value mod 10]
  end.

(** The character for a 6-bit value. *)
Definition char64 (k : Z) : Z := default 0 (table !! Z.to_nat k).

(** Base64 as the standard describes it, group by group. *)
Fixpoint encodeStandard (data : bytes) : bytes :=
  match data with
  | a :: b :: c :: rest =>
      [char64 (a / 4); char64 ((a mod 4) * 16 + b / 16);
       char64 ((b mod 16) * 4 + c / 64); char64 (c mod 64)]
      ++ encodeStandard rest
  | [a; b] =>
      [char64 (a / 4); char64 ((a mod 4) * 16 + b / 16); char64 ((b mod 16) * 4); 61]
  | [a] => [char64 (a / 4); char64 ((a mod 4) * 16); 61; 61]
  | [] => []
  end.

(** A byte. *)
Definition is_byte (b : Z) : Prop := 0 <= b < 256.

(** The lower-case hexadecimal digit of a 4-bit value. *)
Definition hexChar (v : Z) : Z := if v <? 10 then 48 + v else 87 + v.

Definition is_hex_digit (c : Z) : Prop := 48 <= c <= 57 \/ 97 <= c <= 102.

(** Byte [i] of a 160-bit address, counted from the most significant one,
    as the first loop of [_toHexString] takes it. *)
Definition addressByte (addr i : Z) : Z := to_uint8 (Z.shiftr addr (8 * (19 - i))).

(** The two digits the loop writes for byte [i]. *)
Definition hexPair (addr i : Z) : bytes :=
  [hexChar (Z.shiftr (addressByte addr i) 4); hexChar (Z.land (addressByte addr i) 15)].

(** The digits written by [remaining] iterations of the loop from byte [i]
    on. *)
Fixpoint hexDigits (remaining : nat) (addr i : Z) : bytes :=
  match remaining with
  | O => []
  | S remaining' => hexPair addr i ++ hexDigits remaining' addr (i + 1)
  end.

End Metadata.

(** ** The credential token contract (AgeCredentialNFT, full version with
    revocation, [contracts/AgeCredentialNFT.sol]) *)

Module RevocableCredential.

Inductive Log : Type :=
| Transfer (from to : address) (tokenId : Z)
| CredentialMinted (to : address) (tokenId timestamp : Z)
| CredentialRevoked (from : address) (tokenId : Z)
| MinterAuthorized (minter : address)
| MinterRevoked (minter : address).

Record State : Type := mkState {
  owner : address;                     (* Ownable._owner *)
  owners : gmap Z address;             (* ERC721._owners *)
  balances : gmap Z Z;                 (* ERC721._balances *)
  tokenIdCounter : Z;                  (* _tokenIdCounter *)
  encryptedAges : gmap Z euint32;
  addressToTokenId : gmap Z Z;
  tokenIdToAddress : gmap Z address;
  mintTimestamp : gmap Z Z;
  authorizedMinters : gmap Z bool
}.

(** constructor: [_tokenIdCounter = 1], deployer becomes owner. *)
Definition constructor (deployer : address) : State :=
  mkState deployer ∅ ∅ 1 ∅ ∅ ∅ ∅ ∅.

Definition _ownerOf (s : State) (tokenId : Z) : address :=
  mget 0 (owners s) tokenId.

Definition balanceOf (s : State) (a : address) : Z :=
  mget 0 (balances s) a.

(** The library's [ownerOf]: reverts for a token nobody owns. *)
Definition ownerOf (s : State) (tokenId : Z) : result address :=
  requires (negb (_ownerOf s tokenId =? 0)) or_revert "ERC721NonexistentToken";
  Ok (_ownerOf s tokenId).

Definition hasCredential (s : State) (account : address) : bool :=
  negb (mget 0 (addressToTokenId s) account =? 0).

Definition getTokenIdOf (s : State) (account : address) : Z :=
  mget 0 (addressToTokenId s) account.

(** The token part of the state replaced. *)
Definition set_tokens (s : State) (owners' : gmap Z address) (balances' : gmap Z Z) : State :=
  mkState (owner s) owners' balances' (tokenIdCounter s) (encryptedAges s)
          (addressToTokenId s) (tokenIdToAddress s) (mintTimestamp s)
          (authorizedMinters s).

Definition set_authorizedMinters (s : State) (m : gmap Z bool) : State :=
  mkState (owner s) (owners s) (balances s) (tokenIdCounter s) (encryptedAges s)
          (addressToTokenId s) (tokenIdToAddress s) (mintTimestamp s) m.

(** The library's [ERC721._update]: moves the token, adjusts both balances
    and logs [Transfer]; returns the previous owner. With a non-zero [auth]
    the library first checks that [auth] may move the token, which fails
    for a token nobody owns. Approvals are not tracked: the override below
    never lets an owned token reach this function with a non-zero [to]
    and [burn] passes no [auth]. *)
Definition super_update (s : State) (to : address) (tokenId : Z) (auth : address)
  : result (State * list Log * address) :=
  let from := _ownerOf s tokenId in
  requires (negb (negb (auth =? 0) && (from =? 0))) or_revert "ERC721NonexistentToken";
  requires ((auth =? 0) || (auth =? from)) or_revert "ERC721InsufficientApproval";
  let bal1 := if from =? 0 then balances s
              else <[from := mget 0 (balances s) from - 1]> (balances s) in
  let bal2 := if to =? 0 then bal1
              else <[to := mget 0 bal1 to + 1]> bal1 in
  Ok (set_tokens s (<[tokenId := to]> (owners s)) bal2,
      [Transfer from to tokenId], from).

(** The contract's override of [_update]: minting and burning pass, a move
    from one address to another does not. *)
Definition _update (s : State) (to : address) (tokenId : Z) (auth : address)
  : result (State * list Log * address) :=
  let from := _ownerOf s tokenId in
  if negb (from =? 0) && negb (to =? 0)
  then Revert "Credential is soulbound and cannot be transferred"
  else super_update s to tokenId auth.

(** The library's [_safeMint], for a recipient on which its closing
    acceptance check changes nothing: an account without code, or a contract
    whose [onERC721Received] returns the selector and calls nothing (the
    check is [checkOnERC721Received] below). *)
Definition _safeMint (s : State) (to : address) (tokenId : Z)
  : result (State * list Log) :=
  requires (negb (to =? 0)) or_revert "ERC721InvalidReceiver";
  do r <- _update s to tokenId 0;
  let '(s', evs, previousOwner) := r in
  requires (previousOwner =? 0) or_revert "ERC721InvalidSender";
  Ok (s', evs).

(** The library's [_burn]. *)
Definition _burn (s : State) (tokenId : Z) : result (State * list Log) :=
  do r <- _update s 0 tokenId 0;
  let '(s', evs, previousOwner) := r in
  requires (negb (previousOwner =? 0)) or_revert "ERC721NonexistentToken";
  Ok (s', evs).

(** The library's [transferFrom], which goes through [_update]. *)
Definition transferFrom (sender : address) (s : State) (from to : address) (tokenId : Z)
  : result (State * list Log) :=
  requires (negb (to =? 0)) or_revert "ERC721InvalidReceiver";
  do r <- _update s to tokenId sender;
  let '(s', evs, previousOwner) := r in
  requires (previousOwner =? from) or_revert "ERC721IncorrectOwner";
  Ok (s', evs).

Definition authorizeMinter (sender : address) (s : State) (minter : address)
  : result (State * list Log) :=
  requires (sender =? owner s) or_revert "OwnableUnauthorizedAccount";
  Ok (set_authorizedMinters s (<[minter := true]> (authorizedMinters s)),
      [MinterAuthorized minter]).

Definition revokeMinter (sender : address) (s : State) (minter : address)
  : result (State * list Log) :=
  requires (sender =? owner s) or_revert "OwnableUnauthorizedAccount";
  Ok (set_authorizedMinters s (<[minter := false]> (authorizedMinters s)),
      [MinterRevoked minter]).

Definition mintCredential (sender : address) (now : Z) (s : State)
           (to : address) (encryptedAge : euint32)
  : result (State * list Log * Z) :=
  requires (mget false (authorizedMinters s) sender) or_revert "Not authorized to mint";
  requires (mget 0 (addressToTokenId s) to =? 0)
    or_revert "Address already has a credential";
  let tokenId := tokenIdCounter s in
  do next <- checked_add (tokenIdCounter s) 1;
  let s1 := mkState (owner s) (owners s) (balances s) next
                    (encryptedAges s) (addressToTokenId s) (tokenIdToAddress s)
                    (mintTimestamp s) (authorizedMinters s) in
  do r <- _safeMint s1 to tokenId;
  let '(s2, evs) := r in
  Ok (mkState (owner s2) (owners s2) (balances s2) (tokenIdCounter s2)
              (<[tokenId := encryptedAge]> (encryptedAges s2))
              (<[to := tokenId]> (addressToTokenId s2))
              (<[tokenId := to]> (tokenIdToAddress s2))
              (<[tokenId := now]> (mintTimestamp s2))
              (authorizedMinters s2),
      evs ++ [CredentialMinted to tokenId now], tokenId).

(** The acceptance check that ends the library's [_safeMint], for the
    recipients that make no call of their own while they are asked: an
    account without code is not asked; a contract lets the mint pass by
    returning the selector of [onERC721Received], and makes it revert by
    returning anything else or by reverting. *)
Inductive Receiver : Type :=
| NoCode
| Returns (selector : bool).

Definition accepts (r : Receiver) : bool :=
  match r with NoCode => true | Returns selector => selector end.

Definition checkOnERC721Received (r : Receiver) : result unit :=
  match r with
  | NoCode => Ok tt
  | Returns selector => requires selector or_revert "ERC721InvalidReceiver"; Ok tt
  end.

(** [_safeMint] with the check, and [mintCredential] on top of it. *)
Definition _safeMint_checked (r : Receiver) (s : State) (to : address) (tokenId : Z)
  : result (State * list Log) :=
  requires (negb (to =? 0)) or_revert "ERC721InvalidReceiver";
  do u <- _update s to tokenId 0;
  let '(s', evs, previousOwner) := u in
  requires (previousOwner =? 0) or_revert "ERC721InvalidSender";
  do _ <- checkOnERC721Received r;
  Ok (s', evs).

Definition mintCredential_checked (r : Receiver) (sender : address) (now : Z) (s : State)
           (to : address) (encryptedAge : euint32)
  : result (State * list Log * Z) :=
  requires (mget false (authorizedMinters s) sender) or_revert "Not authorized to mint";
  requires (mget 0 (addressToTokenId s) to =? 0)
    or_revert "Address already has a credential";
  let tokenId := tokenIdCounter s in
  do next <- checked_add (tokenIdCounter s) 1;
  let s1 := mkState (owner s) (owners s) (balances s) next
                    (encryptedAges s) (addressToTokenId s) (tokenIdToAddress s)
                    (mintTimestamp s) (authorizedMinters s) in
  do m <- _safeMint_checked r s1 to tokenId;
  let '(s2, evs) := m in
  Ok (mkState (owner s2) (owners s2) (balances s2) (tokenIdCounter s2)
              (<[tokenId := encryptedAge]> (encryptedAges s2))
              (<[to := tokenId]> (addressToTokenId s2))
              (<[tokenId := to]> (tokenIdToAddress s2))
              (<[tokenId := now]> (mintTimestamp s2))
              (authorizedMinters s2),
      evs ++ [CredentialMinted to tokenId now], tokenId).

(** [revokeCredential]: the contract owner burns a token and clears its
    records; the stored encrypted age is left in place. *)
Definition revokeCredential (sender : address) (s : State) (tokenId : Z)
  : result (State * list Log) :=
  requires (sender =? owner s) or_revert "OwnableUnauthorizedAccount";
  do holder <- ownerOf s tokenId;
  do r <- _burn s tokenId;
  let '(s1, evs) := r in
  Ok (mkState (owner s1) (owners s1) (balances s1) (tokenIdCounter s1)
              (encryptedAges s1)
              (delete holder (addressToTokenId s1))
              (delete tokenId (tokenIdToAddress s1))
              (delete tokenId (mintTimestamp s1))
              (authorizedMinters s1),
      evs ++ [CredentialRevoked holder tokenId]).

(** The state a successful mint leaves. *)
Definition minted (s : State) (now : Z) (to : address) (age : euint32) : State :=
  mkState (owner s)
          (<[tokenIdCounter s := to]> (owners s))
          (<[to := balanceOf s to + 1]> (balances s))
          (tokenIdCounter s + 1)
          (<[tokenIdCounter s := age]> (encryptedAges s))
          (<[to := tokenIdCounter s]> (addressToTokenId s))
          (<[tokenIdCounter s := to]> (tokenIdToAddress s))
          (<[tokenIdCounter s := now]> (mintTimestamp s))
          (authorizedMinters s).

(** The state a successful revocation leaves. *)
Definition revoked (s : State) (tokenId : Z) : State :=
  mkState (owner s)
          (<[tokenId := 0]> (owners s))
          (<[_ownerOf s tokenId := balanceOf s (_ownerOf s tokenId) - 1]> (balances s))
          (tokenIdCounter s)
          (encryptedAges s)
          (delete (_ownerOf s tokenId) (addressToTokenId s))
          (delete tokenId (tokenIdToAddress s))
          (delete tokenId (mintTimestamp s))
          (authorizedMinters s).

(** One successful transaction on the token contract, run from start to
    end: the recipient of a mint makes no call from inside it. *)
Inductive step : State -> State -> Prop :=
| step_authorizeMinter sender s minter s' logs :
    authorizeMinter sender s minter = Ok (s', logs) -> step s s'
| step_revokeMinter sender s minter s' logs :
    revokeMinter sender s minter = Ok (s', logs) -> step s s'
| step_mintCredential sender now s to age s' logs tokenId :
    mintCredential sender now s to age = Ok (s', logs, tokenId) -> step s s'
| step_revokeCredential sender s tokenId s' logs :
    revokeCredential sender s tokenId = Ok (s', logs) -> step s s'
| step_transferFrom sender s from to tokenId s' logs :
    sender <> 0 ->
    transferFrom sender s from to tokenId = Ok (s', logs) -> step s s'.

(** The states the contract can be in: any number of transactions after
    its deployment. *)
Definition reachable (s : State) : Prop :=
  exists deployer : address, rtc step (constructor deployer) s.

(** The bookkeeping: ids are handed out from 1 upwards; a token that has
    an owner is the one recorded for that owner; the token recorded for an
    address is owned by it; and the balance of an address is 1 or 0
    according to whether a token is recorded for it. *)
Definition consistent (s : State) : Prop :=
  1 <= tokenIdCounter s /\
  (forall t : Z, _ownerOf s t <> 0 ->
                 1 <= t < tokenIdCounter s /\ getTokenIdOf s (_ownerOf s t) = t) /\
  (forall a : address, getTokenIdOf s a <> 0 ->
                       a <> 0 /\ _ownerOf s (getTokenIdOf s a) = a) /\
  (forall a : address, balanceOf s a = if hasCredential s a then 1 else 0).

(** A minter is authorised, Alice holds token 1, Bob token 2. *)
Definition deployer : address := 1.
Definition minter : address := 100.
Definition alice : address := 10.
Definition bob : address := 11.

Definition after {A : Type} (r : result (State * A)) (s : State) : State :=
  match r with Ok (s', _) => s' | _ => s end.

Definition authorised : State :=
  after (authorizeMinter deployer (constructor deployer) minter) (constructor deployer).
Definition aliceHolds : State :=
  match mintCredential minter 1000 authorised alice 55 with
  | Ok (s', _, _) => s'
  | _ => authorised
  end.
Definition bothHold : State :=
  match mintCredential minter 1100 aliceHolds bob 66 with
  | Ok (s', _, _) => s'
  | _ => aliceHolds
  end.
Definition aliceRevoked : State :=
  after (revokeCredential deployer bothHold 1) bothHold.

End RevocableCredential.

(** ** Replies that make a poll go on *)

Module Replies.

Import RelayerClient.

(** A gateway reply after which [pollDecryption] tries again: a network
    error, a status outside 2xx, or a 2xx response whose body is not JSON. *)
Definition unanswered {D : Type} (r : FetchReply D) : Prop :=
  match r with
  | NetworkError _ => True
  | Response status json =>
      ok status = false \/ exists e, json = Throw e
  end.

End Replies.

(** ** Histories of the ledger *)

Module Ledger.

Import AgeVerifierWithNFT.

(** The FHE library numbers decryption requests with a counter, so the id
    it hands out has no record yet. *)
Definition fresh (s : State) (requestId : Z) : Prop :=
  decryptionRequests s !! requestId = None.

(** One successful transaction on the ledger: a call of the verifier, or
    a call that some account makes to the token contract directly. Each
    runs from start to end: the recipient of a mint makes no call from
    inside it (what happens when it does is in [Reentrancy]). *)
Inductive step : World -> World -> Prop :=
| step_setNFTContract w a w' logs :
    setNFTContract w a = Ok (w', logs) -> step w w'
| step_verifyAge e w w' logs :
    fresh (verifier w) (fhe_requestId e) ->
    verifyAge e w = Ok (w', logs) -> step w w'
| step_callbackDecryption e w requestId decoded w' logs :
    callbackDecryption e w requestId decoded = Ok (w', logs) -> step w w'
| step_verifyAgeMock e w age w' logs :
    verifyAgeMock e w age = Ok (w', logs) -> step w w'
| step_mintNFTManual e w w' logs :
    mintNFTManual e w = Ok (w', logs) -> step w w'
| step_retryDecryption e w requestId s' logs newRequestId :
    fresh (verifier w) (fhe_requestId e) ->
    retryDecryption e (verifier w) requestId = Ok (s', logs, newRequestId) ->
    step w (set_verifier w s')
| step_authorizeMinter sender w minter n' logs :
    AgeCredentialNFT.authorizeMinter sender (nft w) minter = Ok (n', logs) ->
    step w (set_nft w n')
| step_mintCredential sender now w to age n' logs tokenId :
    AgeCredentialNFT.mintCredential sender now (nft w) to age = Ok (n', logs, tokenId) ->
    step w (set_nft w n')
| step_transferFrom sender w from to tokenId n' logs :
    sender <> 0 ->
    AgeCredentialNFT.transferFrom sender (nft w) from to tokenId = Ok (n', logs) ->
    step w (set_nft w n').

(** The ledger right after deployment of both contracts. *)
Definition deployed (deployer verifierAddress nftAddress : address)
           (minimumAgeHandle : euint32) : World :=
  mkWorld (constructor minimumAgeHandle nftAddress) verifierAddress
          (AgeCredentialNFT.constructor deployer).

Inductive reachable : World -> Prop :=
| reachable_deployed deployer verifierAddress nftAddress minimumAgeHandle :
    reachable (deployed deployer verifierAddress nftAddress minimumAgeHandle)
| reachable_step w w' :
    reachable w -> step w w' -> reachable w'.

(** The bookkeeping of the token contract: token ids are handed out from
    1 upwards; every token that has an owner is the one recorded for that
    owner in [addressToTokenId]; and an address has balance 1 or 0 according
    to whether a token is recorded for it. *)
Definition credentials_consistent (n : AgeCredentialNFT.State) : Prop :=
  1 <= AgeCredentialNFT.tokenIdCounter n /\
  (forall (t : Z) (a : address),
     AgeCredentialNFT.owners n !! t = Some a ->
     a <> 0 /\ mget 0 (AgeCredentialNFT.addressToTokenId n) a = t /\
     1 <= t < AgeCredentialNFT.tokenIdCounter n) /\
  (forall a : address,
     AgeCredentialNFT.balanceOf n a
     = if AgeCredentialNFT.hasCredential n a then 1 else 0).

(** The bookkeeping of the verifier: every request record has between 0
    and MAX_RETRIES retries and a requester that [requestIdToUser] also
    names, and the current request of a subject is a recorded request of
    that subject. *)
Definition requests_consistent (s : State) : Prop :=
  (forall (id : Z) (r : DecryptionRequest),
     decryptionRequests s !! id = Some r ->
     0 <= retryCount r <= MAX_RETRIES /\
     requestIdToUser s !! id = Some (requester r)) /\
  (forall (id : Z) (user : address),
     requestIdToUser s !! id = Some user ->
     exists r, decryptionRequests s !! id = Some r /\ requester r = user) /\
  (forall (user : address) (id : Z),
     userToRequestId s !! user = Some id ->
     exists r, decryptionRequests s !! id = Some r /\ requester r = user).

(** Token ids are issued without gaps: the owned ids are exactly those
    from 1 up to the counter. *)
Definition ids_consecutive (n : AgeCredentialNFT.State) : Prop :=
  forall t : Z,
    is_Some (AgeCredentialNFT.owners n !! t)
    <-> 1 <= t < AgeCredentialNFT.tokenIdCounter n.

(** [lineage w id w' id' n]: starting from request [id] in [w], the
    history leads to [w'] through any transactions, [n] of which are
    retries of the current head of the chain, each making its new request
    the head; [id'] is the head in [w']. *)
Inductive lineage : World -> Z -> World -> Z -> nat -> Prop :=
| lineage_here w id :
    lineage w id w id 0
| lineage_other w id w1 id1 n w2 :
    lineage w id w1 id1 n -> step w1 w2 -> lineage w id w2 id1 n
| lineage_retry w id w1 id1 n e s2 logs newRequestId :
    lineage w id w1 id1 n ->
    fresh (verifier w1) (fhe_requestId e) ->
    retryDecryption e (verifier w1) id1 = Ok (s2, logs, newRequestId) ->
    lineage w id (set_verifier w1 s2) newRequestId (S n).

End Ledger.

(** ** A small ledger used for the worked examples *)

Module Scenario.

Import AgeVerifierWithNFT.

Definition deployer : address := 1.
Definition alice : address := 10.
Definition verifierAddress : address := 100.
Definition nftAddress : address := 200.

Definition w0 : World := Ledger.deployed deployer verifierAddress nftAddress 7.

(** The world after a transaction, unchanged when it reverts. *)
Definition after (r : result (World * list Event)) (w : World) : World :=
  match r with Ok (w', _) => w' | _ => w end.

(** Alice submits her encrypted age at time 1000; the library assigns
    request id 1. *)
Definition submitted : World :=
  after (verifyAge (mkEnv alice 1000 55 1 true) w0) w0.

(** Alice retries request 1 at time [now]; the library would assign [newId]. *)
Definition retryAt (now newId : Z) : Env := mkEnv alice now 0 newId true.

(** The same ledger after three retries, ten minutes apart. *)
Definition retriedOn (w : World) (e : Env) (requestId : Z) : World :=
  match retryDecryption e (verifier w) requestId with
  | Ok (s', _, _) => set_verifier w s'
  | _ => w
  end.
Definition retriedOnce : World := retriedOn submitted (retryAt 1600 2) 1.
Definition retriedTwice : World := retriedOn retriedOnce (retryAt 2200 3) 2.
Definition retriedThrice : World := retriedOn retriedTwice (retryAt 2800 4) 3.

(** The token contract's owner authorises the verifier as minter. *)
Definition authorised : World :=
  match AgeCredentialNFT.authorizeMinter deployer (nft w0) verifierAddress with
  | Ok (n', _) => set_nft w0 n'
  | _ => w0
  end.

(** Alice passes the mock verification twice. *)
Definition verifiedOnce : World :=
  after (verifyAgeMock (mkEnv alice 1000 55 0 true) authorised 25) authorised.
Definition verifiedTwice : World :=
  after (verifyAgeMock (mkEnv alice 2000 56 0 true) verifiedOnce 25) verifiedOnce.

(** The same submission on the ledger whose verifier may mint, and its
    completion by the gateway's callback at time 1200. *)
Definition gateway : address := 50.
Definition submittedAuthorised : World :=
  after (verifyAge (mkEnv alice 1000 55 1 true) authorised) authorised.
Definition callbackAt (now : Z) : Env := mkEnv gateway now 0 0 true.
Definition completed : World :=
  after (callbackDecryption (callbackAt 1200) submittedAuthorised 1 (Some true))
        submittedAuthorised.

(** A ledger deployed without a token contract: Bob passes the mock
    verification, and only then is the token contract configured and the
    verifier authorised. *)
Definition bob : address := 11.
Definition bare : World := Ledger.deployed deployer verifierAddress 0 7.
Definition bobVerified : World :=
  after (verifyAgeMock (mkEnv bob 900 60 0 true) bare 30) bare.
Definition configured : World :=
  after (setNFTContract bobVerified nftAddress) bobVerified.
Definition configuredAuthorised : World :=
  match AgeCredentialNFT.authorizeMinter deployer (nft configured) verifierAddress with
  | Ok (n', _) => set_nft configured n'
  | _ => configured
  end.

End Scenario.

(** ** Recipients that are contracts *)

(** The library's [_safeMint] ends with [checkOnERC721Received]: when the
    recipient has code, its [onERC721Received] is called, and the mint
    reverts unless the call returns the function's selector. The call runs
    after the owner and balance are written and before [mintCredential]
    writes [addressToTokenId], and the recipient may call the verifier from
    inside it. The functions of the token contract and of the verifier that
    lead to a mint are given here with that check as a parameter; they work
    on the whole ledger, because a nested call changes both contracts. *)
Module Reentrancy.

Import AgeVerifierWithNFT.

(** What the recipient does during the check: it has no code and is not
    called; or it only returns, the selector or something else; or it first
    calls [verifyAgeMock(age)] on the verifier, behaving as [inner] during
    that nested call, and then returns. *)
Inductive Receiver : Type :=
| NoCode
| Returns (selector : bool)
| Reenters (age : Z) (handle : euint32) (inner : Receiver) (selector : bool).

(** The recipients that call nothing, and those among them that let the
    mint pass. *)
Definition makes_no_call (r : Receiver) : bool :=
  match r with NoCode | Returns _ => true | Reenters _ _ _ _ => false end.
Definition accepts (r : Receiver) : bool :=
  match r with NoCode => true | Returns selector | Reenters _ _ _ selector => selector end.

(** The check, as the rest of the mint sees it. *)
Definition Hook : Type := World -> result (World * list Event).

(** [_safeMint(to, tokenId)] of the library. *)
Definition _safeMint (hook : Hook) (w : World) (to : address) (tokenId : Z)
  : result (World * list Event) :=
  requires (negb (to =? 0)) or_revert "ERC721InvalidReceiver";
  do r <- AgeCredentialNFT._update (nft w) to tokenId 0;
  let '(n', evs, previousOwner) := r in
  requires (previousOwner =? 0) or_revert "ERC721InvalidSender";
  do h <- hook (set_nft w n');
  let '(w', evs') := h in
  Ok (w', evs ++ evs').

(** [AgeCredentialNFT.mintCredential(to, encryptedAge)] *)
Definition mintCredential (hook : Hook) (sender : address) (now : Z) (w : World)
           (to : address) (encryptedAge : euint32)
  : result (World * list Event * Z) :=
  let s := nft w in
  requires (mget false (AgeCredentialNFT.authorizedMinters s) sender)
    or_revert "Not authorized";
  requires (mget 0 (AgeCredentialNFT.addressToTokenId s) to =? 0)
    or_revert "Already has credential";
  let tokenId := AgeCredentialNFT.tokenIdCounter s in
  do next <- checked_add (AgeCredentialNFT.tokenIdCounter s) 1;
  let s1 := AgeCredentialNFT.mkState
              (AgeCredentialNFT.owner s) (AgeCredentialNFT.owners s)
              (AgeCredentialNFT.balances s) next
              (AgeCredentialNFT.encryptedAges s) (AgeCredentialNFT.addressToTokenId s)
              (AgeCredentialNFT.mintTimestamp s) (AgeCredentialNFT.authorizedMinters s) in
  do r <- _safeMint hook (set_nft w s1) to tokenId;
  let '(w2, evs) := r in
  let s2 := nft w2 in
  Ok (set_nft w2
        (AgeCredentialNFT.mkState
           (AgeCredentialNFT.owner s2) (AgeCredentialNFT.owners s2)
           (AgeCredentialNFT.balances s2) (AgeCredentialNFT.tokenIdCounter s2)
           (<[tokenId := encryptedAge]> (AgeCredentialNFT.encryptedAges s2))
           (<[to := tokenId]> (AgeCredentialNFT.addressToTokenId s2))
           (<[tokenId := now]> (AgeCredentialNFT.mintTimestamp s2))
           (AgeCredentialNFT.authorizedMinters s2)),
      evs ++ [CredentialMinted to tokenId now], tokenId).

(** [AgeVerifierWithNFT._mintNFTCredential(user)] *)
Definition _mintNFTCredential (hook : Hook) (now : Z) (w : World) (user : address)
  : result (World * list Event) :=
  if AgeCredentialNFT.hasCredential (nft w) user then Ok (w, [])
  else
    let userAge := mget 0 (userEncryptedAges (verifier w)) user in
    do r <- mintCredential hook (self w) now w user userAge;
    let '(w', evs, tokenId) := r in
    Ok (w', evs ++ [NFTCredentialMinted user tokenId]).

(** [AgeVerifierWithNFT.verifyAgeMock(age)] *)
Definition verifyAgeMock (hook : Hook) (e : Env) (w : World) (age : Z)
  : result (World * list Event) :=
  let s := verifier w in
  let res := 18 <=? age in
  let s := set_isVerified s (<[msg_sender e := res]> (isVerified s)) in
  let s := set_userEncryptedAges s
             (<[msg_sender e := fhe_handle e]> (userEncryptedAges s)) in
  let w1 := set_verifier w s in
  let evs := [VerificationResult (msg_sender e) res] in
  if res && negb (nftContract s =? 0) then
    do r <- _mintNFTCredential hook (block_timestamp e) w1 (msg_sender e);
    let '(w2, evs2) := r in
    Ok (w2, evs ++ evs2)
  else Ok (w1, evs).

(** [checkOnERC721Received] for the recipient [to] that behaves as [r], in
    a block of time [now]. A nested call that reverts makes the recipient's
    function revert, and with it the mint. *)
Fixpoint checkOnERC721Received (r : Receiver) (now : Z) (to : address) (w : World)
  : result (World * list Event) :=
  match r with
  | NoCode => Ok (w, [])
  | Returns selector =>
      requires selector or_revert "ERC721InvalidReceiver";
      Ok (w, [])
  | Reenters age handle inner selector =>
      do nested <- verifyAgeMock (checkOnERC721Received inner now to)
                                 (mkEnv to now handle 0 true) w age;
      requires selector or_revert "ERC721InvalidReceiver";
      Ok nested
  end.

(** A contract that passes the mock verification and, when it receives
    its token, passes it once more before returning the selector. *)
Definition mallory : address := 66.
Definition malloryCode : Receiver := Reenters 25 56 (Returns true) true.
Definition malloryVerifies : result (World * list Event) :=
  verifyAgeMock (checkOnERC721Received malloryCode 1000 mallory)
                (mkEnv mallory 1000 55 0 true) Scenario.authorised 25.

End Reentrancy.

(** * Properties *)

Import AgeVerifierWithNFT.

(** ** Reading the contract code *)

Section ResultLemmas.

Context {A B : Type}.

Lemma bind_Ok (m : result A) (k : A -> result B) (b : B) :
  Evm.bind m k = Ok b -> exists a, m = Ok a /\ k a = Ok b.
Proof. destruct m; simpl; intros H; try discriminate. eauto. Qed.

Lemma require_Ok (c : bool) (r : string) (k : unit -> result B) (b : B) :
  Evm.bind (require c r) k = Ok b -> c = true /\ k tt = Ok b.
Proof. destruct c; simpl; intros H; [auto | discriminate]. Qed.

Lemma require_true (c : bool) (r : string) (k : unit -> result B) :
  c = true -> Evm.bind (require c r) k = k tt.
Proof. intros ->. reflexivity. Qed.


End ResultLemmas.

Lemma checked_add_Ok (a b c : Z) : checked_add a b = Ok c -> c = a + b /\ a + b <= uint256_max.
Proof.
  unfold checked_add. destruct (Z.leb_spec (a + b) uint256_max) as [Hle | Hgt];
    intros Heq; inversion Heq; auto.
Qed.

Lemma checked_add_fits (a b : Z) : a + b <= uint256_max -> checked_add a b = Ok (a + b).
Proof.
  intros Hfit. unfold checked_add.
  destruct (Z.leb_spec (a + b) uint256_max) as [Hle | Hgt]; [reflexivity | lia].
Qed.


Lemma mget_insert_eq {V : Type} (zero v : V) (m : gmap Z V) (k : Z) :
  mget zero (<[k := v]> m) k = v.
Proof. unfold mget. by rewrite lookup_insert_eq. Qed.

Lemma mget_insert_ne {V : Type} (zero v : V) (m : gmap Z V) (k k' : Z) :
  k <> k' -> mget zero (<[k := v]> m) k' = mget zero m k'.
Proof. intros H. unfold mget. by rewrite lookup_insert_ne. Qed.

(** ** The retry operation of the verifier *)

Section RetryDecryption.

Variable e : Env.
Variable s : State.
Variable requestId : Z.

Let req := request s requestId.
Let user := mget 0 (requestIdToUser s) requestId.

(** Every way for [retryDecryption] to return normally: all six guards
    hold, and the result is [retried]. *)
Lemma retryDecryption_Ok_inv (s' : State) (logs : list Event) (newRequestId : Z) :
  retryDecryption e s requestId = Ok (s', logs, newRequestId) ->
  user <> 0 /\ msg_sender e = user /\ processed req = false /\
  retryCount req < MAX_RETRIES /\
  timestamp req + 5 * minutes < block_timestamp e /\
  block_timestamp e <= timestamp req + REQUEST_TIMEOUT /\
  mget 0 (userToRequestId s) user <> 0 /\
  newRequestId = fhe_requestId e /\ s' = retried e s requestId.
Proof.
  unfold retryDecryption. fold req. fold user. intros H.
  apply require_Ok in H as [Huser H].
  apply require_Ok in H as [Hsender H].
  apply require_Ok in H as [Hproc H].
  apply require_Ok in H as [Hrc H].
  apply bind_Ok in H as (cool & Hcool & H). apply checked_add_Ok in Hcool as [-> _].
  apply require_Ok in H as [Hsoon H].
  apply bind_Ok in H as (dl & Hdl & H). apply checked_add_Ok in Hdl as [-> _].
  apply require_Ok in H as [Hexp H].
  apply require_Ok in H as [Hidx H].
  apply bind_Ok in H as (b & Hb & H).
  unfold checked_add8 in Hb.
  destruct (retryCount req + 1 <=? uint8_max); [|discriminate].
  injection Hb as <-. injection H as <- _ <-.
  repeat split; try reflexivity.
  - intros Hz. rewrite Hz in Huser. discriminate.
  - lia.
  - destruct (processed req); [discriminate | reflexivity].
  - lia.
  - lia.
  - lia.
  - intros Hz. rewrite Hz in Hidx. discriminate.
Qed.


(** Past the deadline the last guard fails, whatever else holds. *)
Lemma retryDecryption_expired_not_Ok :
  timestamp req + REQUEST_TIMEOUT < block_timestamp e ->
  is_ok (retryDecryption e s requestId) = false.
Proof.
  intros Hexp. destruct (retryDecryption e s requestId) as [[[s' logs] n]| |] eqn:H;
    try reflexivity.
  apply retryDecryption_Ok_inv in H. lia.
Qed.

(** With the retry count at the maximum the fourth guard fails. *)
Lemma retryDecryption_exhausted_not_Ok :
  MAX_RETRIES <= retryCount req ->
  is_ok (retryDecryption e s requestId) = false.
Proof.
  intros Hmax. destruct (retryDecryption e s requestId) as [[[s' logs] n]| |] eqn:H;
    try reflexivity.
  apply retryDecryption_Ok_inv in H. lia.
Qed.

End RetryDecryption.



(** C1. The code does not keep the claim. Request 1 exists, is unprocessed,
    is 40 minutes old (past the 30-minute window and the 5-minute cool-down)
    and was never retried; its status reads [expired], which is when
    [checkAndRetryDecryption] sends the retry ("请求已过期，尝试重试"); yet the
    contract's "Request expired" guard reverts the requester's retry, and
    the client ends with [null] and a ledger unchanged. *)
Theorem expired_request_retry_reverts :
  let s := verifier Scenario.submitted in
  let e := Scenario.retryAt (1000 + 40 * minutes) 2 in
  getRequestStatus (block_timestamp e) s 1 = Ok (mkStatus true false 0 true 1000) /\
  msg_sender e = mget 0 (requestIdToUser s) 1 /\
  retryCount (request s 1) < MAX_RETRIES /\
  timestamp (request s 1) + 5 * minutes < block_timestamp e /\
  retryDecryption e s 1 = Revert "Request expired" /\
  RetryMechanism.checkAndRetryDecryption (block_timestamp e) e s Scenario.alice true
    = (None, s, [SendTransaction "retryDecryption" 1; Warn (Error "Request expired")]).
Proof. vm_compute. repeat split; congruence. Qed.

(** The retry that [checkAndRetryDecryption] sends is sent for an expired
    request only, and by the time it executes the request is still expired:
    whatever it does, the ledger is as before. *)
Lemma checkAndRetryDecryption_changes_nothing
      (nowRead : Z) (tx : Env) (s : State) (userAddress : address) (onRetry : bool) :
  0 < timestamp (request s (mget 0 (userToRequestId s) userAddress)) ->
  nowRead <= block_timestamp tx ->
  snd (fst (RetryMechanism.checkAndRetryDecryption nowRead tx s userAddress onRetry)) = s.
Proof.
  intros Hexists Hlater. unfold RetryMechanism.checkAndRetryDecryption.
  set (requestId := mget 0 (userToRequestId s) userAddress) in *.
  destruct (requestId =? 0); [reflexivity|].
  unfold getRequestStatus.
  replace (0 <? timestamp (request s requestId)) with true by (symmetry; lia).
  cbn [negb].
  destruct (checked_add (timestamp (request s requestId)) REQUEST_TIMEOUT)
    as [deadline|reason|code] eqn:Hdeadline; cbn [Evm.bind]; [|reflexivity|reflexivity].
  apply checked_add_Ok in Hdeadline as [-> _].
  cbn [st_processed st_expired st_retryCount].
  destruct (processed (request s requestId)); [reflexivity|].
  destruct (Z.ltb_spec (timestamp (request s requestId) + REQUEST_TIMEOUT) nowRead)
    as [Hexpired|Hfresh]; [|reflexivity].
  cbn [andb].
  destruct (retryCount (request s requestId) <? 3); [|reflexivity].
  pose proof (retryDecryption_expired_not_Ok tx s requestId ltac:(lia)) as Hrevert.
  destruct (retryDecryption tx s requestId) as [[[s' logs] n]| |];
    [discriminate | reflexivity | reflexivity].
Qed.

(** ** Retry counts along a lineage *)

Lemma _mintNFTCredential_verifier (now : Z) (w w' : World) (user : address)
      (logs : list Event) :
  _mintNFTCredential now w user = Ok (w', logs) ->
  verifier w' = verifier w /\ self w' = self w.
Proof.
  unfold _mintNFTCredential.
  destruct (AgeCredentialNFT.hasCredential (nft w) user).
  - intros H. injection H as <- _. auto.
  - intros H. apply bind_Ok in H as ([[n' evs] tokenId] & _ & H).
    injection H as <- _. auto.
Qed.

Lemma retried_retryCount (e : Env) (s : State) (requestId : Z) :
  retryCount (request (retried e s requestId) (fhe_requestId e))
  = retryCount (request s requestId) + 1.
Proof.
  unfold request, retried. cbn [decryptionRequests].
  rewrite !mget_insert_eq. reflexivity.
Qed.

(** A transaction neither removes a request record nor lowers its retry
    count. *)
(** Closes a goal about a transaction that leaves [decryptionRequests] as
    it was. *)
Ltac unchanged_requests :=
  match goal with
  | Hid : is_Some _ |- _ /\ _ => split; [exact Hid | apply Z.le_refl]
  end.

Lemma step_retryCount (w w' : World) (id : Z) :
  Ledger.step w w' ->
  is_Some (decryptionRequests (verifier w) !! id) ->
  is_Some (decryptionRequests (verifier w') !! id) /\
  retryCount (request (verifier w) id) <= retryCount (request (verifier w') id).
Proof.
  intros Hstep Hid. destruct Hstep as
    [ w a w' logs H
    | e w w' logs Hfresh H
    | e w rid decoded w' logs H
    | e w age w' logs H
    | e w w' logs H
    | e w rid s' logs new Hfresh H
    | sender w minter n' logs H
    | sender now w to age n' logs tokenId H
    | sender w from to tokenId n' logs Hsender H ].
  - injection H as <- _. unchanged_requests.
  - unfold verifyAge in H. apply require_Ok in H as [_ H]. injection H as <- _.
    unfold request. cbn [verifier set_verifier decryptionRequests set_userToRequestId
      set_requestIdToUser set_decryptionRequests set_userEncryptedAges].
    assert (fhe_requestId e <> id) as Hne.
    { intros Heq. unfold Ledger.fresh in Hfresh. rewrite Heq in Hfresh.
      rewrite Hfresh in Hid. destruct Hid; discriminate. }
    rewrite mget_insert_ne by assumption. rewrite lookup_insert_ne by assumption.
    split; [assumption | lia].
  - unfold callbackDecryption in H.
    apply require_Ok in H as [_ H]. apply require_Ok in H as [_ H].
    apply bind_Ok in H as (dl & _ & H).
    apply require_Ok in H as [_ H]. apply require_Ok in H as [_ H].
    apply require_Ok in H as [_ H].
    destruct decoded as [d|]; [|discriminate].
    match type of H with
    | (if ?c then _ else _) = _ => destruct c
    end.
    + apply bind_Ok in H as ([w2 evs2] & Hm & H). injection H as <- _.
      apply _mintNFTCredential_verifier in Hm as [-> _].
      unfold request. cbn [verifier set_verifier decryptionRequests
        set_decryptionRequests set_isVerified].
      destruct (decide (rid = id)) as [->|Hne].
      * rewrite mget_insert_eq, lookup_insert_eq. split; [eauto | simpl; lia].
      * rewrite mget_insert_ne, lookup_insert_ne by assumption.
        split; [assumption | lia].
    + injection H as <- _.
      unfold request. cbn [verifier set_verifier decryptionRequests
        set_decryptionRequests set_isVerified].
      destruct (decide (rid = id)) as [->|Hne].
      * rewrite mget_insert_eq, lookup_insert_eq. split; [eauto | simpl; lia].
      * rewrite mget_insert_ne, lookup_insert_ne by assumption.
        split; [assumption | lia].
  - unfold verifyAgeMock in H.
    match type of H with
    | (if ?c then _ else _) = _ => destruct c
    end.
    + apply bind_Ok in H as ([w2 evs2] & Hm & H). injection H as <- _.
      apply _mintNFTCredential_verifier in Hm as [-> _].
      unchanged_requests.
    + injection H as <- _. unchanged_requests.
  - unfold mintNFTManual in H.
    apply require_Ok in H as [_ H]. apply require_Ok in H as [_ H].
    apply require_Ok in H as [_ H].
    apply _mintNFTCredential_verifier in H as [-> _]. unchanged_requests.
  - apply retryDecryption_Ok_inv in H as (_ & _ & _ & _ & _ & _ & _ & _ & ->).
    assert (fhe_requestId e <> id) as Hne.
    { intros Heq. unfold Ledger.fresh in Hfresh. rewrite Heq in Hfresh.
      rewrite Hfresh in Hid. destruct Hid; discriminate. }
    unfold request, retried. cbn [verifier set_verifier decryptionRequests].
    rewrite (mget_insert_ne _ _ _ (fhe_requestId e) id) by assumption.
    rewrite (lookup_insert_ne _ (fhe_requestId e) id) by assumption.
    destruct (decide (rid = id)) as [->|Hne'].
    + rewrite mget_insert_eq, lookup_insert_eq.
      split; [eauto | unfold request; simpl; lia].
    + rewrite mget_insert_ne, lookup_insert_ne by assumption.
      split; [assumption | lia].
  - unchanged_requests.
  - unchanged_requests.
  - unchanged_requests.
Qed.

(** Along a lineage the head keeps a record, and its retry count has grown
    by at least the number of retries that extended the chain. *)
Lemma lineage_retryCount (w w' : World) (id id' : Z) (n : nat) :
  Ledger.lineage w id w' id' n ->
  is_Some (decryptionRequests (verifier w) !! id) ->
  is_Some (decryptionRequests (verifier w') !! id') /\
  retryCount (request (verifier w) id) + Z.of_nat n
    <= retryCount (request (verifier w') id').
Proof.
  induction 1 as [w id | w id w1 id1 n w2 Hl IH Hstep
                 | w id w1 id1 n e s2 logs new Hl IH Hfresh Hretry];
    intros Hid.
  - split; [assumption | lia].
  - destruct (IH Hid) as [Hsome Hle].
    destruct (step_retryCount w1 w2 id1 Hstep Hsome) as [Hsome' Hle'].
    split; [assumption | lia].
  - destruct (IH Hid) as [Hsome Hle].
    apply retryDecryption_Ok_inv in Hretry as (_ & _ & _ & _ & _ & _ & _ & -> & ->).
    split.
    + unfold retried. cbn [verifier set_verifier decryptionRequests].
      rewrite lookup_insert_eq. eauto.
    + cbn [verifier set_verifier]. rewrite retried_retryCount. lia.
Qed.

(** C4. A successful retry gives the successor record the predecessor's
    retry count plus one; and however the ledger evolves afterwards, the
    current head of the lineage started by that retry has a retry count
    that exceeds the predecessor's by at least one more than the number of
    further retries in the chain, so it never decreases and never returns
    to zero. *)
Theorem retryCount_monotone_in_lineage
        (e : Env) (w : World) (requestId : Z)
        (s1 : State) (logs : list Event) (newRequestId : Z) :
  retryDecryption e (verifier w) requestId = Ok (s1, logs, newRequestId) ->
  let before := retryCount (request (verifier w) requestId) in
  retryCount (request s1 newRequestId) = before + 1 /\
  forall (w' : World) (id' : Z) (n : nat),
    Ledger.lineage (set_verifier w s1) newRequestId w' id' n ->
    before + 1 + Z.of_nat n <= retryCount (request (verifier w') id') /\
    (0 <= before -> 0 < retryCount (request (verifier w') id')).
Proof.
  intros Hretry before.
  apply retryDecryption_Ok_inv in Hretry as (_ & _ & _ & _ & _ & _ & _ & -> & ->).
  split; [apply retried_retryCount|].
  intros w' id' n Hl.
  apply lineage_retryCount in Hl as [_ Hle].
  - cbn [verifier set_verifier] in Hle. rewrite retried_retryCount in Hle.
    fold before in Hle. split; lia.
  - unfold retried. cbn [verifier set_verifier decryptionRequests].
    rewrite lookup_insert_eq. eauto.
Qed.

(** Alice's retry of request 1, ten minutes after its creation, gives
    request 2 the retry count 0 + 1; two more retries down the chain,
    request 4 has retry count 3. *)
Lemma retryCount_monotone_in_lineage_witness :
  retryCount (request (verifier Scenario.retriedOnce) 2)
    = retryCount (request (verifier Scenario.submitted) 1) + 1 /\
  retryCount (request (verifier Scenario.submitted) 1) + 1 + 2
    <= retryCount (request (verifier Scenario.retriedThrice) 4).
Proof.
  assert (retryDecryption (Scenario.retryAt 1600 2) (verifier Scenario.submitted) 1
    = Ok (verifier Scenario.retriedOnce,
          [DecryptionRetrying 1 2 1; DecryptionRequested 2 Scenario.alice 1600], 2))
    as Hfirst by (vm_compute; reflexivity).
  assert (Ledger.lineage Scenario.retriedOnce 2 Scenario.retriedTwice 3 1) as Hsecond.
  { replace Scenario.retriedTwice
      with (set_verifier Scenario.retriedOnce (verifier Scenario.retriedTwice))
      by (vm_compute; reflexivity).
    eapply (Ledger.lineage_retry Scenario.retriedOnce 2 Scenario.retriedOnce 2 0
              (Scenario.retryAt 2200 3)).
    - apply Ledger.lineage_here.
    - vm_compute. reflexivity.
    - vm_compute. reflexivity. }
  assert (Ledger.lineage Scenario.retriedOnce 2 Scenario.retriedThrice 4 2) as Hthird.
  { replace Scenario.retriedThrice
      with (set_verifier Scenario.retriedTwice (verifier Scenario.retriedThrice))
      by (vm_compute; reflexivity).
    eapply (Ledger.lineage_retry Scenario.retriedOnce 2 Scenario.retriedTwice 3 1
              (Scenario.retryAt 2800 4)).
    - exact Hsecond.
    - vm_compute. reflexivity.
    - vm_compute. reflexivity. }
  replace Scenario.retriedOnce
    with (set_verifier Scenario.submitted (verifier Scenario.retriedOnce)) in Hthird
    by (vm_compute; reflexivity).
  pose proof (retryCount_monotone_in_lineage _ Scenario.submitted 1 _ _ 2 Hfirst)
    as [Hstep Hchain].
  split; [exact Hstep|].
  exact (proj1 (Hchain _ _ _ Hthird)).
Defined.

(** ** The retry bound *)

(** The part of the retry bound that the code keeps: once the retry count
    of a subject's current request has reached MAX_RETRIES,
    [retryDecryption] does not succeed on it, and [checkAndRetryDecryption]
    sends no transaction and leaves the ledger as it is: it hands back the
    id of the current request, or [null] when that request is processed or
    its status cannot be read. *)
Theorem retry_not_sent_when_exhausted
        (nowRead : Z) (tx : Env) (s : State) (userAddress : address) (onRetry : bool) :
  let requestId := mget 0 (userToRequestId s) userAddress in
  0 < timestamp (request s requestId) ->
  MAX_RETRIES <= retryCount (request s requestId) ->
  is_ok (retryDecryption tx s requestId) = false /\
  exists (r : option Z) (t : list effect),
    RetryMechanism.checkAndRetryDecryption nowRead tx s userAddress onRetry = (r, s, t) /\
    sends t = [] /\
    (r = None \/ r = Some requestId).
Proof.
  intros requestId Hexists Hmax. split.
  - apply retryDecryption_exhausted_not_Ok. exact Hmax.
  - unfold RetryMechanism.checkAndRetryDecryption. fold requestId.
    destruct (requestId =? 0); [eauto 6|].
    unfold getRequestStatus.
    replace (0 <? timestamp (request s requestId)) with true by (symmetry; lia).
    cbn [negb].
    destruct (checked_add (timestamp (request s requestId)) REQUEST_TIMEOUT)
      as [deadline|reason|code]; cbn [Evm.bind]; [|eauto 6|eauto 6].
    cbn [st_processed st_expired st_retryCount].
    destruct (processed (request s requestId)); [eauto 6|].
    replace (retryCount (request s requestId) <? 3) with false
      by (symmetry; unfold MAX_RETRIES in Hmax; lia).
    rewrite andb_false_r. eauto 6.
Qed.

(** Request 4 of the example ledger is the third retry in its lineage. *)
Lemma retry_not_sent_when_exhausted_witness :
  let s := verifier Scenario.retriedThrice in
  let now := 2800 + 40 * minutes in
  retryCount (request s 4) = 3 /\
  is_ok (retryDecryption (Scenario.retryAt now 5) s 4) = false /\
  exists (r : option Z) (t : list effect),
    RetryMechanism.checkAndRetryDecryption now (Scenario.retryAt now 5) s Scenario.alice true
      = (r, s, t) /\
    sends t = [] /\
    (r = None \/ r = Some 4).
Proof.
  split; [vm_compute; reflexivity|].
  apply (retry_not_sent_when_exhausted (2800 + 40 * minutes)
           (Scenario.retryAt (2800 + 40 * minutes) 5)
           (verifier Scenario.retriedThrice) Scenario.alice true);
    vm_compute; congruence.
Defined.

(** C5. The code does not keep the last part of the claim. With the
    lineage at three retries and the current request 4 expired, a retry
    would revert with "Max retries exceeded" and the client rightly sends
    none; but [checkAndRetryDecryption] then falls through to
    [return requestId] instead of its failure value [null], and the handler,
    seeing a truthy id, reports that a retry was submitted. *)
Theorem exhausted_request_reported_as_retried :
  let s := verifier Scenario.retriedThrice in
  let now := 2800 + 40 * minutes in
  getRequestStatus now s 4 = Ok (mkStatus true false 3 true 2800) /\
  retryDecryption (Scenario.retryAt now 5) s 4 = Revert "Max retries exceeded" /\
  RetryMechanism.checkAndRetryDecryption now (Scenario.retryAt now 5) s Scenario.alice true
    = (Some 4, s, []) /\
  App.onDecryptionTimeout now (Scenario.retryAt now 5) s Scenario.alice
    = (App.RetrySubmitted, s, []).
Proof. vm_compute. repeat split; reflexivity. Qed.

(** ** Traces of the client *)

Lemma sleeps_app (t1 t2 : list effect) : sleeps (t1 ++ t2) = sleeps t1 ++ sleeps t2.
Proof. induction t1 as [|[] t1 IH]; simpl; congruence. Qed.

Lemma warnings_app (t1 t2 : list effect) : warnings (t1 ++ t2) = warnings t1 ++ warnings t2.
Proof. induction t1 as [|[] t1 IH]; simpl; congruence. Qed.

Lemma fetches_app (t1 t2 : list effect) : fetches (t1 ++ t2) = fetches t1 ++ fetches t2.
Proof. induction t1 as [|[] t1 IH]; simpl; congruence. Qed.


Lemma receiptPolls_app (t1 t2 : list effect) :
  receiptPolls (t1 ++ t2) = receiptPolls t1 ++ receiptPolls t2.
Proof. induction t1 as [|[] t1 IH]; simpl; congruence. Qed.

Lemma sends_app (t1 t2 : list effect) : sends (t1 ++ t2) = sends t1 ++ sends t2.
Proof. induction t1 as [|[] t1 IH]; simpl; congruence. Qed.

Lemma ledgerReads_app (t1 t2 : list effect) :
  ledgerReads (t1 ++ t2) = ledgerReads t1 ++ ledgerReads t2.
Proof. induction t1 as [|[] t1 IH]; simpl; congruence. Qed.

Lemma seqZ_succ (m : Z) (n : nat) : seqZ m (Z.of_nat (S n)) = m :: seqZ (m + 1) (Z.of_nat n).
Proof. rewrite seqZ_cons by lia. f_equal. f_equal; lia. Qed.

(** ** The oracle poller *)

Section PollLoop.

Import RelayerClient.

Variable D : Type.
Variable gateway : Z -> FetchReply D.
Variables (m interval : Z) (onProgress : bool).

(** A loop whose remaining attempts all miss runs them all, one request
    each, sleeps between consecutive attempts only, and ends in the timeout
    error. *)
Lemma pollLoop_exhausts (remaining : nat) (attempt : Z) :
  attempt + Z.of_nat remaining = m + 1 ->
  (forall a, attempt <= a <= m -> not_2xx (gateway a)) ->
  let '(r, t) := pollLoop gateway m interval onProgress remaining attempt in
  r = Throw (GatewayTimeoutError m interval) /\
  fetches t = seqZ attempt (Z.of_nat remaining) /\
  sleeps t = replicate (pred remaining) interval.
Proof.
  revert attempt. induction remaining as [|remaining IH]; intros attempt Hcount Hmiss.
  - simpl. auto.
  - specialize (IH (attempt + 1) ltac:(lia) ltac:(intros a Ha; apply Hmiss; lia)).
    assert (forall pre : list effect,
      fetches pre = [] -> sleeps pre = [] ->
      let '(r, t) :=
        (let '(r, t) := pollLoop gateway m interval onProgress remaining (attempt + 1) in
         (r, (if onProgress then [OnProgress attempt m] else [])
               ++ Fetch attempt :: pre
               ++ (if attempt <? m then [Sleep interval] else []) ++ t)) in
      r = Throw (GatewayTimeoutError m interval) /\
      fetches t = seqZ attempt (Z.of_nat (S remaining)) /\
      sleeps t = replicate (pred (S remaining)) interval) as Hcontinue.
    { intros pre Hf Hs.
      destruct (pollLoop gateway m interval onProgress remaining (attempt + 1)) as [r t].
      destruct IH as (-> & IHf & IHs). split; [reflexivity|].
      rewrite fetches_app, sleeps_app. simpl fetches. simpl sleeps.
      rewrite !fetches_app, !sleeps_app, Hf, Hs, IHf, IHs, seqZ_succ.
      destruct onProgress; simpl; (split; [
        destruct (attempt <? m); reflexivity |]).
      all: destruct (Z.ltb_spec attempt m) as [Hlt|Hge]; simpl;
        destruct remaining; simpl; try reflexivity; lia. }
    simpl pollLoop.
    pose proof (Hmiss attempt ltac:(lia)) as Hnow.
    destruct (gateway attempt) as [err|status json]; simpl in Hnow.
    + apply (Hcontinue [Warn err]); reflexivity.
    + rewrite Hnow. destruct (status =? 404).
      * apply (Hcontinue []); reflexivity.
      * apply (Hcontinue [Warn (Error "Gateway 返回异常")]); reflexivity.
Qed.

End PollLoop.

(** C2. With at least one attempt allowed and no attempt answered by a 2xx
    response (each gets 404, another status, or a network error), the poll
    makes one request per attempt 1, 2, ..., maxAttempts, no more and no
    fewer, and then throws the timeout error that carries maxAttempts. *)
Theorem pollDecryption_exhausts
        (D : Type) (gateway : Z -> RelayerClient.FetchReply D)
        (options : RelayerClient.PollOptions) :
  let maxAttempts := default 60 (RelayerClient.maxAttempts options) in
  let interval := default 5000 (RelayerClient.interval options) in
  1 <= maxAttempts ->
  (forall a, 1 <= a <= maxAttempts -> RelayerClient.not_2xx (gateway a)) ->
  let '(r, t) := RelayerClient.pollDecryption gateway options in
  r = Throw (GatewayTimeoutError maxAttempts interval) /\
  fetches t = seqZ 1 maxAttempts /\
  length (fetches t) = Z.to_nat maxAttempts.
Proof.
  intros maxAttempts interval Hpos Hmiss.
  unfold RelayerClient.pollDecryption. fold maxAttempts. fold interval.
  pose proof (pollLoop_exhausts D gateway maxAttempts interval
                (RelayerClient.onProgress options) (Z.to_nat maxAttempts) 1
                ltac:(lia) Hmiss) as H.
  destruct (RelayerClient.pollLoop gateway maxAttempts interval
              (RelayerClient.onProgress options) (Z.to_nat maxAttempts) 1) as [r t].
  destruct H as (-> & Hf & _).
  rewrite Z2Nat.id in Hf by lia.
  split; [reflexivity|]. split; [exact Hf|].
  rewrite Hf, length_seqZ. reflexivity.
Qed.

(** Three attempts against a gateway that answers 404, then 500, then drops
    the connection. *)
Lemma pollDecryption_exhausts_witness :
  let gateway := fun a : Z =>
    if a =? 1 then RelayerClient.Response 404 (Throw (Error "not ready"))
    else if a =? 2 then RelayerClient.Response 500 (Throw (Error "server error"))
    else @RelayerClient.NetworkError unit (Error "Failed to fetch") in
  let '(r, t) := RelayerClient.pollDecryption gateway
                   (RelayerClient.mkPollOptions (Some 3) (Some 10) false) in
  r = Throw (GatewayTimeoutError 3 10) /\
  fetches t = seqZ 1 3 /\
  length (fetches t) = Z.to_nat 3.
Proof.
  intros gateway.
  apply (pollDecryption_exhausts unit gateway
           (RelayerClient.mkPollOptions (Some 3) (Some 10) false)).
  - vm_compute. congruence.
  - intros a Ha. unfold gateway.
    destruct (a =? 1); [reflexivity|]. destruct (a =? 2); reflexivity.
Defined.

(** ** Read calls over the fallback endpoints *)

Section ReadFallback.

Import WalletCompatibility.

Variables raw value : Type.
Variable eth_call : string -> outcome raw.
Variable decode : raw -> outcome value.

(** Failing endpoints are passed over, each leaving a warning. *)
Lemma tryEndpoints_skip (pre rest : list string) :
  Forall (endpoint_fails eth_call decode) pre ->
  fst (tryEndpoints eth_call decode (pre ++ rest))
    = fst (tryEndpoints eth_call decode rest) /\
  map Some (warnings (snd (tryEndpoints eth_call decode (pre ++ rest))))
    = map (endpoint_error eth_call decode) pre
      ++ map Some (warnings (snd (tryEndpoints eth_call decode rest))).
Proof.
  induction 1 as [|rpcUrl pre Hfail _ IH]; [auto|].
  simpl app. simpl tryEndpoints.
  unfold endpoint_fails in Hfail. simpl map at 2. unfold endpoint_error at 1.
  destruct (tryEndpoints eth_call decode (pre ++ rest)) as [r t].
  destruct IH as [IHr IHw]. simpl in IHr, IHw.
  destruct (eth_call rpcUrl) as [result|err].
  - destruct (decode result) as [v|err]; [contradiction|].
    simpl. rewrite IHw. auto.
  - simpl. rewrite IHw. auto.
Qed.

(** The first endpoint that answers decides the call. *)
Lemma tryEndpoints_hit (rpcUrl : string) (rest : list string) (v : value) :
  endpoint_yields eth_call decode rpcUrl v ->
  tryEndpoints eth_call decode (rpcUrl :: rest) = (Return v, [EthCall rpcUrl]).
Proof.
  intros (result & Hcall & Hdecode). simpl. rewrite Hcall, Hdecode. reflexivity.
Qed.

(** With no endpoint left the loop falls through to the final [throw]. *)
Lemma tryEndpoints_all_fail (rpcs : list string) :
  Forall (endpoint_fails eth_call decode) rpcs ->
  fst (tryEndpoints eth_call decode rpcs) = Throw (Error "所有 RPC 调用均失败") /\
  map Some (warnings (snd (tryEndpoints eth_call decode rpcs)))
    = map (endpoint_error eth_call decode) rpcs.
Proof.
  intros Hfail. destruct (tryEndpoints_skip rpcs [] Hfail) as [Hr Hw].
  rewrite app_nil_r in Hr, Hw. split; [exact Hr|].
  rewrite Hw. simpl. apply app_nil_r.
Qed.

End ReadFallback.

(** C6. For any ordered list of endpoints in which those before the k-th
    fail and the k-th answers with a result that decodes to [v], the read
    returns [v]; the earlier failures only show up as warnings. This holds
    in particular for [safeContractCall], whose list is FALLBACK_RPCS. *)
Theorem safeContractCall_falls_back
        (raw value : Type) (eth_call : string -> outcome raw)
        (decode : raw -> outcome value)
        (earlier later : list string) (rpcUrl : string) (v : value) :
  Forall (WalletCompatibility.endpoint_fails eth_call decode) earlier ->
  WalletCompatibility.endpoint_yields eth_call decode rpcUrl v ->
  let '(r, t) :=
    WalletCompatibility.tryEndpoints eth_call decode (earlier ++ rpcUrl :: later) in
  r = Return v /\
  map Some (warnings t) = map (WalletCompatibility.endpoint_error eth_call decode) earlier /\
  (WalletCompatibility.FALLBACK_RPCS = earlier ++ rpcUrl :: later ->
   WalletCompatibility.safeContractCall eth_call decode = (Return v, t)).
Proof.
  intros Hfail Hhit.
  pose proof (tryEndpoints_skip raw value eth_call decode earlier (rpcUrl :: later) Hfail)
    as [Hr Hw].
  rewrite (tryEndpoints_hit raw value eth_call decode rpcUrl later v Hhit) in Hr, Hw.
  unfold WalletCompatibility.safeContractCall.
  destruct (WalletCompatibility.tryEndpoints eth_call decode (earlier ++ rpcUrl :: later))
    as [r t] eqn:Hrun.
  simpl in Hr, Hw. rewrite app_nil_r in Hw. subst r.
  split; [reflexivity|]. split; [exact Hw|].
  intros ->. exact Hrun.
Qed.

(** The first two public endpoints are down, the third answers. *)
Lemma safeContractCall_falls_back_witness :
  let eth_call := fun rpcUrl : string =>
    if String.eqb rpcUrl "https://eth-sepolia.public.blastapi.io"
    then Return 1 else Throw (Error "connect ETIMEDOUT") in
  let decode := fun result : Z => Return (negb (result =? 0)) in
  WalletCompatibility.safeContractCall eth_call decode
  = (Return true,
     [EthCall "https://ethereum-sepolia-rpc.publicnode.com"; Warn (Error "connect ETIMEDOUT");
      EthCall "https://rpc.ankr.com/eth_sepolia"; Warn (Error "connect ETIMEDOUT");
      EthCall "https://eth-sepolia.public.blastapi.io"]).
Proof.
  intros eth_call decode.
  pose proof (safeContractCall_falls_back Z bool eth_call decode
    ["https://ethereum-sepolia-rpc.publicnode.com"; "https://rpc.ankr.com/eth_sepolia"]
    [] "https://eth-sepolia.public.blastapi.io" true) as H.
  assert (Forall (WalletCompatibility.endpoint_fails eth_call decode)
            ["https://ethereum-sepolia-rpc.publicnode.com";
             "https://rpc.ankr.com/eth_sepolia"]) as Hdown
    by (repeat constructor).
  assert (WalletCompatibility.endpoint_yields eth_call decode
            "https://eth-sepolia.public.blastapi.io" true) as Hup
    by (exists 1; split; reflexivity).
  specialize (H Hdown Hup). simpl in H.
  destruct H as (_ & _ & H). exact (H eq_refl).
Defined.

(** C7, as amended. When every endpoint of FALLBACK_RPCS fails,
    [safeContractCall] throws one fixed error, "所有 RPC 调用均失败",
    whatever the endpoints' own errors were; those are written to the
    console as warnings, in endpoint order, and are not part of the error. *)
Theorem safeContractCall_all_fail
        (raw value : Type) (eth_call : string -> outcome raw)
        (decode : raw -> outcome value) :
  Forall (WalletCompatibility.endpoint_fails eth_call decode)
         WalletCompatibility.FALLBACK_RPCS ->
  let '(r, t) := WalletCompatibility.safeContractCall eth_call decode in
  r = Throw (Error "所有 RPC 调用均失败") /\
  map Some (warnings t)
    = map (WalletCompatibility.endpoint_error eth_call decode)
          WalletCompatibility.FALLBACK_RPCS.
Proof.
  intros Hfail.
  pose proof (tryEndpoints_all_fail raw value eth_call decode
                WalletCompatibility.FALLBACK_RPCS Hfail) as [Hr Hw].
  unfold WalletCompatibility.safeContractCall.
  destruct (WalletCompatibility.tryEndpoints eth_call decode
              WalletCompatibility.FALLBACK_RPCS) as [r t].
  simpl in Hr, Hw. auto.
Qed.

(** Three endpoints, three different failures, one generic error. *)
Lemma safeContractCall_all_fail_witness :
  let eth_call := fun rpcUrl : string =>
    if String.eqb rpcUrl "https://ethereum-sepolia-rpc.publicnode.com"
    then @Throw Z (Error "connect ETIMEDOUT")
    else if String.eqb rpcUrl "https://rpc.ankr.com/eth_sepolia"
    then Throw (Error "429 Too Many Requests")
    else Throw (Error "502 Bad Gateway") in
  let decode := fun result : Z => Return (negb (result =? 0)) in
  let '(r, t) := WalletCompatibility.safeContractCall eth_call decode in
  r = Throw (Error "所有 RPC 调用均失败") /\
  map Some (warnings t)
    = map (WalletCompatibility.endpoint_error eth_call decode)
          WalletCompatibility.FALLBACK_RPCS.
Proof.
  intros eth_call decode.
  apply (safeContractCall_all_fail Z bool eth_call decode).
  repeat constructor.
Defined.

(** C7 as stated fails: the error thrown when all three endpoints throw
    names none of the three underlying errors. *)
Lemma safeContractCall_error_counterexample :
  let eth_call := fun rpcUrl : string =>
    if String.eqb rpcUrl "https://ethereum-sepolia-rpc.publicnode.com"
    then @Throw Z (Error "connect ETIMEDOUT")
    else if String.eqb rpcUrl "https://rpc.ankr.com/eth_sepolia"
    then Throw (Error "429 Too Many Requests")
    else Throw (Error "502 Bad Gateway") in
  let decode := fun result : Z => Return (negb (result =? 0)) in
  exists thrown,
    fst (WalletCompatibility.safeContractCall eth_call decode) = Throw thrown /\
    thrown = Error "所有 RPC 调用均失败" /\
    mentions thrown "connect ETIMEDOUT" = false /\
    mentions thrown "429 Too Many Requests" = false /\
    mentions thrown "502 Bad Gateway" = false.
Proof. eexists. vm_compute. repeat split; reflexivity. Qed.

(** ** Waiting for a transaction receipt *)

Section ReceiptPolling.

Import WalletCompatibility.

Variable getBlockNumber : string -> outcome Z.
Variable getTransactionReceipt : string -> Z -> outcome (option TransactionReceipt).

(** The selection loop only probes, and unless the list is empty it ends
    with some endpoint of the list selected, live or not. *)
Lemma selectProvider_selects (rpcs : list string) (provider : option string) :
  let '(p, t) := selectProvider getBlockNumber rpcs provider in
  (match rpcs with [] => p = provider | _ => exists u, p = Some u /\ In u rpcs end) /\
  receiptPolls t = [] /\ sleeps t = [] /\ sends t = [].
Proof.
  revert provider. induction rpcs as [|rpcUrl rest IH]; intros provider; simpl.
  - auto.
  - destruct (getBlockNumber rpcUrl) as [n|err].
    + simpl. eauto 7.
    + specialize (IH (Some rpcUrl)).
      destruct (selectProvider getBlockNumber rest (Some rpcUrl)) as [p t].
      destruct IH as (Hp & Hr & Hs & Hw). simpl. repeat split; try assumption.
      destruct rest as [|u rest'].
      * exists rpcUrl. auto.
      * destruct Hp as (u' & -> & Hin). exists u'. auto.
Qed.


End ReceiptPolling.



(** ** Transmission-level retry with backoff *)

Section Backoff.

Import RetryMechanism.

Variable T : Type.
Variable fn : Z -> outcome T.
Variable err : Z -> error.
Variables (m d : Z) (onRetry : bool).


End Backoff.



(** What the parenthesis above refers to: when a call before the last
    attempt rejects with [undefined], the function ends at once with the
    [TypeError] of its own [catch] block, without warning, waiting or
    calling [fn] again. *)
Lemma retryWithBackoff_undefined_rejection
      (T : Type) (fn : Z -> outcome T) (options : RetryMechanism.RetryOptions) :
  0 < default 3 (RetryMechanism.maxRetries options) ->
  fn 0 = Throw Undefined ->
  RetryMechanism.retryWithBackoff fn options
  = (Throw no_property_of_undefined, [CallFn 0]).
Proof.
  intros Hpos Hfirst. unfold RetryMechanism.retryWithBackoff.
  destruct (Z.to_nat (default 3 (RetryMechanism.maxRetries options) + 1)) as [|remaining]
    eqn:Hbound; [lia|].
  cbn [RetryMechanism.retryLoop]. rewrite Hfirst.
  replace (0 <? default 3 (RetryMechanism.maxRetries options)) with true
    by (symmetry; apply Z.ltb_lt; exact Hpos).
  reflexivity.
Qed.


(** ** Waiting for the callback *)

(** Whatever the flags say, a first pass whose reads succeed returns. *)
Lemma waitForCallbackCompletion_first_pass
      (ledger : Z -> option State) (userAddress : address) (s : State) :
  ledger 0 = Some s ->
  UseDecryption.waitForCallbackCompletion ledger userAddress
    = (Return tt, [OnProgress 0 120; ReadLedger 0]).
Proof.
  intros Hread. unfold UseDecryption.waitForCallbackCompletion.
  destruct (Z.to_nat UseDecryption.MAX_WAIT) as [|remaining] eqn:Hbound;
    [vm_compute in Hbound; discriminate|].
  cbn [UseDecryption.waitLoop]. rewrite Hread.
  unfold UseDecryption.callbackObserved, UseDecryption.read_isVerified.
  cbn [is_defined].
  destruct (negb (mget 0 (userToRequestId s) userAddress =? 0)
            && processed (request s (mget 0 (userToRequestId s) userAddress)));
    reflexivity.
Qed.

(** C3 fails on the code. While Alice's request 1 is pending, not processed
    and her verification flag still false, the first pass of
    [waitForCallbackCompletion] already returns normally, because the flag
    it reads is a boolean and so never [undefined]. And when no read ever
    succeeds, the timeout comes after 120 waits of 2000 ms, 240 seconds. *)
Theorem waitForCallbackCompletion_returns_before_callback :
  let s := verifier Scenario.submitted in
  (mget false (isVerified s) Scenario.alice = false /\
   mget 0 (userToRequestId s) Scenario.alice = 1 /\
   processed (request s 1) = false /\
   UseDecryption.waitForCallbackCompletion (fun _ => Some s) Scenario.alice
     = (Return tt, [OnProgress 0 120; ReadLedger 0])) /\
  (let '(r, t) := UseDecryption.waitForCallbackCompletion (fun _ => None) Scenario.alice in
   r = Throw (Error "等待回调超时 - 请检查合约状态或重试") /\
   sleeps t = replicate 120 2000 /\
   foldr Z.add 0 (sleeps t) = 240000).
Proof. vm_compute. repeat split; reflexivity. Qed.

(** ** One credential per address *)

Section Credentials.

Import AgeCredentialNFT.

(** Minting keeps the bookkeeping consistent. *)
Lemma mintCredential_consistent (sender : address) (now : Z) (n n' : State)
      (to : address) (age : euint32) (logs : list Event) (tokenId : Z) :
  Ledger.credentials_consistent n ->
  mintCredential sender now n to age = Ok (n', logs, tokenId) ->
  Ledger.credentials_consistent n'.
Proof.
  intros (Hcounter & Howned & Hbal) H.
  unfold mintCredential in H.
  apply require_Ok in H as [_ H]. apply require_Ok in H as [Hnone H].
  apply bind_Ok in H as (next & Hnext & H). apply checked_add_Ok in Hnext as [-> _].
  apply bind_Ok in H as ([s2 evs] & Hmint & H). injection H as <- _ _.
  unfold _safeMint in Hmint.
  apply require_Ok in Hmint as [Hto Hmint].
  apply bind_Ok in Hmint as ([[s' evs'] previous] & Hupd & Hmint).
  apply require_Ok in Hmint as [_ Hmint]. injection Hmint as <- _.
  unfold _update, _ownerOf, mget in Hupd. cbn [owners] in Hupd.
  match type of Hupd with
  | context [default 0 ?o] => destruct o as [a|] eqn:Hunowned
  end.
  { apply Howned in Hunowned. lia. }
  cbn [default Z.eqb negb andb] in Hupd.
  unfold super_update, _ownerOf, mget in Hupd. cbn [owners balances] in Hupd.
  match type of Hupd with
  | context [default 0 ?o] => replace o with (@None address) in Hupd
  end.
  cbn [default Z.eqb negb andb orb] in Hupd.
  rewrite !require_true in Hupd by reflexivity.
  assert (to <> 0) as Hto' by (intros ->; discriminate).
  replace (to =? 0) with false in Hupd by (symmetry; lia).
  injection Hupd as <- _ _.
  assert (mget 0 (addressToTokenId n) to = 0) as Hnone' by lia.
  unfold Ledger.credentials_consistent.
  cbn [tokenIdCounter owners addressToTokenId].
  split; [lia|]. split.
  - intros t a Hta. destruct (decide (tokenIdCounter n = t)) as [<-|Hne].
    + rewrite lookup_insert_eq in Hta. injection Hta as <-.
      rewrite mget_insert_eq. repeat split; [assumption | lia | lia].
    + rewrite lookup_insert_ne in Hta by assumption.
      destruct (Howned t a Hta) as (Ha & Hrec & Hrange).
      assert (to <> a) as Hother by (intros ->; lia).
      rewrite mget_insert_ne by assumption. repeat split; [assumption | assumption | lia | lia].
  - intros a. unfold balanceOf, hasCredential. cbn [balances addressToTokenId].
    destruct (decide (to = a)) as [<-|Hother].
    + rewrite !mget_insert_eq.
      specialize (Hbal to). unfold balanceOf, hasCredential, mget in Hbal.
      unfold mget in Hnone'. rewrite Hnone' in Hbal. simpl in Hbal.
      replace (tokenIdCounter n =? 0) with false by (symmetry; lia).
      simpl. lia.
    + rewrite !mget_insert_ne by assumption. apply Hbal.
Qed.

(** A transfer between accounts never goes through. *)
Lemma transferFrom_reverts (sender : address) (n : State) (from to : address) (tokenId : Z) :
  sender <> 0 -> is_ok (transferFrom sender n from to tokenId) = false.
Proof.
  intros Hsender. unfold transferFrom, Evm.require.
  destruct (to =? 0) eqn:Hto; [reflexivity|]. cbn [negb Evm.bind].
  unfold _update. rewrite Hto.
  destruct (_ownerOf n tokenId =? 0) eqn:Hfrom; [|reflexivity].
  cbn [negb andb]. unfold super_update. rewrite Hfrom.
  replace (sender =? 0) with false by (symmetry; lia). reflexivity.
Qed.

(** The verifier's minting path leaves the world as it is when the user
    already has a credential, and otherwise goes through [mintCredential]. *)
Lemma _mintNFTCredential_consistent (now : Z) (w w' : World) (user : address)
      (logs : list Event) :
  Ledger.credentials_consistent (nft w) ->
  _mintNFTCredential now w user = Ok (w', logs) ->
  Ledger.credentials_consistent (nft w').
Proof.
  intros Hinv H. unfold _mintNFTCredential in H.
  destruct (hasCredential (nft w) user).
  - injection H as <- _. exact Hinv.
  - apply bind_Ok in H as ([[n' evs] tokenId] & Hmint & H). injection H as <- _.
    cbn [nft set_nft]. eapply mintCredential_consistent; eassumption.
Qed.

Lemma step_consistent (w w' : World) :
  Ledger.step w w' ->
  Ledger.credentials_consistent (nft w) ->
  Ledger.credentials_consistent (nft w').
Proof.
  intros Hstep Hinv. destruct Hstep as
    [ w a w' logs H
    | e w w' logs Hfresh H
    | e w rid decoded w' logs H
    | e w age w' logs H
    | e w w' logs H
    | e w rid s' logs new Hfresh H
    | sender w minter n' logs H
    | sender now w to age n' logs tokenId H
    | sender w from to tokenId n' logs Hsender H ].
  - injection H as <- _. exact Hinv.
  - unfold verifyAge in H. apply require_Ok in H as [_ H]. injection H as <- _.
    exact Hinv.
  - unfold callbackDecryption in H.
    apply require_Ok in H as [_ H]. apply require_Ok in H as [_ H].
    apply bind_Ok in H as (dl & _ & H).
    apply require_Ok in H as [_ H]. apply require_Ok in H as [_ H].
    apply require_Ok in H as [_ H].
    destruct decoded as [d|]; [|discriminate].
    match type of H with
    | (if ?c then _ else _) = _ => destruct c
    end.
    + apply bind_Ok in H as ([w2 evs2] & Hm & H). injection H as <- _.
      eapply _mintNFTCredential_consistent; [|exact Hm]. exact Hinv.
    + injection H as <- _. exact Hinv.
  - unfold verifyAgeMock in H.
    match type of H with
    | (if ?c then _ else _) = _ => destruct c
    end.
    + apply bind_Ok in H as ([w2 evs2] & Hm & H). injection H as <- _.
      eapply _mintNFTCredential_consistent; [|exact Hm]. exact Hinv.
    + injection H as <- _. exact Hinv.
  - unfold mintNFTManual in H.
    apply require_Ok in H as [_ H]. apply require_Ok in H as [_ H].
    apply require_Ok in H as [_ H].
    eapply _mintNFTCredential_consistent; eassumption.
  - exact Hinv.
  - unfold authorizeMinter in H. apply require_Ok in H as [_ H]. injection H as <- _.
    exact Hinv.
  - cbn [nft set_nft]. eapply mintCredential_consistent; eassumption.
  - pose proof (transferFrom_reverts sender (nft w) from to tokenId Hsender) as Hrev.
    rewrite H in Hrev. discriminate.
Qed.

Lemma reachable_consistent (w : World) :
  Ledger.reachable w -> Ledger.credentials_consistent (nft w).
Proof.
  induction 1 as [deployer va na h | w w' _ IH Hstep].
  - unfold Ledger.credentials_consistent. simpl. split; [lia|]. split.
    + intros t a Hta. rewrite lookup_empty in Hta. discriminate.
    + intros a. reflexivity.
  - eapply step_consistent; eassumption.
Qed.

End Credentials.

(** As long as every transaction runs from start to end with no call from
    a recipient in between (every recipient is an account without code, or
    only returns the selector), an address owns at most one credential token
    and its balance is 0 or 1; [mintCredential] does not succeed for a
    recipient that has a credential; and the verifier's minting path returns
    at once, changing nothing, for a user that has one. *)
Theorem one_credential_without_reentrancy (w : World) :
  Ledger.reachable w ->
  (forall (a : address) (t1 t2 : Z),
     a <> 0 ->
     AgeCredentialNFT._ownerOf (nft w) t1 = a ->
     AgeCredentialNFT._ownerOf (nft w) t2 = a ->
     t1 = t2) /\
  (forall a : address, 0 <= AgeCredentialNFT.balanceOf (nft w) a <= 1) /\
  (forall (sender : address) (now : Z) (to : address) (age : euint32),
     AgeCredentialNFT.hasCredential (nft w) to = true ->
     AgeCredentialNFT.mintCredential sender now (nft w) to age
       = Revert "Already has credential"
     \/ AgeCredentialNFT.mintCredential sender now (nft w) to age
       = Revert "Not authorized") /\
  (forall (now : Z) (user : address),
     AgeCredentialNFT.hasCredential (nft w) user = true ->
     _mintNFTCredential now w user = Ok (w, [])).
Proof.
  intros Hreach.
  destruct (reachable_consistent w Hreach) as (Hcounter & Howned & Hbal).
  repeat split.
  - intros a t1 t2 Ha H1 H2.
    assert (forall t, AgeCredentialNFT._ownerOf (nft w) t = a ->
                      mget 0 (AgeCredentialNFT.addressToTokenId (nft w)) a = t) as Hrec.
    { intros t Ht. unfold AgeCredentialNFT._ownerOf, mget in Ht.
      match type of Ht with
      | context [default 0 ?o] => destruct o as [a'|] eqn:Hlook
      end.
      - change (a' = a) in Ht. rewrite Ht in Hlook. apply Howned in Hlook. tauto.
      - change (0 = a) in Ht. congruence. }
    rewrite <- (Hrec t1 H1). apply Hrec. exact H2.
  - rewrite Hbal. destruct (AgeCredentialNFT.hasCredential (nft w) a); lia.
  - rewrite Hbal. destruct (AgeCredentialNFT.hasCredential (nft w) a); lia.
  - intros sender now to age Hhas.
    unfold AgeCredentialNFT.mintCredential.
    destruct (mget false (AgeCredentialNFT.authorizedMinters (nft w)) sender);
      [left | right; reflexivity].
    cbn [Evm.require Evm.bind].
    unfold AgeCredentialNFT.hasCredential in Hhas.
    apply negb_true_iff in Hhas. rewrite Hhas. reflexivity.
  - intros now user Hhas. unfold _mintNFTCredential. rewrite Hhas. reflexivity.
Qed.

(** Alice passes the mock verification twice; she holds token 1 and nothing
    else. *)
Lemma one_credential_without_reentrancy_witness :
  Ledger.reachable Scenario.verifiedTwice /\
  AgeCredentialNFT._ownerOf (nft Scenario.verifiedTwice) 1 = Scenario.alice /\
  AgeCredentialNFT.tokenIdCounter (nft Scenario.verifiedTwice) = 2 /\
  0 <= AgeCredentialNFT.balanceOf (nft Scenario.verifiedTwice) Scenario.alice <= 1.
Proof.
  assert (Ledger.reachable Scenario.authorised) as Hauth.
  { apply (Ledger.reachable_step Scenario.w0); [apply Ledger.reachable_deployed|].
    eapply (Ledger.step_authorizeMinter Scenario.deployer Scenario.w0
              Scenario.verifierAddress).
    vm_compute. reflexivity. }
  assert (Ledger.reachable Scenario.verifiedOnce) as Honce.
  { apply (Ledger.reachable_step Scenario.authorised); [exact Hauth|].
    eapply (Ledger.step_verifyAgeMock (mkEnv Scenario.alice 1000 55 0 true)
              Scenario.authorised 25).
    vm_compute. reflexivity. }
  assert (Ledger.reachable Scenario.verifiedTwice) as Htwice.
  { apply (Ledger.reachable_step Scenario.verifiedOnce); [exact Honce|].
    eapply (Ledger.step_verifyAgeMock (mkEnv Scenario.alice 2000 56 0 true)
              Scenario.verifiedOnce 25).
    vm_compute. reflexivity. }
  split; [exact Htwice|].
  split; [vm_compute; reflexivity|].
  split; [vm_compute; reflexivity|].
  exact (proj1 (proj2 (one_credential_without_reentrancy Scenario.verifiedTwice Htwice))
               Scenario.alice).
Defined.

(** C10. The code does not keep the claim for a recipient that is a
    contract. On the ledger where the verifier is an authorised minter,
    the contract [mallory], which has no credential, calls
    [verifyAgeMock(25)], and calls it once more from its
    [onERC721Received]: [mintCredential] records the recipient's token in
    [addressToTokenId] only after [_safeMint] has called the recipient, so
    the nested call passes both the verifier's [hasCredential] check and the
    token contract's "Already has credential" check. The transaction
    succeeds and leaves [mallory] owning tokens 1 and 2, with balance 2. *)
Theorem reentrant_recipient_gets_two_credentials :
  Ledger.reachable Scenario.authorised /\
  AgeCredentialNFT.hasCredential (nft Scenario.authorised) Reentrancy.mallory = false /\
  AgeCredentialNFT.balanceOf (nft Scenario.authorised) Reentrancy.mallory = 0 /\
  exists (w' : World) (logs : list Event),
    Reentrancy.malloryVerifies = Ok (w', logs) /\
    AgeCredentialNFT._ownerOf (nft w') 1 = Reentrancy.mallory /\
    AgeCredentialNFT._ownerOf (nft w') 2 = Reentrancy.mallory /\
    AgeCredentialNFT.balanceOf (nft w') Reentrancy.mallory = 2 /\
    AgeCredentialNFT.getTokenIdOf (nft w') Reentrancy.mallory = 1 /\
    AgeCredentialNFT.tokenIdCounter (nft w') = 3 /\
    logs = [VerificationResult Reentrancy.mallory true;
            Transfer 0 Reentrancy.mallory 1;
            VerificationResult Reentrancy.mallory true;
            Transfer 0 Reentrancy.mallory 2;
            CredentialMinted Reentrancy.mallory 2 1000;
            NFTCredentialMinted Reentrancy.mallory 2;
            CredentialMinted Reentrancy.mallory 1 1000;
            NFTCredentialMinted Reentrancy.mallory 1].
Proof.
  split.
  { apply (Ledger.reachable_step Scenario.w0); [apply Ledger.reachable_deployed|].
    eapply (Ledger.step_authorizeMinter Scenario.deployer Scenario.w0
              Scenario.verifierAddress).
    vm_compute. reflexivity. }
  split; [vm_compute; reflexivity|]. split; [vm_compute; reflexivity|].
  destruct Reentrancy.malloryVerifies as [[w' logs]| |] eqn:Hrun;
    try (vm_compute in Hrun; discriminate).
  exists w', logs. split; [reflexivity|].
  vm_compute in Hrun. injection Hrun as <- <-.
  vm_compute. repeat split; reflexivity.
Qed.

(** * Further properties of the contracts *)

(** ** The gateway callback *)

(** Every way for [callbackDecryption] to return normally. *)
Lemma callbackDecryption_Ok_inv (e : Env) (w w' : World) (requestId : Z)
      (decoded : option bool) (logs : list Event) :
  callbackDecryption e w requestId decoded = Ok (w', logs) ->
  let req := request (verifier w) requestId in
  let user := mget 0 (requestIdToUser (verifier w)) requestId in
  0 < timestamp req /\ processed req = false /\
  block_timestamp e <= timestamp req + REQUEST_TIMEOUT /\
  fhe_accepts e = true /\ user <> 0 /\
  exists d : bool,
    decoded = Some d /\
    verifier w'
    = set_decryptionRequests
        (set_isVerified (verifier w) (<[user := d]> (isVerified (verifier w))))
        (<[requestId := mkRequest (requester req) (timestamp req) (retryCount req) true]>
           (decryptionRequests (verifier w))) /\
    (d = false \/ nftContract (verifier w) = 0 -> nft w' = nft w).
Proof.
  intros H req user. unfold callbackDecryption in H. fold req in H. fold user in H.
  apply require_Ok in H as [Hts H]. apply require_Ok in H as [Hproc H].
  apply bind_Ok in H as (dl & Hdl & H). apply checked_add_Ok in Hdl as [-> _].
  apply require_Ok in H as [Htime H]. apply require_Ok in H as [Hsig H].
  apply require_Ok in H as [Huser H].
  destruct decoded as [d|]; [|discriminate].
  repeat split; try lia.
  - destruct (processed req); [discriminate | reflexivity].
  - exact Hsig.
  - exists d. split; [reflexivity|].
    cbn [nftContract set_decryptionRequests set_isVerified] in H.
    destruct (d && negb (nftContract (verifier w) =? 0)) eqn:Hmint.
    + apply bind_Ok in H as ([w2 evs2] & Hm & H). injection H as <- _.
      apply _mintNFTCredential_verifier in Hm as [-> _]. split; [reflexivity|].
      apply andb_true_iff in Hmint as [-> Hnft]. intros [Hd | Hz]; [discriminate|].
      rewrite Hz in Hnft. discriminate.
    + injection H as <- _. split; reflexivity.
Qed.

(** X1. A callback that the verifier accepts records the decrypted verdict
    for the request's user and marks the request processed, leaving its
    requester, timestamp and retry count as they were; from then on every
    further callback for that request reverts with "Request already
    processed". *)
Theorem callbackDecryption_accepted_once
        (e : Env) (w w' : World) (requestId : Z) (d : bool) (logs : list Event) :
  callbackDecryption e w requestId (Some d) = Ok (w', logs) ->
  let req := request (verifier w) requestId in
  let user := mget 0 (requestIdToUser (verifier w)) requestId in
  mget false (isVerified (verifier w')) user = d /\
  request (verifier w') requestId
    = mkRequest (requester req) (timestamp req) (retryCount req) true /\
  forall (e' : Env) (decoded' : option bool),
    callbackDecryption e' w' requestId decoded' = Revert "Request already processed".
Proof.
  intros H req user.
  apply callbackDecryption_Ok_inv in H as (Hts & _ & _ & _ & _ & d' & Hd & Hv & _).
  injection Hd as <-. fold req in Hts, Hv. fold user in Hv.
  assert (request (verifier w') requestId
          = mkRequest (requester req) (timestamp req) (retryCount req) true) as Hreq.
  { rewrite Hv. unfold request. cbn [decryptionRequests set_decryptionRequests].
    apply mget_insert_eq. }
  split; [|split; [exact Hreq|]].
  - rewrite Hv. cbn [isVerified set_decryptionRequests set_isVerified].
    apply mget_insert_eq.
  - intros e' decoded'. unfold callbackDecryption. rewrite Hreq.
    cbn [timestamp processed].
    rewrite require_true by lia. reflexivity.
Qed.

(** The gateway answers Alice's request 1 with "old enough". *)
Lemma callbackDecryption_accepted_once_witness :
  mget false (isVerified (verifier Scenario.completed)) Scenario.alice = true /\
  request (verifier Scenario.completed) 1 = mkRequest Scenario.alice 1000 0 true /\
  callbackDecryption (Scenario.callbackAt 1300) Scenario.completed 1 (Some false)
    = Revert "Request already processed".
Proof.
  assert (exists logs,
    callbackDecryption (Scenario.callbackAt 1200) Scenario.submittedAuthorised 1 (Some true)
    = Ok (Scenario.completed, logs)) as [logs Hok]
    by (eexists; vm_compute; reflexivity).
  destruct (callbackDecryption_accepted_once _ _ _ _ _ _ Hok) as (Hv & Hr & Hagain).
  split; [exact Hv|]. split; [exact Hr|]. apply Hagain.
Defined.

(** X2. A callback is never accepted for a request id without a record,
    for a processed request, after the request's 30-minute deadline, or
    with signatures the library rejects. *)
Theorem callbackDecryption_rejected
        (e : Env) (w : World) (requestId : Z) (decoded : option bool) :
  let req := request (verifier w) requestId in
  timestamp req <= 0 \/ processed req = true \/
  timestamp req + REQUEST_TIMEOUT < block_timestamp e \/ fhe_accepts e = false ->
  is_ok (callbackDecryption e w requestId decoded) = false.
Proof.
  intros req Hbad.
  destruct (callbackDecryption e w requestId decoded) as [[w' logs]| |] eqn:H;
    try reflexivity.
  apply callbackDecryption_Ok_inv in H as (Hts & Hproc & Htime & Hsig & _).
  fold req in Hts, Hproc, Htime.
  destruct Hbad as [Hb | [Hb | [Hb | Hb]]]; [lia | congruence | lia | congruence].
Qed.

(** Forty minutes after Alice's submission the callback comes too late. *)
Lemma callbackDecryption_rejected_witness :
  is_ok (callbackDecryption (Scenario.callbackAt (1000 + 40 * minutes))
           Scenario.submittedAuthorised 1 (Some true)) = false.
Proof.
  apply (callbackDecryption_rejected (Scenario.callbackAt (1000 + 40 * minutes))
           Scenario.submittedAuthorised 1 (Some true)).
  right. right. left. vm_compute. reflexivity.
Defined.

(** ** Who may retry, and what a retry leaves of the old request *)

(** X3. [retryDecryption] only succeeds for the account recorded as the
    request's user, and never for a processed request or for an id that no
    user is recorded for. *)
Theorem retryDecryption_requester_only (e : Env) (s : State) (requestId : Z) :
  let user := mget 0 (requestIdToUser s) requestId in
  msg_sender e <> user \/ user = 0 \/ processed (request s requestId) = true ->
  is_ok (retryDecryption e s requestId) = false.
Proof.
  intros user Hbad.
  destruct (retryDecryption e s requestId) as [[[s' logs] n]| |] eqn:H; try reflexivity.
  apply retryDecryption_Ok_inv in H as (Huser & Hsender & Hproc & _).
  fold user in Huser, Hsender.
  destruct Hbad as [Hb | [Hb | Hb]]; congruence.
Qed.

(** Another account tries to retry Alice's request. *)
Lemma retryDecryption_requester_only_witness :
  is_ok (retryDecryption (mkEnv Scenario.gateway 1600 0 2 true)
           (verifier Scenario.submitted) 1) = false.
Proof.
  apply (retryDecryption_requester_only (mkEnv Scenario.gateway 1600 0 2 true)
           (verifier Scenario.submitted) 1).
  left. vm_compute. congruence.
Defined.

(** A retry that succeeded computed the old request's deadline without
    overflow. *)
Lemma retryDecryption_Ok_deadline_fits
      (e : Env) (s s' : State) (requestId : Z) (logs : list Event) (newRequestId : Z) :
  retryDecryption e s requestId = Ok (s', logs, newRequestId) ->
  timestamp (request s requestId) + REQUEST_TIMEOUT <= uint256_max.
Proof.
  unfold retryDecryption. intros H.
  apply require_Ok in H as [_ H]. apply require_Ok in H as [_ H].
  apply require_Ok in H as [_ H]. apply require_Ok in H as [_ H].
  apply bind_Ok in H as (cool & _ & H). apply require_Ok in H as [_ H].
  apply bind_Ok in H as (dl & Hdl & _). apply checked_add_Ok in Hdl as [_ Hfit].
  exact Hfit.
Qed.

(** X4. A retry does not close the request it supersedes: the old record
    keeps its requester, timestamp and unprocessed state, with its retry
    count raised by one, and until its own deadline the verifier still
    accepts a callback for the old id, whatever the verdict: every check on
    the request passes, the verdict is recorded for the user and the old
    request marked processed; a negative verdict always goes through, and a
    positive one does unless the credential mint it triggers reverts, so
    it does in particular when no token contract is configured or the user
    already has a credential. *)
Theorem retryDecryption_keeps_predecessor_open
        (e : Env) (w : World) (requestId : Z)
        (s' : State) (logs : list Event) (newRequestId : Z) :
  retryDecryption e (verifier w) requestId = Ok (s', logs, newRequestId) ->
  newRequestId <> requestId ->
  let req := request (verifier w) requestId in
  let user := mget 0 (requestIdToUser (verifier w)) requestId in
  request s' requestId
    = mkRequest (requester req) (timestamp req) (retryCount req + 1) false /\
  forall e' : Env,
    0 < timestamp req ->
    block_timestamp e' <= timestamp req + REQUEST_TIMEOUT ->
    fhe_accepts e' = true ->
    is_ok (callbackDecryption e' (set_verifier w s') requestId (Some false)) = true /\
    (forall verdict : bool,
       exists w1 : World,
         mget false (isVerified (verifier w1)) user = verdict /\
         processed (request (verifier w1) requestId) = true /\
         nft w1 = nft w /\
         callbackDecryption e' (set_verifier w s') requestId (Some verdict)
         = if verdict && negb (nftContract (verifier w) =? 0) then
             do r <- _mintNFTCredential (block_timestamp e') w1 user;
             let '(w2, evs2) := r in
             Ok (w2, [DecryptionCompleted requestId verdict;
                      VerificationResult user verdict] ++ evs2)
           else Ok (w1, [DecryptionCompleted requestId verdict;
                         VerificationResult user verdict])) /\
    (nftContract (verifier w) = 0 \/ AgeCredentialNFT.hasCredential (nft w) user = true ->
     is_ok (callbackDecryption e' (set_verifier w s') requestId (Some true)) = true).
Proof.
  intros H Hne req user.
  pose proof (retryDecryption_Ok_deadline_fits _ _ _ _ _ _ H) as Hfit. fold req in Hfit.
  apply retryDecryption_Ok_inv in H
    as (Huser & _ & Hproc & _ & _ & _ & _ & -> & ->).
  fold req in Hproc. fold user in Huser.
  assert (request (retried e (verifier w) requestId) requestId
          = mkRequest (requester req) (timestamp req) (retryCount req + 1) false) as Hreq.
  { unfold request, retried. cbn [decryptionRequests].
    rewrite mget_insert_ne by assumption. rewrite mget_insert_eq.
    fold (request (verifier w) requestId). fold req. rewrite Hproc. reflexivity. }
  split; [exact Hreq|].
  intros e' Hts Htime Hsig.
  assert (forall verdict : bool,
    exists w1 : World,
      mget false (isVerified (verifier w1)) user = verdict /\
      processed (request (verifier w1) requestId) = true /\
      nft w1 = nft w /\
      callbackDecryption e' (set_verifier w (retried e (verifier w) requestId)) requestId
                         (Some verdict)
      = if verdict && negb (nftContract (verifier w) =? 0) then
          do r <- _mintNFTCredential (block_timestamp e') w1 user;
          let '(w2, evs2) := r in
          Ok (w2, [DecryptionCompleted requestId verdict;
                   VerificationResult user verdict] ++ evs2)
        else Ok (w1, [DecryptionCompleted requestId verdict;
                      VerificationResult user verdict])) as Hany.
  { intros verdict. unfold callbackDecryption.
    cbn [verifier set_verifier]. rewrite Hreq. cbn [timestamp processed requester retryCount].
    rewrite require_true by lia. rewrite require_true by reflexivity.
    rewrite checked_add_fits by exact Hfit. cbn [Evm.bind].
    rewrite require_true by lia. rewrite require_true by exact Hsig.
    assert (mget 0 (requestIdToUser (retried e (verifier w) requestId)) requestId = user)
      as Hsame.
    { unfold retried. cbn [requestIdToUser]. apply mget_insert_ne. assumption. }
    rewrite Hsame. rewrite require_true by (apply negb_true_iff; lia).
    eexists. split; [|split; [|split; [|reflexivity]]].
    - cbn [verifier set_verifier isVerified set_isVerified set_decryptionRequests].
      apply mget_insert_eq.
    - unfold request.
      cbn [verifier set_verifier decryptionRequests set_isVerified set_decryptionRequests].
      rewrite mget_insert_eq. reflexivity.
    - reflexivity. }
  split; [|split].
  - destruct (Hany false) as (w1 & _ & _ & _ & ->). reflexivity.
  - exact Hany.
  - intros Hquiet. destruct (Hany true) as (w1 & _ & _ & Hnft & ->).
    destruct Hquiet as [Hnone | Hhas].
    + rewrite Hnone. reflexivity.
    + cbn [andb]. destruct (negb (nftContract (verifier w) =? 0)); [|reflexivity].
      unfold _mintNFTCredential. rewrite Hnft, Hhas. reflexivity.
Qed.

(** After Alice's retry at 1600, request 1 still takes a callback at 1700:
    a negative verdict is recorded, and a positive one gets as far as the
    mint, which this ledger's token contract refuses to the verifier. *)
Lemma retryDecryption_keeps_predecessor_open_witness :
  request (verifier Scenario.retriedOnce) 1 = mkRequest Scenario.alice 1000 1 false /\
  is_ok (callbackDecryption (Scenario.callbackAt 1700) Scenario.retriedOnce 1 (Some false))
    = true /\
  callbackDecryption (Scenario.callbackAt 1700) Scenario.retriedOnce 1 (Some true)
    = Revert "Not authorized".
Proof.
  assert (exists logs,
    retryDecryption (Scenario.retryAt 1600 2) (verifier Scenario.submitted) 1
    = Ok (verifier Scenario.retriedOnce, logs, 2)) as [logs Hretry]
    by (eexists; vm_compute; reflexivity).
  assert (2 <> 1) as Hne by lia.
  destruct (retryDecryption_keeps_predecessor_open _ Scenario.submitted _ _ _ _ Hretry Hne)
    as [Hreq Hopen].
  split; [exact Hreq|].
  replace Scenario.retriedOnce
    with (set_verifier Scenario.submitted (verifier Scenario.retriedOnce))
    by (vm_compute; reflexivity).
  destruct (Hopen (Scenario.callbackAt 1700)) as (Hfalse & Hany & _);
    [vm_compute; congruence | vm_compute; congruence | vm_compute; congruence |].
  split; [exact Hfalse|].
  destruct (Hany true) as (w1 & _ & _ & Hnft & ->).
  replace (nftContract (verifier Scenario.submitted) =? 0) with false
    by (vm_compute; reflexivity).
  cbn [andb negb]. unfold _mintNFTCredential. rewrite Hnft.
  replace (AgeCredentialNFT.hasCredential (nft Scenario.submitted)
             (mget 0 (requestIdToUser (verifier Scenario.submitted)) 1)) with false
    by (vm_compute; reflexivity).
  unfold AgeCredentialNFT.mintCredential.
  replace (mget false (AgeCredentialNFT.authorizedMinters (nft Scenario.submitted)) (self w1))
    with false; [reflexivity|].
  unfold mget. destruct (AgeCredentialNFT.authorizedMinters (nft Scenario.submitted) !! self w1)
    eqn:Hlook; [|reflexivity].
  vm_compute in Hlook. discriminate.
Defined.

(** ** Invariants of the request records *)

Lemma mget_Some {V : Type} (zero : V) (m : gmap Z V) (k : Z) :
  mget zero m k <> zero -> m !! k = Some (mget zero m k).
Proof. unfold mget. destruct (m !! k); simpl; congruence. Qed.

Lemma mget_lookup {V : Type} (zero v : V) (m : gmap Z V) (k : Z) :
  m !! k = Some v -> mget zero m k = v.
Proof. unfold mget. intros ->. reflexivity. Qed.

(** A request with a positive timestamp has a record. *)
Lemma request_recorded (s : State) (id : Z) :
  timestamp (request s id) <> 0 \/ processed (request s id) = true ->
  decryptionRequests s !! id = Some (request s id).
Proof.
  unfold request, mget. destruct (decryptionRequests s !! id) as [r|]; [reflexivity|].
  simpl. intros [H | H]; [lia | discriminate].
Qed.

Lemma verifyAge_consistent (e : Env) (w w' : World) (logs : list Event) :
  Ledger.fresh (verifier w) (fhe_requestId e) ->
  verifyAge e w = Ok (w', logs) ->
  Ledger.requests_consistent (verifier w) ->
  Ledger.requests_consistent (verifier w').
Proof.
  intros Hfresh H (Hrec & Huser & Hidx). unfold Ledger.fresh in Hfresh.
  unfold verifyAge in H. apply require_Ok in H as [_ H]. injection H as <- _.
  unfold Ledger.requests_consistent.
  cbn [verifier set_verifier decryptionRequests requestIdToUser userToRequestId
       set_userToRequestId set_requestIdToUser set_decryptionRequests
       set_userEncryptedAges].
  repeat split.
  - apply lookup_insert_Some in H as [[_ <-] | [_ H]]; [simpl; lia | apply Hrec in H; lia].
  - apply lookup_insert_Some in H as [[_ <-] | [_ H]]; [simpl; unfold MAX_RETRIES; lia
                                                       | apply Hrec in H; lia].
  - apply lookup_insert_Some in H as [[<- <-] | [Hne H]].
    + apply lookup_insert_eq.
    + rewrite lookup_insert_ne by assumption. apply Hrec in H. tauto.
  - intros id user H. apply lookup_insert_Some in H as [[<- <-] | [Hne H]].
    + eexists. rewrite lookup_insert_eq. split; reflexivity.
    + rewrite lookup_insert_ne by assumption. apply Huser. exact H.
  - intros user id H. apply lookup_insert_Some in H as [[<- <-] | [Hne H]].
    + eexists. rewrite lookup_insert_eq. split; reflexivity.
    + destruct (Hidx user id H) as (r & Hr & Hreq). exists r. split; [|exact Hreq].
      rewrite lookup_insert_ne; [exact Hr|]. intros <-. congruence.
Qed.

Lemma callbackDecryption_consistent (e : Env) (w w' : World) (requestId : Z)
      (decoded : option bool) (logs : list Event) :
  callbackDecryption e w requestId decoded = Ok (w', logs) ->
  Ledger.requests_consistent (verifier w) ->
  Ledger.requests_consistent (verifier w').
Proof.
  intros H (Hrec & Huser & Hidx).
  apply callbackDecryption_Ok_inv in H as (Hts & _ & _ & _ & _ & d & _ & -> & _).
  pose proof (request_recorded (verifier w) requestId ltac:(left; lia)) as Hold.
  set (req := request (verifier w) requestId) in *.
  unfold Ledger.requests_consistent.
  cbn [decryptionRequests requestIdToUser userToRequestId
       set_decryptionRequests set_isVerified].
  assert (forall id r,
    <[requestId := mkRequest (requester req) (timestamp req) (retryCount req) true]>
      (decryptionRequests (verifier w)) !! id = Some r ->
    exists r0, decryptionRequests (verifier w) !! id = Some r0 /\
               requester r = requester r0 /\ retryCount r = retryCount r0) as Hsame.
  { intros id r H. apply lookup_insert_Some in H as [[<- <-] | [_ H]]; eauto. }
  repeat split.
  - apply Hsame in H as (r0 & H0 & _ & ->). apply Hrec in H0. lia.
  - apply Hsame in H as (r0 & H0 & _ & ->). apply Hrec in H0. lia.
  - apply Hsame in H as (r0 & H0 & -> & _). apply Hrec in H0. tauto.
  - intros id user H. destruct (Huser id user H) as (r & Hr & Hreq).
    destruct (decide (requestId = id)) as [<-|Hne].
    + eexists. rewrite lookup_insert_eq. split; [reflexivity|]. simpl. congruence.
    + exists r. rewrite lookup_insert_ne by assumption. auto.
  - intros user id H. destruct (Hidx user id H) as (r & Hr & Hreq).
    destruct (decide (requestId = id)) as [<-|Hne].
    + eexists. rewrite lookup_insert_eq. split; [reflexivity|]. simpl. congruence.
    + exists r. rewrite lookup_insert_ne by assumption. auto.
Qed.

Lemma retryDecryption_consistent (e : Env) (s s' : State) (requestId : Z)
      (logs : list Event) (newRequestId : Z) :
  Ledger.fresh s (fhe_requestId e) ->
  retryDecryption e s requestId = Ok (s', logs, newRequestId) ->
  Ledger.requests_consistent s ->
  Ledger.requests_consistent s'.
Proof.
  intros Hfresh H (Hrec & Huser & Hidx). unfold Ledger.fresh in Hfresh.
  apply retryDecryption_Ok_inv in H as (Hu & _ & _ & Hrc & _ & _ & _ & _ & ->).
  set (user := mget 0 (requestIdToUser s) requestId) in *.
  assert (requestIdToUser s !! requestId = Some user) as Hlook
    by (apply mget_Some; exact Hu).
  destruct (Huser _ _ Hlook) as (req & Hreq & Hrequester).
  assert (request s requestId = req) as Hrequest
    by (unfold request, mget; rewrite Hreq; reflexivity).
  assert (fhe_requestId e <> requestId) as Hne by (intros Heq; congruence).
  pose proof (Hrec _ _ Hreq) as [Hbound _].
  unfold Ledger.requests_consistent, retried. fold user.
  rewrite Hrequest in Hrc |- *.
  cbn [decryptionRequests requestIdToUser userToRequestId].
  rewrite mget_insert_eq. cbn [retryCount].
  assert (forall id r,
    <[fhe_requestId e := mkRequest user (block_timestamp e) (retryCount req + 1) false]>
      (<[requestId := mkRequest (requester req) (timestamp req) (retryCount req + 1)
                                (processed req)]> (decryptionRequests s)) !! id = Some r ->
    (id = fhe_requestId e /\ requester r = user /\ retryCount r = retryCount req + 1) \/
    (id = requestId /\ requester r = user /\ retryCount r = retryCount req + 1) \/
    (id <> fhe_requestId e /\ decryptionRequests s !! id = Some r)) as Hcases.
  { intros id r H. apply lookup_insert_Some in H as [[<- <-] | [Hn H]]; [left; auto|].
    apply lookup_insert_Some in H as [[<- <-] | [_ H]]; [right; left; auto | auto]. }
  unfold MAX_RETRIES in *.
  repeat split.
  - apply Hcases in H as [(_ & _ & ->) | [(_ & _ & ->) | (_ & H)]];
      [lia | lia | apply Hrec in H; lia].
  - apply Hcases in H as [(_ & _ & ->) | [(_ & _ & ->) | (_ & H)]];
      [lia | lia | apply Hrec in H; lia].
  - apply Hcases in H as [(-> & -> & _) | [(-> & -> & _) | (Hn & H)]].
    + apply lookup_insert_eq.
    + rewrite lookup_insert_ne by assumption. exact Hlook.
    + rewrite lookup_insert_ne by congruence. apply Hrec in H. tauto.
  - intros id u H. apply lookup_insert_Some in H as [[<- <-] | [Hn H]].
    + eexists. rewrite lookup_insert_eq. split; reflexivity.
    + rewrite lookup_insert_ne by assumption.
      destruct (Huser id u H) as (r & Hr & Hru).
      destruct (decide (requestId = id)) as [<-|Hn'].
      * eexists. rewrite lookup_insert_eq. split; [reflexivity|]. simpl. congruence.
      * exists r. rewrite lookup_insert_ne by assumption. auto.
  - intros u id H. apply lookup_insert_Some in H as [[<- <-] | [Hn H]].
    + eexists. rewrite lookup_insert_eq. split; reflexivity.
    + destruct (Hidx u id H) as (r & Hr & Hru).
      assert (fhe_requestId e <> id) as Hn' by (intros Heq; congruence).
      rewrite lookup_insert_ne by assumption.
      destruct (decide (requestId = id)) as [<-|Hn''].
      * eexists. rewrite lookup_insert_eq. split; [reflexivity|]. simpl. congruence.
      * exists r. rewrite lookup_insert_ne by assumption. auto.
Qed.

Lemma step_requests_consistent (w w' : World) :
  Ledger.step w w' ->
  Ledger.requests_consistent (verifier w) ->
  Ledger.requests_consistent (verifier w').
Proof.
  intros Hstep Hinv. destruct Hstep as
    [ w a w' logs H
    | e w w' logs Hfresh H
    | e w rid decoded w' logs H
    | e w age w' logs H
    | e w w' logs H
    | e w rid s' logs new Hfresh H
    | sender w minter n' logs H
    | sender now w to age n' logs tokenId H
    | sender w from to tokenId n' logs Hsender H ].
  - injection H as <- _. exact Hinv.
  - eapply verifyAge_consistent; eassumption.
  - eapply callbackDecryption_consistent; eassumption.
  - unfold verifyAgeMock in H.
    match type of H with
    | (if ?c then _ else _) = _ => destruct c
    end.
    + apply bind_Ok in H as ([w2 evs2] & Hm & H). injection H as <- _.
      apply _mintNFTCredential_verifier in Hm as [-> _]. exact Hinv.
    + injection H as <- _. exact Hinv.
  - unfold mintNFTManual in H.
    apply require_Ok in H as [_ H]. apply require_Ok in H as [_ H].
    apply require_Ok in H as [_ H].
    apply _mintNFTCredential_verifier in H as [-> _]. exact Hinv.
  - cbn [verifier set_verifier]. eapply retryDecryption_consistent; eassumption.
  - exact Hinv.
  - exact Hinv.
  - exact Hinv.
Qed.

(** X5. In every state the ledger can reach, every request record has a
    retry count between 0 and MAX_RETRIES, [requestIdToUser] names exactly
    the requester of each record, and the request that [userToRequestId]
    gives for a subject is a recorded request made by that subject. *)
Theorem reachable_requests_consistent (w : World) :
  Ledger.reachable w ->
  (forall id : Z, 0 <= retryCount (request (verifier w) id) <= MAX_RETRIES) /\
  (forall id : Z,
     decryptionRequests (verifier w) !! id <> None ->
     mget 0 (requestIdToUser (verifier w)) id = requester (request (verifier w) id)) /\
  (forall user : address,
     mget 0 (userToRequestId (verifier w)) user <> 0 ->
     requester (request (verifier w) (mget 0 (userToRequestId (verifier w)) user)) = user).
Proof.
  intros Hreach.
  assert (Ledger.requests_consistent (verifier w)) as (Hrec & Huser & Hidx).
  { induction Hreach as [deployer va na h | w w' _ IH Hstep].
    - unfold Ledger.requests_consistent. simpl.
      repeat split; intros; rewrite lookup_empty in *; discriminate.
    - eapply step_requests_consistent; eassumption. }
  repeat split.
  - unfold request, mget.
    destruct (decryptionRequests (verifier w) !! id) as [r|] eqn:Hr;
      [apply Hrec in Hr; simpl; lia | simpl; lia].
  - unfold request, mget.
    destruct (decryptionRequests (verifier w) !! id) as [r|] eqn:Hr;
      [apply Hrec in Hr; simpl; lia | simpl; unfold MAX_RETRIES; lia].
  - intros id Hsome.
    destruct (decryptionRequests (verifier w) !! id) as [r|] eqn:Hr; [|congruence].
    unfold request. rewrite (mget_lookup noRequest _ _ _ Hr).
    apply Hrec in Hr as [_ Hr]. exact (mget_lookup 0 _ _ _ Hr).
  - intros user Hcur. apply mget_Some in Hcur.
    destruct (Hidx user _ Hcur) as (r & Hr & Hreq).
    unfold request. rewrite (mget_lookup noRequest _ _ _ Hr). exact Hreq.
Qed.

(** The worked examples are states the ledger can reach. *)
Lemma reachable_submitted : Ledger.reachable Scenario.submitted.
Proof.
  apply (Ledger.reachable_step Scenario.w0); [apply Ledger.reachable_deployed|].
  eapply (Ledger.step_verifyAge (mkEnv Scenario.alice 1000 55 1 true) Scenario.w0);
    vm_compute; reflexivity.
Defined.

Lemma reachable_retriedThrice : Ledger.reachable Scenario.retriedThrice.
Proof.
  assert (Ledger.reachable Scenario.retriedOnce) as Honce.
  { replace Scenario.retriedOnce
      with (set_verifier Scenario.submitted (verifier Scenario.retriedOnce))
      by (vm_compute; reflexivity).
    apply (Ledger.reachable_step Scenario.submitted); [apply reachable_submitted|].
    eapply (Ledger.step_retryDecryption (Scenario.retryAt 1600 2) Scenario.submitted 1);
      vm_compute; reflexivity. }
  assert (Ledger.reachable Scenario.retriedTwice) as Htwice.
  { replace Scenario.retriedTwice
      with (set_verifier Scenario.retriedOnce (verifier Scenario.retriedTwice))
      by (vm_compute; reflexivity).
    apply (Ledger.reachable_step Scenario.retriedOnce); [exact Honce|].
    eapply (Ledger.step_retryDecryption (Scenario.retryAt 2200 3) Scenario.retriedOnce 2);
      vm_compute; reflexivity. }
  replace Scenario.retriedThrice
    with (set_verifier Scenario.retriedTwice (verifier Scenario.retriedThrice))
    by (vm_compute; reflexivity).
  apply (Ledger.reachable_step Scenario.retriedTwice); [exact Htwice|].
  eapply (Ledger.step_retryDecryption (Scenario.retryAt 2800 4) Scenario.retriedTwice 3);
    vm_compute; reflexivity.
Defined.

Lemma reachable_completed : Ledger.reachable Scenario.completed.
Proof.
  assert (Ledger.reachable Scenario.authorised) as Hauth.
  { apply (Ledger.reachable_step Scenario.w0); [apply Ledger.reachable_deployed|].
    eapply (Ledger.step_authorizeMinter Scenario.deployer Scenario.w0
              Scenario.verifierAddress).
    vm_compute. reflexivity. }
  assert (Ledger.reachable Scenario.submittedAuthorised) as Hsub.
  { apply (Ledger.reachable_step Scenario.authorised); [exact Hauth|].
    eapply (Ledger.step_verifyAge (mkEnv Scenario.alice 1000 55 1 true)
              Scenario.authorised);
      vm_compute; reflexivity. }
  apply (Ledger.reachable_step Scenario.submittedAuthorised); [exact Hsub|].
  eapply (Ledger.step_callbackDecryption (Scenario.callbackAt 1200)
            Scenario.submittedAuthorised 1 (Some true)).
  vm_compute. reflexivity.
Defined.

Lemma reachable_verifiedTwice : Ledger.reachable Scenario.verifiedTwice.
Proof.
  assert (Ledger.reachable Scenario.authorised) as Hauth.
  { apply (Ledger.reachable_step Scenario.w0); [apply Ledger.reachable_deployed|].
    eapply (Ledger.step_authorizeMinter Scenario.deployer Scenario.w0
              Scenario.verifierAddress).
    vm_compute. reflexivity. }
  assert (Ledger.reachable Scenario.verifiedOnce) as Honce.
  { apply (Ledger.reachable_step Scenario.authorised); [exact Hauth|].
    eapply (Ledger.step_verifyAgeMock (mkEnv Scenario.alice 1000 55 0 true)
              Scenario.authorised 25).
    vm_compute. reflexivity. }
  apply (Ledger.reachable_step Scenario.verifiedOnce); [exact Honce|].
  eapply (Ledger.step_verifyAgeMock (mkEnv Scenario.alice 2000 56 0 true)
            Scenario.verifiedOnce 25).
  vm_compute. reflexivity.
Defined.

(** After three retries Alice's current request is request 4, her own, at
    the retry limit. *)
Lemma reachable_requests_consistent_witness :
  0 <= retryCount (request (verifier Scenario.retriedThrice) 4) <= MAX_RETRIES /\
  requester (request (verifier Scenario.retriedThrice)
               (mget 0 (userToRequestId (verifier Scenario.retriedThrice)) Scenario.alice))
    = Scenario.alice.
Proof.
  destruct (reachable_requests_consistent Scenario.retriedThrice reachable_retriedThrice)
    as (Hcount & _ & Hcurrent).
  split; [apply Hcount|]. apply Hcurrent. vm_compute. congruence.
Defined.

(** A transaction leaves a processed request exactly as it is. *)
Lemma step_processed (w w' : World) (id : Z) :
  Ledger.step w w' ->
  processed (request (verifier w) id) = true ->
  request (verifier w') id = request (verifier w) id.
Proof.
  intros Hstep Hproc.
  pose proof (request_recorded (verifier w) id (or_intror Hproc)) as Hrecorded.
  destruct Hstep as
    [ w a w' logs H
    | e w w' logs Hfresh H
    | e w rid decoded w' logs H
    | e w age w' logs H
    | e w w' logs H
    | e w rid s' logs new Hfresh H
    | sender w minter n' logs H
    | sender now w to age n' logs tokenId H
    | sender w from to tokenId n' logs Hsender H ].
  - injection H as <- _. reflexivity.
  - unfold verifyAge in H. apply require_Ok in H as [_ H]. injection H as <- _.
    unfold request. cbn [verifier set_verifier decryptionRequests set_userToRequestId
      set_requestIdToUser set_decryptionRequests set_userEncryptedAges].
    apply mget_insert_ne. intros Heq. unfold Ledger.fresh in Hfresh. congruence.
  - apply callbackDecryption_Ok_inv in H as (_ & Hopen & _ & _ & _ & d & _ & -> & _).
    unfold request. cbn [decryptionRequests set_decryptionRequests set_isVerified].
    apply mget_insert_ne. intros Heq. rewrite Heq in Hopen. congruence.
  - unfold verifyAgeMock in H.
    match type of H with
    | (if ?c then _ else _) = _ => destruct c
    end.
    + apply bind_Ok in H as ([w2 evs2] & Hm & H). injection H as <- _.
      apply _mintNFTCredential_verifier in Hm as [-> _]. reflexivity.
    + injection H as <- _. reflexivity.
  - unfold mintNFTManual in H.
    apply require_Ok in H as [_ H]. apply require_Ok in H as [_ H].
    apply require_Ok in H as [_ H].
    apply _mintNFTCredential_verifier in H as [-> _]. reflexivity.
  - apply retryDecryption_Ok_inv in H as (_ & _ & Hopen & _ & _ & _ & _ & _ & ->).
    unfold request, retried. cbn [verifier set_verifier decryptionRequests].
    rewrite mget_insert_ne
      by (intros Heq; unfold Ledger.fresh in Hfresh; congruence).
    apply mget_insert_ne. intros Heq. rewrite Heq in Hopen. congruence.
  - reflexivity.
  - reflexivity.
  - reflexivity.
Qed.

(** X6. Once a request is processed its record never changes again,
    whatever transactions follow: it stays processed, with the same
    requester, timestamp and retry count. *)
Theorem processed_request_is_final (w w' : World) (id : Z) :
  rtc Ledger.step w w' ->
  processed (request (verifier w) id) = true ->
  request (verifier w') id = request (verifier w) id.
Proof.
  induction 1 as [w | w w1 w' Hstep _ IH]; intros Hproc; [reflexivity|].
  pose proof (step_processed w w1 id Hstep Hproc) as Hsame.
  rewrite <- Hsame. apply IH. rewrite Hsame. exact Hproc.
Qed.

(** Alice submits again after her request 1 was completed; request 1 is
    still the completed record. *)
Lemma processed_request_is_final_witness :
  let later := Scenario.after
                 (verifyAge (mkEnv Scenario.alice 5000 57 2 true) Scenario.completed)
                 Scenario.completed in
  request (verifier later) 1 = mkRequest Scenario.alice 1000 0 true.
Proof.
  intros later.
  assert (rtc Ledger.step Scenario.completed later) as Hpath.
  { apply rtc_once.
    eapply (Ledger.step_verifyAge (mkEnv Scenario.alice 5000 57 2 true) Scenario.completed);
      vm_compute; reflexivity. }
  rewrite (processed_request_is_final _ _ 1 Hpath); vm_compute; reflexivity.
Defined.

(** ** Submitting and reading back a request *)

(** X7. A submission whose encrypted input the library accepts always goes
    through: it makes the sender's new request the current one, with retry
    count 0 and not processed, leaves the token contract untouched, and the
    status read back for it at any later time reports it as existing, not
    processed, and expired exactly when more than 30 minutes have passed. *)
Theorem verifyAge_opens_request (e : Env) (w : World) :
  fhe_accepts e = true ->
  0 < block_timestamp e ->
  block_timestamp e + REQUEST_TIMEOUT <= uint256_max ->
  exists (w' : World) (logs : list Event),
    verifyAge e w = Ok (w', logs) /\
    mget 0 (userToRequestId (verifier w')) (msg_sender e) = fhe_requestId e /\
    mget 0 (requestIdToUser (verifier w')) (fhe_requestId e) = msg_sender e /\
    request (verifier w') (fhe_requestId e)
      = mkRequest (msg_sender e) (block_timestamp e) 0 false /\
    nft w' = nft w /\
    forall now : Z,
      getRequestStatus now (verifier w') (fhe_requestId e)
      = Ok (mkStatus true false 0 (block_timestamp e + REQUEST_TIMEOUT <? now)
                     (block_timestamp e)).
Proof.
  intros Hacc Hpos Hfit. unfold verifyAge. rewrite require_true by exact Hacc.
  eexists. eexists. split; [reflexivity|].
  cbn [verifier set_verifier decryptionRequests requestIdToUser userToRequestId
       set_userToRequestId set_requestIdToUser set_decryptionRequests
       set_userEncryptedAges nft].
  assert (forall m : gmap Z DecryptionRequest,
            mget noRequest
              (<[fhe_requestId e := mkRequest (msg_sender e) (block_timestamp e) 0 false]> m)
              (fhe_requestId e)
            = mkRequest (msg_sender e) (block_timestamp e) 0 false) as Hreq
    by (intros m; apply mget_insert_eq).
  split; [apply mget_insert_eq|]. split; [apply mget_insert_eq|].
  split; [unfold request;
          cbn [decryptionRequests set_userToRequestId set_requestIdToUser
               set_decryptionRequests set_userEncryptedAges]; apply Hreq|].
  split; [reflexivity|].
  intros now. unfold getRequestStatus, request.
  cbn [decryptionRequests set_userToRequestId set_requestIdToUser
       set_decryptionRequests set_userEncryptedAges].
  rewrite Hreq. cbn [timestamp processed retryCount].
  { 
    replace (0 <? block_timestamp e) with true by (symmetry; lia). cbn [negb].
    rewrite checked_add_fits by exact Hfit. reflexivity. }
Qed.

(** Alice's submission at time 1000, read back at 1500 and at 3400. *)
Lemma verifyAge_opens_request_witness :
  exists (w' : World) (logs : list Event),
    verifyAge (mkEnv Scenario.alice 1000 55 1 true) Scenario.w0 = Ok (w', logs) /\
    getRequestStatus 1500 (verifier w') 1 = Ok (mkStatus true false 0 false 1000) /\
    getRequestStatus 3400 (verifier w') 1 = Ok (mkStatus true false 0 true 1000).
Proof.
  destruct (verifyAge_opens_request (mkEnv Scenario.alice 1000 55 1 true) Scenario.w0)
    as (w' & logs & Hok & _ & _ & _ & _ & Hstatus);
    [reflexivity | vm_compute; reflexivity | vm_compute; congruence |].
  exists w', logs. split; [exact Hok|]. split; apply Hstatus.
Defined.

(** X8. [isRequestExpired] and the [expired] field of [getRequestStatus]
    agree on every request id and at every time, an id without a record
    counting as expired. *)
Theorem isRequestExpired_agrees (now : Z) (s : State) (requestId : Z) :
  0 <= timestamp (request s requestId) ->
  isRequestExpired now s requestId
  = Evm.bind (getRequestStatus now s requestId) (fun status => Ok (st_expired status)).
Proof.
  intros Hts. unfold isRequestExpired, getRequestStatus.
  destruct (Z.eqb_spec (timestamp (request s requestId)) 0) as [Hz | Hnz].
  - rewrite Hz. reflexivity.
  - replace (0 <? timestamp (request s requestId)) with true by (symmetry; lia).
    cbn [negb].
    destruct (checked_add (timestamp (request s requestId)) REQUEST_TIMEOUT); reflexivity.
Qed.

(** Request 1 of the example ledger at time 3400, and the unknown id 9. *)
Lemma isRequestExpired_agrees_witness :
  isRequestExpired 3400 (verifier Scenario.submitted) 1 = Ok true /\
  isRequestExpired 3400 (verifier Scenario.submitted) 9 = Ok true /\
  getRequestStatus 3400 (verifier Scenario.submitted) 9 = Ok (mkStatus false false 0 true 0).
Proof.
  split; [|split; [|vm_compute; reflexivity]].
  - rewrite (isRequestExpired_agrees 3400 (verifier Scenario.submitted) 1);
      vm_compute; congruence.
  - rewrite (isRequestExpired_agrees 3400 (verifier Scenario.submitted) 9);
      vm_compute; congruence.
Defined.

(** ** Mock verification and minting through the verifier *)

(** X9. A mock verification with an age below 18 always succeeds, records
    the sender as not verified even if the sender was verified before, and
    touches neither the token contract nor the request records: a
    credential minted earlier stays. *)
Theorem verifyAgeMock_underage (e : Env) (w : World) (age : Z) :
  age < 18 ->
  exists w' : World,
    verifyAgeMock e w age = Ok (w', [VerificationResult (msg_sender e) false]) /\
    mget false (isVerified (verifier w')) (msg_sender e) = false /\
    nft w' = nft w /\
    decryptionRequests (verifier w') = decryptionRequests (verifier w) /\
    userToRequestId (verifier w') = userToRequestId (verifier w).
Proof.
  intros Hage. unfold verifyAgeMock.
  replace (18 <=? age) with false by (symmetry; lia). cbn [andb].
  eexists. split; [reflexivity|].
  cbn [verifier set_verifier isVerified set_isVerified set_userEncryptedAges nft
       decryptionRequests userToRequestId].
  repeat split. apply mget_insert_eq.
Qed.

(** Alice, holding token 1, repeats the mock verification with age 16. *)
Lemma verifyAgeMock_underage_witness :
  exists w' : World,
    verifyAgeMock (mkEnv Scenario.alice 3000 58 0 true) Scenario.verifiedOnce 16
      = Ok (w', [VerificationResult Scenario.alice false]) /\
    mget false (isVerified (verifier Scenario.verifiedOnce)) Scenario.alice = true /\
    mget false (isVerified (verifier w')) Scenario.alice = false /\
    AgeCredentialNFT.hasCredential (nft w') Scenario.alice = true.
Proof.
  destruct (verifyAgeMock_underage (mkEnv Scenario.alice 3000 58 0 true)
              Scenario.verifiedOnce 16) as (w' & Hok & Hflag & Hnft & _);
    [lia|].
  exists w'. split; [exact Hok|]. split; [vm_compute; reflexivity|].
  split; [exact Hflag|]. rewrite Hnft. vm_compute. reflexivity.
Defined.

(** X10. While a token contract is configured but the verifier is not one
    of its authorised minters, no user without a credential can be verified
    as old enough: the mock verification of an adult and the gateway
    callback carrying a positive verdict both revert with "Not authorized",
    so neither the verified flag nor the processed flag is set. *)
Theorem verification_reverts_without_minter (w : World) :
  nftContract (verifier w) <> 0 ->
  mget false (AgeCredentialNFT.authorizedMinters (nft w)) (self w) = false ->
  (forall (e : Env) (age : Z),
     18 <= age ->
     AgeCredentialNFT.hasCredential (nft w) (msg_sender e) = false ->
     verifyAgeMock e w age = Revert "Not authorized") /\
  (forall (e : Env) (requestId : Z),
     let req := request (verifier w) requestId in
     let user := mget 0 (requestIdToUser (verifier w)) requestId in
     0 < timestamp req -> processed req = false ->
     block_timestamp e <= timestamp req + REQUEST_TIMEOUT ->
     timestamp req + REQUEST_TIMEOUT <= uint256_max ->
     fhe_accepts e = true -> user <> 0 ->
     AgeCredentialNFT.hasCredential (nft w) user = false ->
     callbackDecryption e w requestId (Some true) = Revert "Not authorized").
Proof.
  intros Hnft Hminter.
  assert (forall (now : Z) (w1 : World) (user : address),
            nft w1 = nft w -> self w1 = self w ->
            AgeCredentialNFT.hasCredential (nft w) user = false ->
            _mintNFTCredential now w1 user = Revert "Not authorized") as Hmint.
  { intros now w1 user Hn Hs Hnone. unfold _mintNFTCredential.
    rewrite Hn, Hs, Hnone. unfold AgeCredentialNFT.mintCredential.
    rewrite Hminter. reflexivity. }
  split.
  - intros e age Hage Hnone. unfold verifyAgeMock.
    replace (18 <=? age) with true by (symmetry; lia).
    cbn [nftContract set_isVerified set_userEncryptedAges].
    replace (nftContract (verifier w) =? 0) with false by (symmetry; lia).
    cbn [andb negb]. rewrite Hmint by (reflexivity || assumption). reflexivity.
  - intros e requestId req user Hts Hproc Htime Hfit Hsig Huser Hnone.
    unfold callbackDecryption. fold req. fold user.
    rewrite require_true by lia. rewrite require_true by (rewrite Hproc; reflexivity).
    rewrite checked_add_fits by exact Hfit. simpl Evm.bind.
    rewrite require_true by lia. rewrite require_true by exact Hsig.
    rewrite require_true by (apply negb_true_iff; lia).
    cbn [nftContract set_decryptionRequests set_isVerified].
    replace (nftContract (verifier w) =? 0) with false by (symmetry; lia).
    cbn [andb negb]. rewrite Hmint by (reflexivity || assumption). reflexivity.
Qed.

(** On the ledger where nobody authorised the verifier, Alice's mock
    verification as a 25-year-old and the positive callback for her
    request 1 both revert. *)
Lemma verification_reverts_without_minter_witness :
  verifyAgeMock (mkEnv Scenario.alice 1100 55 0 true) Scenario.submitted 25
    = Revert "Not authorized" /\
  callbackDecryption (Scenario.callbackAt 1200) Scenario.submitted 1 (Some true)
    = Revert "Not authorized".
Proof.
  destruct (verification_reverts_without_minter Scenario.submitted) as [Hmock Hcallback];
    [vm_compute; congruence | vm_compute; reflexivity |].
  split.
  - apply Hmock; vm_compute; congruence.
  - apply Hcallback; vm_compute; congruence.
Defined.

(** ** Issuing credentials *)

(** Every way for [mintCredential] to return normally, and the state it
    leaves. *)
Lemma mintCredential_Ok_inv (sender : address) (now : Z)
      (n n' : AgeCredentialNFT.State) (to : address) (age : euint32)
      (logs : list Event) (tokenId : Z) :
  AgeCredentialNFT.mintCredential sender now n to age = Ok (n', logs, tokenId) ->
  mget false (AgeCredentialNFT.authorizedMinters n) sender = true /\
  mget 0 (AgeCredentialNFT.addressToTokenId n) to = 0 /\
  to <> 0 /\
  AgeCredentialNFT._ownerOf n (AgeCredentialNFT.tokenIdCounter n) = 0 /\
  tokenId = AgeCredentialNFT.tokenIdCounter n /\
  n' = AgeCredentialNFT.mkState
         (AgeCredentialNFT.owner n)
         (<[tokenId := to]> (AgeCredentialNFT.owners n))
         (<[to := AgeCredentialNFT.balanceOf n to + 1]> (AgeCredentialNFT.balances n))
         (AgeCredentialNFT.tokenIdCounter n + 1)
         (<[tokenId := age]> (AgeCredentialNFT.encryptedAges n))
         (<[to := tokenId]> (AgeCredentialNFT.addressToTokenId n))
         (<[tokenId := now]> (AgeCredentialNFT.mintTimestamp n))
         (AgeCredentialNFT.authorizedMinters n) /\
  logs = [Transfer 0 to tokenId; CredentialMinted to tokenId now].
Proof.
  intros H. unfold AgeCredentialNFT.mintCredential in H.
  apply require_Ok in H as [Hauth H]. apply require_Ok in H as [Hnone H].
  apply bind_Ok in H as (next & Hnext & H). apply checked_add_Ok in Hnext as [-> _].
  apply bind_Ok in H as ([s2 evs] & Hmint & H). injection H as <- <- <-.
  unfold AgeCredentialNFT._safeMint in Hmint.
  apply require_Ok in Hmint as [Hto Hmint].
  apply bind_Ok in Hmint as ([[s' evs'] previous] & Hupd & Hmint).
  apply require_Ok in Hmint as [_ Hmint]. injection Hmint as <- <-.
  assert (to <> 0) as Hto' by (intros ->; discriminate).
  unfold AgeCredentialNFT._update in Hupd.
  change (AgeCredentialNFT._ownerOf _ (AgeCredentialNFT.tokenIdCounter n))
    with (AgeCredentialNFT._ownerOf n (AgeCredentialNFT.tokenIdCounter n)) in Hupd.
  destruct (Z.eqb_spec (AgeCredentialNFT._ownerOf n (AgeCredentialNFT.tokenIdCounter n)) 0)
    as [Hfree | Hused].
  2:{ replace (to =? 0) with false in Hupd by (symmetry; lia). discriminate. }
  cbn [negb andb] in Hupd.
  unfold AgeCredentialNFT.super_update in Hupd.
  change (AgeCredentialNFT._ownerOf _ (AgeCredentialNFT.tokenIdCounter n))
    with (AgeCredentialNFT._ownerOf n (AgeCredentialNFT.tokenIdCounter n)) in Hupd.
  rewrite Hfree in Hupd. cbn [Z.eqb negb andb orb] in Hupd.
  rewrite !require_true in Hupd by reflexivity.
  replace (to =? 0) with false in Hupd by (symmetry; lia).
  injection Hupd as <- <- _.
  repeat split; try assumption; try reflexivity. lia.
Qed.

(** What a successful [mintCredential] leaves behind. *)
Lemma mintCredential_effect
        (sender : address) (now : Z) (n n' : AgeCredentialNFT.State)
        (to : address) (age : euint32) (logs : list Event) (tokenId : Z) :
  AgeCredentialNFT.mintCredential sender now n to age = Ok (n', logs, tokenId) ->
  tokenId = AgeCredentialNFT.tokenIdCounter n /\
  AgeCredentialNFT.tokenIdCounter n' = tokenId + 1 /\
  AgeCredentialNFT._ownerOf n' tokenId = to /\
  AgeCredentialNFT.getTokenIdOf n' to = tokenId /\
  AgeCredentialNFT.balanceOf n' to = AgeCredentialNFT.balanceOf n to + 1 /\
  mget 0 (AgeCredentialNFT.encryptedAges n') tokenId = age /\
  mget 0 (AgeCredentialNFT.mintTimestamp n') tokenId = now /\
  (forall a : address, a <> to ->
     AgeCredentialNFT.getTokenIdOf n' a = AgeCredentialNFT.getTokenIdOf n a /\
     AgeCredentialNFT.balanceOf n' a = AgeCredentialNFT.balanceOf n a) /\
  (forall t : Z, t <> tokenId ->
     AgeCredentialNFT._ownerOf n' t = AgeCredentialNFT._ownerOf n t).
Proof.
  intros H. apply mintCredential_Ok_inv in H as (_ & _ & _ & _ & -> & -> & _).
  unfold AgeCredentialNFT._ownerOf, AgeCredentialNFT.getTokenIdOf,
    AgeCredentialNFT.balanceOf.
  cbn [AgeCredentialNFT.owners AgeCredentialNFT.balances AgeCredentialNFT.tokenIdCounter
       AgeCredentialNFT.encryptedAges AgeCredentialNFT.addressToTokenId
       AgeCredentialNFT.mintTimestamp].
  rewrite !mget_insert_eq.
  repeat split; try reflexivity.
  - apply mget_insert_ne. congruence.
  - apply mget_insert_ne. congruence.
  - intros t Ht. apply mget_insert_ne. congruence.
Qed.

(** For a recipient that makes no call of its own, the mint with the
    acceptance check is the mint on the token contract alone, followed by
    the recipient's answer. *)
Lemma mintCredential_without_call
      (r : Reentrancy.Receiver) (sender : address) (now : Z) (w : World)
      (to : address) (age : euint32) :
  Reentrancy.makes_no_call r = true ->
  Reentrancy.mintCredential (Reentrancy.checkOnERC721Received r now to) sender now w to age
  = match AgeCredentialNFT.mintCredential sender now (nft w) to age with
    | Ok (n', evs, tokenId) =>
        if Reentrancy.accepts r then Ok (set_nft w n', evs, tokenId)
        else Revert "ERC721InvalidReceiver"
    | Revert reason => Revert reason
    | Panic code => Panic code
    end.
Proof.
  intros Hquiet.
  unfold Reentrancy.mintCredential, AgeCredentialNFT.mintCredential.
  destruct (mget false (AgeCredentialNFT.authorizedMinters (nft w)) sender); [|reflexivity].
  destruct (mget 0 (AgeCredentialNFT.addressToTokenId (nft w)) to =? 0); [|reflexivity].
  cbn [Evm.bind Evm.require].
  destruct (checked_add (AgeCredentialNFT.tokenIdCounter (nft w)) 1) as [next| |];
    [|reflexivity|reflexivity].
  cbn [Evm.bind]. unfold Reentrancy._safeMint, AgeCredentialNFT._safeMint.
  destruct (negb (to =? 0)); [|reflexivity].
  cbn [Evm.bind Evm.require nft set_nft].
  match goal with
  | |- context [AgeCredentialNFT._update ?n to ?t 0] =>
      destruct (AgeCredentialNFT._update n to t 0) as [[[n' evs] previous]| |]
  end; [|reflexivity|reflexivity].
  cbn [Evm.bind]. destruct (previous =? 0); [|reflexivity].
  cbn [Evm.bind Evm.require].
  destruct r as [|selector|]; [| |discriminate].
  - cbn [Reentrancy.checkOnERC721Received Reentrancy.accepts Evm.bind nft set_nft
         verifier self].
    rewrite app_nil_r. reflexivity.
  - destruct selector;
      cbn [Reentrancy.checkOnERC721Received Reentrancy.accepts Evm.bind Evm.require
           nft set_nft verifier self]; [|reflexivity].
    rewrite app_nil_r. reflexivity.
Qed.

(** In particular the verifier's mock verification, called by an account
    without code, is the one of the whole-transaction ledger. *)
Lemma verifyAgeMock_without_code (e : Env) (w : World) (age : Z) :
  Reentrancy.verifyAgeMock
    (Reentrancy.checkOnERC721Received Reentrancy.NoCode (block_timestamp e) (msg_sender e))
    e w age
  = verifyAgeMock e w age.
Proof.
  unfold Reentrancy.verifyAgeMock, verifyAgeMock.
  destruct ((18 <=? age) && negb (nftContract _ =? 0)); [|reflexivity].
  unfold Reentrancy._mintNFTCredential, _mintNFTCredential.
  destruct (AgeCredentialNFT.hasCredential _ _); [reflexivity|].
  rewrite mintCredential_without_call by reflexivity.
  cbn [nft self set_verifier Reentrancy.accepts].
  match goal with
  | |- context [AgeCredentialNFT.mintCredential ?a ?b ?c ?d ?f] =>
      destruct (AgeCredentialNFT.mintCredential a b c d f) as [[[n' evs] tokenId]| |]
  end; reflexivity.
Qed.

(** X11. A successful [mintCredential] to a recipient that makes no call
    of its own during the acceptance check (an account without code, or a
    contract that only returns the selector) issues the token whose id is
    the counter's value, advances the counter by one, makes the recipient
    the owner of the token and the token the recipient's credential, raises
    the recipient's balance by one, stores the encrypted age and the mint
    time under the token, and changes nothing for any other address or
    token, nor in the verifier; a recipient that returns something else
    makes it revert. *)
Theorem mintCredential_issues
        (r : Reentrancy.Receiver) (sender : address) (now : Z) (w w' : World)
        (to : address) (age : euint32) (logs : list Event) (tokenId : Z) :
  Reentrancy.makes_no_call r = true ->
  Reentrancy.mintCredential (Reentrancy.checkOnERC721Received r now to) sender now w to age
    = Ok (w', logs, tokenId) ->
  Reentrancy.accepts r = true /\
  verifier w' = verifier w /\
  tokenId = AgeCredentialNFT.tokenIdCounter (nft w) /\
  AgeCredentialNFT.tokenIdCounter (nft w') = tokenId + 1 /\
  AgeCredentialNFT._ownerOf (nft w') tokenId = to /\
  AgeCredentialNFT.getTokenIdOf (nft w') to = tokenId /\
  AgeCredentialNFT.balanceOf (nft w') to = AgeCredentialNFT.balanceOf (nft w) to + 1 /\
  mget 0 (AgeCredentialNFT.encryptedAges (nft w')) tokenId = age /\
  mget 0 (AgeCredentialNFT.mintTimestamp (nft w')) tokenId = now /\
  (forall a : address, a <> to ->
     AgeCredentialNFT.getTokenIdOf (nft w') a = AgeCredentialNFT.getTokenIdOf (nft w) a /\
     AgeCredentialNFT.balanceOf (nft w') a = AgeCredentialNFT.balanceOf (nft w) a) /\
  (forall t : Z, t <> tokenId ->
     AgeCredentialNFT._ownerOf (nft w') t = AgeCredentialNFT._ownerOf (nft w) t).
Proof.
  intros Hquiet H. rewrite mintCredential_without_call in H by exact Hquiet.
  destruct (AgeCredentialNFT.mintCredential sender now (nft w) to age)
    as [[[n' evs] id]| |] eqn:Hmint; try discriminate.
  destruct (Reentrancy.accepts r); [|discriminate].
  injection H as <- <- <-.
  split; [reflexivity|]. split; [reflexivity|].
  cbn [nft set_nft]. exact (mintCredential_effect _ _ _ _ _ _ _ _ Hmint).
Qed.

(** The verifier mints the first credential, for Alice, at time 1000. *)
Lemma mintCredential_issues_witness :
  exists (w' : World) (logs : list Event),
    Reentrancy.mintCredential
      (Reentrancy.checkOnERC721Received Reentrancy.NoCode 1000 Scenario.alice)
      Scenario.verifierAddress 1000 Scenario.authorised Scenario.alice 55
    = Ok (w', logs, 1) /\
    verifier w' = verifier Scenario.authorised /\
    AgeCredentialNFT.tokenIdCounter (nft w') = 1 + 1 /\
    AgeCredentialNFT._ownerOf (nft w') 1 = Scenario.alice /\
    AgeCredentialNFT.getTokenIdOf (nft w') Scenario.alice = 1.
Proof.
  destruct (Reentrancy.mintCredential
              (Reentrancy.checkOnERC721Received Reentrancy.NoCode 1000 Scenario.alice)
              Scenario.verifierAddress 1000 Scenario.authorised Scenario.alice 55)
    as [[[w' logs] tokenId]| |] eqn:Hmint; try (vm_compute in Hmint; discriminate).
  assert (tokenId = 1) as -> by (vm_compute in Hmint; congruence).
  exists w', logs. split; [reflexivity|].
  destruct (mintCredential_issues Reentrancy.NoCode _ _ _ _ _ _ _ _ eq_refl Hmint)
    as (_ & Hv & _ & Hc & Ho & Ht & _).
  auto.
Defined.

(** What a transaction can do to the token contract: nothing, one mint, or
    one authorisation. *)
Lemma step_nft (w w' : World) :
  Ledger.step w w' ->
  nft w' = nft w \/
  (exists sender now to age logs tokenId,
     AgeCredentialNFT.mintCredential sender now (nft w) to age
     = Ok (nft w', logs, tokenId)) \/
  (exists sender minter logs,
     AgeCredentialNFT.authorizeMinter sender (nft w) minter = Ok (nft w', logs)).
Proof.
  assert (forall now w0 w1 user logs,
            _mintNFTCredential now w0 user = Ok (w1, logs) ->
            nft w1 = nft w0 \/
            exists sender now to age logs tokenId,
              AgeCredentialNFT.mintCredential sender now (nft w0) to age
              = Ok (nft w1, logs, tokenId)) as Hvia.
  { intros now w0 w1 user logs H. unfold _mintNFTCredential in H.
    destruct (AgeCredentialNFT.hasCredential (nft w0) user).
    - injection H as <- _. left. reflexivity.
    - apply bind_Ok in H as ([[n' evs] tokenId] & Hmint & H). injection H as <- _.
      right. cbn [nft set_nft]. eauto 10. }
  intros Hstep. destruct Hstep as
    [ w a w' logs H
    | e w w' logs Hfresh H
    | e w rid decoded w' logs H
    | e w age w' logs H
    | e w w' logs H
    | e w rid s' logs new Hfresh H
    | sender w minter n' logs H
    | sender now w to age n' logs tokenId H
    | sender w from to tokenId n' logs Hsender H ].
  - injection H as <- _. left. reflexivity.
  - unfold verifyAge in H. apply require_Ok in H as [_ H]. injection H as <- _.
    left. reflexivity.
  - unfold callbackDecryption in H.
    apply require_Ok in H as [_ H]. apply require_Ok in H as [_ H].
    apply bind_Ok in H as (dl & _ & H).
    apply require_Ok in H as [_ H]. apply require_Ok in H as [_ H].
    apply require_Ok in H as [_ H].
    destruct decoded as [d|]; [|discriminate].
    match type of H with
    | (if ?c then _ else _) = _ => destruct c
    end.
    + apply bind_Ok in H as ([w2 evs2] & Hm & H). injection H as <- _.
      apply Hvia in Hm. destruct Hm as [Hm | Hm]; [left | right; left]; exact Hm.
    + injection H as <- _. left. reflexivity.
  - unfold verifyAgeMock in H.
    match type of H with
    | (if ?c then _ else _) = _ => destruct c
    end.
    + apply bind_Ok in H as ([w2 evs2] & Hm & H). injection H as <- _.
      apply Hvia in Hm. destruct Hm as [Hm | Hm]; [left | right; left]; exact Hm.
    + injection H as <- _. left. reflexivity.
  - unfold mintNFTManual in H.
    apply require_Ok in H as [_ H]. apply require_Ok in H as [_ H].
    apply require_Ok in H as [_ H].
    apply Hvia in H. destruct H as [H | H]; [left | right; left]; exact H.
  - left. reflexivity.
  - right. right. cbn [nft set_nft]. eauto.
  - right. left. cbn [nft set_nft]. eauto 10.
  - pose proof (transferFrom_reverts sender (nft w) from to tokenId Hsender) as Hrev.
    rewrite H in Hrev. discriminate.
Qed.

(** X12. In every state the ledger can reach, token ids have been issued
    without gaps: a token id has an owner exactly when it lies between 1 and
    the counter, the counter excluded; no token is ever burnt or skipped. *)
Theorem token_ids_consecutive (w : World) :
  Ledger.reachable w ->
  forall t : Z,
    AgeCredentialNFT._ownerOf (nft w) t <> 0
    <-> 1 <= t < AgeCredentialNFT.tokenIdCounter (nft w).
Proof.
  intros Hreach.
  assert (Ledger.ids_consecutive (nft w)) as Hids.
  { induction Hreach as [deployer va na h | w w' Hreach IH Hstep].
    - intros t. simpl. rewrite lookup_empty. split; [intros [x Hx]; discriminate | lia].
    - pose proof (reachable_consistent w Hreach) as (Hcounter & _ & _).
      destruct (step_nft w w' Hstep)
        as [-> | [(sender & now & to & age & logs & tokenId & Hmint)
                 | (sender & minter & logs & Hauth)]]; [exact IH | |].
      + apply mintCredential_Ok_inv in Hmint as (_ & _ & _ & _ & -> & -> & _).
        intros t. cbn [AgeCredentialNFT.owners AgeCredentialNFT.tokenIdCounter].
        destruct (decide (AgeCredentialNFT.tokenIdCounter (nft w) = t)) as [<-|Hne].
        * rewrite lookup_insert_eq. split; [lia | eauto].
        * rewrite lookup_insert_ne by assumption. rewrite (IH t). lia.
      + unfold AgeCredentialNFT.authorizeMinter in Hauth.
        apply require_Ok in Hauth as [_ Hauth]. injection Hauth as <- _. exact IH. }
  pose proof (reachable_consistent w Hreach) as (_ & Howned & _).
  intros t. rewrite <- (Hids t). unfold AgeCredentialNFT._ownerOf. split.
  - intros Hown. apply mget_Some in Hown. eauto.
  - intros [a Ha]. rewrite (mget_lookup 0 _ _ _ Ha). apply Howned in Ha. tauto.
Qed.

(** After Alice's two mock verifications exactly token 1 exists. *)
Lemma token_ids_consecutive_witness :
  AgeCredentialNFT._ownerOf (nft Scenario.verifiedTwice) 1 <> 0 /\
  ~ AgeCredentialNFT._ownerOf (nft Scenario.verifiedTwice) 2 <> 0.
Proof.
  pose proof (token_ids_consecutive Scenario.verifiedTwice reachable_verifiedTwice)
    as Hids.
  split.
  - apply (Hids 1). vm_compute. split; congruence.
  - rewrite (Hids 2). vm_compute. intros [_ H]. discriminate H.
Defined.

(** The token recorded for an address is owned by that address, which is
    not the zero address. *)
Lemma reachable_credential_owned (w : World) :
  Ledger.reachable w ->
  forall a : address,
    AgeCredentialNFT.hasCredential (nft w) a = true ->
    a <> 0 /\
    AgeCredentialNFT._ownerOf (nft w) (AgeCredentialNFT.getTokenIdOf (nft w) a) = a.
Proof.
  unfold AgeCredentialNFT.hasCredential, AgeCredentialNFT.getTokenIdOf.
  induction 1 as [deployer va na h | w w' Hreach IH Hstep]; intros a Hhas.
  - vm_compute in Hhas. discriminate.
  - pose proof (reachable_consistent w Hreach) as (Hcounter & Howned & _).
    destruct (step_nft w w' Hstep)
      as [Hsame | [(sender & now & to & age & logs & tokenId & Hmint)
                  | (sender & minter & logs & Hauth)]].
    + rewrite Hsame in *. apply IH. exact Hhas.
    + apply mintCredential_Ok_inv in Hmint as (_ & Hnone & Hto & _ & -> & Hn' & _).
      rewrite Hn' in *. clear Hn'. unfold AgeCredentialNFT._ownerOf in *.
      cbn [AgeCredentialNFT.owners AgeCredentialNFT.addressToTokenId] in *.
      unfold address in *.
      destruct (decide (to = a)) as [<-|Hne].
      * rewrite !mget_insert_eq. split; [exact Hto | reflexivity].
      * rewrite (mget_insert_ne 0 _ (AgeCredentialNFT.addressToTokenId (nft w)) to a Hne)
          in Hhas |- *.
        destruct (IH a Hhas) as [Ha Hown]. split; [exact Ha|].
        rewrite mget_insert_ne; [exact Hown|].
        assert (mget 0 (AgeCredentialNFT.owners (nft w))
                  (mget 0 (AgeCredentialNFT.addressToTokenId (nft w)) a) <> 0) as Hsome
          by (rewrite Hown; exact Ha).
        apply mget_Some in Hsome. apply Howned in Hsome. lia.
    + unfold AgeCredentialNFT.authorizeMinter in Hauth.
      apply require_Ok in Hauth as [_ Hauth]. injection Hauth as Hn' _.
      rewrite <- Hn' in Hhas |- *. apply IH. exact Hhas.
Qed.

Lemma rtc_reachable (w w' : World) :
  Ledger.reachable w -> rtc Ledger.step w w' -> Ledger.reachable w'.
Proof.
  intros Hreach Hpath. induction Hpath as [w | w w1 w' Hstep _ IH]; [exact Hreach|].
  apply IH. eapply Ledger.reachable_step; eassumption.
Qed.

(** X13. The simplified token contract has no revocation: once an address
    has a credential, then after any further transactions it still has the
    same token id recorded and still owns that token. *)
Theorem credential_is_permanent (w w' : World) (a : address) :
  Ledger.reachable w ->
  rtc Ledger.step w w' ->
  AgeCredentialNFT.hasCredential (nft w) a = true ->
  AgeCredentialNFT.getTokenIdOf (nft w') a = AgeCredentialNFT.getTokenIdOf (nft w) a /\
  AgeCredentialNFT.hasCredential (nft w') a = true /\
  AgeCredentialNFT._ownerOf (nft w') (AgeCredentialNFT.getTokenIdOf (nft w) a) = a.
Proof.
  intros Hreach Hpath Hhas.
  assert (AgeCredentialNFT.getTokenIdOf (nft w') a
          = AgeCredentialNFT.getTokenIdOf (nft w) a) as Hsame.
  { clear Hreach. induction Hpath as [w | w w1 w' Hstep _ IH]; [reflexivity|].
    assert (AgeCredentialNFT.getTokenIdOf (nft w1) a
            = AgeCredentialNFT.getTokenIdOf (nft w) a) as Hone.
    { destruct (step_nft w w1 Hstep)
        as [-> | [(sender & now & to & age & logs & tokenId & Hmint)
                 | (sender & minter & logs & Hauth)]]; [reflexivity | |].
      - apply mintCredential_Ok_inv in Hmint as (_ & Hnone & _ & _ & _ & -> & _).
        unfold AgeCredentialNFT.getTokenIdOf. cbn [AgeCredentialNFT.addressToTokenId].
        apply mget_insert_ne. intros ->.
        unfold AgeCredentialNFT.hasCredential in Hhas. rewrite Hnone in Hhas.
        discriminate.
      - unfold AgeCredentialNFT.authorizeMinter in Hauth.
        apply require_Ok in Hauth as [_ Hauth]. injection Hauth as <- _. reflexivity. }
    rewrite <- Hone. apply IH.
    unfold AgeCredentialNFT.hasCredential, AgeCredentialNFT.getTokenIdOf in *.
    rewrite Hone. exact Hhas. }
  assert (AgeCredentialNFT.hasCredential (nft w') a = true) as Hstill.
  { unfold AgeCredentialNFT.hasCredential, AgeCredentialNFT.getTokenIdOf in *.
    rewrite Hsame. exact Hhas. }
  split; [exact Hsame|]. split; [exact Hstill|].
  rewrite <- Hsame.
  apply (reachable_credential_owned w' (rtc_reachable w w' Hreach Hpath) a Hstill).
Qed.

(** Alice keeps token 1 through her second mock verification. *)
Lemma credential_is_permanent_witness :
  AgeCredentialNFT.getTokenIdOf (nft Scenario.verifiedOnce) Scenario.alice = 1 /\
  AgeCredentialNFT.getTokenIdOf (nft Scenario.verifiedTwice) Scenario.alice
    = AgeCredentialNFT.getTokenIdOf (nft Scenario.verifiedOnce) Scenario.alice /\
  AgeCredentialNFT._ownerOf (nft Scenario.verifiedTwice)
    (AgeCredentialNFT.getTokenIdOf (nft Scenario.verifiedOnce) Scenario.alice)
    = Scenario.alice.
Proof.
  assert (Ledger.reachable Scenario.authorised) as Hauth.
  { apply (Ledger.reachable_step Scenario.w0); [apply Ledger.reachable_deployed|].
    eapply (Ledger.step_authorizeMinter Scenario.deployer Scenario.w0
              Scenario.verifierAddress).
    vm_compute. reflexivity. }
  assert (Ledger.reachable Scenario.verifiedOnce) as Honce.
  { apply (Ledger.reachable_step Scenario.authorised); [exact Hauth|].
    eapply (Ledger.step_verifyAgeMock (mkEnv Scenario.alice 1000 55 0 true)
              Scenario.authorised 25).
    vm_compute. reflexivity. }
  assert (rtc Ledger.step Scenario.verifiedOnce Scenario.verifiedTwice) as Hpath.
  { apply rtc_once.
    eapply (Ledger.step_verifyAgeMock (mkEnv Scenario.alice 2000 56 0 true)
              Scenario.verifiedOnce 25).
    vm_compute. reflexivity. }
  split; [vm_compute; reflexivity|].
  destruct (credential_is_permanent Scenario.verifiedOnce Scenario.verifiedTwice
              Scenario.alice Honce Hpath) as (Hid & _ & Hown);
    [vm_compute; reflexivity|].
  split; [exact Hid | exact Hown].
Defined.

(** X14. Credentials are soulbound: [transferFrom] never succeeds, whoever
    calls it and whatever the arguments, and for a token that has an owner
    it reverts with "Soulbound: cannot transfer". *)
Theorem credentials_are_soulbound
        (sender : address) (n : AgeCredentialNFT.State) (from to : address) (tokenId : Z) :
  sender <> 0 ->
  is_ok (AgeCredentialNFT.transferFrom sender n from to tokenId) = false /\
  (AgeCredentialNFT._ownerOf n tokenId <> 0 -> to <> 0 ->
   AgeCredentialNFT.transferFrom sender n from to tokenId
   = Revert "Soulbound: cannot transfer").
Proof.
  intros Hsender. split; [apply transferFrom_reverts; exact Hsender|].
  intros Howned Hto. unfold AgeCredentialNFT.transferFrom.
  rewrite require_true by (apply negb_true_iff; lia).
  unfold AgeCredentialNFT._update.
  replace (AgeCredentialNFT._ownerOf n tokenId =? 0) with false by (symmetry; lia).
  replace (to =? 0) with false by (symmetry; lia). reflexivity.
Qed.

(** Alice tries to hand her token 1 to the deployer. *)
Lemma credentials_are_soulbound_witness :
  AgeCredentialNFT.transferFrom Scenario.alice (nft Scenario.verifiedOnce)
    Scenario.alice Scenario.deployer 1
  = Revert "Soulbound: cannot transfer".
Proof.
  apply (credentials_are_soulbound Scenario.alice (nft Scenario.verifiedOnce)
           Scenario.alice Scenario.deployer 1);
    vm_compute; congruence.
Defined.

(** X15. [mintNFTManual] succeeds only for a sender who is verified and has
    no credential yet, and then it does mint: the sender receives the token
    whose id was the counter's value, and the verifier's own storage is
    unchanged. *)
Theorem mintNFTManual_mints (e : Env) (w w' : World) (logs : list Event) :
  Ledger.reachable w ->
  mintNFTManual e w = Ok (w', logs) ->
  mget false (isVerified (verifier w)) (msg_sender e) = true /\
  AgeCredentialNFT.hasCredential (nft w) (msg_sender e) = false /\
  AgeCredentialNFT.hasCredential (nft w') (msg_sender e) = true /\
  AgeCredentialNFT.getTokenIdOf (nft w') (msg_sender e)
    = AgeCredentialNFT.tokenIdCounter (nft w) /\
  AgeCredentialNFT._ownerOf (nft w') (AgeCredentialNFT.tokenIdCounter (nft w))
    = msg_sender e /\
  verifier w' = verifier w.
Proof.
  intros Hreach H.
  pose proof (reachable_consistent w Hreach) as (Hcounter & _ & _).
  unfold mintNFTManual in H.
  apply require_Ok in H as [Hver H]. apply require_Ok in H as [_ H].
  apply require_Ok in H as [Hnone H].
  apply negb_true_iff in Hnone.
  pose proof (_mintNFTCredential_verifier _ _ _ _ _ H) as [Hv _].
  unfold _mintNFTCredential in H. rewrite Hnone in H.
  apply bind_Ok in H as ([[n' evs] tokenId] & Hmint & H). injection H as <- _.
  cbn [nft set_nft].
  destruct (mintCredential_effect _ _ _ _ _ _ _ _ Hmint) as (-> & _ & Hown & Htok & _).
  repeat split; try assumption.
  unfold AgeCredentialNFT.hasCredential. unfold AgeCredentialNFT.getTokenIdOf in Htok.
  rewrite Htok. apply negb_true_iff. lia.
Qed.

(** Bob, verified before the token contract was configured, claims his
    credential by hand. *)
Lemma mintNFTManual_mints_witness :
  exists (w' : World) (logs : list Event),
    mintNFTManual (mkEnv Scenario.bob 1500 0 0 true) Scenario.configuredAuthorised
      = Ok (w', logs) /\
    AgeCredentialNFT.hasCredential (nft Scenario.configuredAuthorised) Scenario.bob = false /\
    AgeCredentialNFT.hasCredential (nft w') Scenario.bob = true /\
    AgeCredentialNFT.getTokenIdOf (nft w') Scenario.bob = 1.
Proof.
  assert (Ledger.reachable Scenario.configuredAuthorised) as Hreach.
  { assert (Ledger.reachable Scenario.bobVerified) as Hbob.
    { apply (Ledger.reachable_step Scenario.bare); [apply Ledger.reachable_deployed|].
      eapply (Ledger.step_verifyAgeMock (mkEnv Scenario.bob 900 60 0 true)
                Scenario.bare 30).
      vm_compute. reflexivity. }
    assert (Ledger.reachable Scenario.configured) as Hconf.
    { apply (Ledger.reachable_step Scenario.bobVerified); [exact Hbob|].
      eapply (Ledger.step_setNFTContract Scenario.bobVerified Scenario.nftAddress).
      vm_compute. reflexivity. }
    apply (Ledger.reachable_step Scenario.configured); [exact Hconf|].
    eapply (Ledger.step_authorizeMinter Scenario.deployer Scenario.configured
              Scenario.verifierAddress).
    vm_compute. reflexivity. }
  destruct (mintNFTManual (mkEnv Scenario.bob 1500 0 0 true) Scenario.configuredAuthorised)
    as [[w' logs]| |] eqn:Hmint; try (vm_compute in Hmint; discriminate).
  exists w', logs. split; [reflexivity|].
  destruct (mintNFTManual_mints _ _ _ _ Hreach Hmint) as (_ & Hnone & Hhas & Htok & _).
  split; [exact Hnone|]. split; [exact Hhas|].
  cbn [msg_sender] in Htok. rewrite Htok. vm_compute. reflexivity.
Defined.

(** * Further properties of the client *)

(** ** The oracle poller, when the gateway answers *)

Section PollLoopAnswer.

Import RelayerClient.

Variable D : Type.
Variable gateway : Z -> FetchReply D.
Variables (m interval : Z) (onProgress : bool).

Lemma pollLoop_answer (remaining : nat) (attempt k status : Z) (d : D) :
  attempt + Z.of_nat remaining = m + 1 ->
  attempt <= k <= m ->
  (forall a, attempt <= a < k -> Replies.unanswered (gateway a)) ->
  gateway k = Response status (Return d) ->
  ok status = true ->
  let '(r, t) := pollLoop gateway m interval onProgress remaining attempt in
  r = Return (mkPollResult true d k) /\
  fetches t = seqZ attempt (k - attempt + 1) /\
  sleeps t = replicate (Z.to_nat (k - attempt)) interval.
Proof.
  revert attempt. induction remaining as [|remaining IH];
    intros attempt Hcount Hk Hmiss Hhit Hok; [lia|].
  simpl pollLoop.
  destruct (Z.eq_dec attempt k) as [->|Hlater].
  - rewrite Hhit, Hok. split; [reflexivity|].
    rewrite fetches_app, sleeps_app. replace (k - k + 1) with 1 by lia.
    replace (k - k) with 0 by lia.
    destruct onProgress; simpl; auto.
  - specialize (IH (attempt + 1) ltac:(lia) ltac:(lia)
                   ltac:(intros a Ha; apply Hmiss; lia) Hhit Hok).
    assert (forall pre : list effect,
      fetches pre = [] -> sleeps pre = [] ->
      let '(r, t) :=
        (let '(r, t) := pollLoop gateway m interval onProgress remaining (attempt + 1) in
         (r, (if onProgress then [OnProgress attempt m] else [])
               ++ Fetch attempt :: pre
               ++ (if attempt <? m then [Sleep interval] else []) ++ t)) in
      r = Return (mkPollResult true d k) /\
      fetches t = seqZ attempt (k - attempt + 1) /\
      sleeps t = replicate (Z.to_nat (k - attempt)) interval) as Hcontinue.
    { intros pre Hf Hs.
      destruct (pollLoop gateway m interval onProgress remaining (attempt + 1)) as [r t].
      destruct IH as (-> & IHf & IHs). split; [reflexivity|].
      rewrite fetches_app, sleeps_app. simpl fetches. simpl sleeps.
      rewrite !fetches_app, !sleeps_app, Hf, Hs, IHf, IHs.
      replace (attempt <? m) with true by (symmetry; lia).
      replace (k - attempt + 1) with (Z.of_nat (S (Z.to_nat (k - attempt)))) by lia.
      rewrite seqZ_succ.
      replace (Z.of_nat (Z.to_nat (k - attempt))) with (k - (attempt + 1) + 1) by lia.
      destruct onProgress; simpl; (split; [reflexivity|]);
        replace (Z.to_nat (k - attempt)) with (S (Z.to_nat (k - (attempt + 1)))) by lia;
        reflexivity. }
    pose proof (Hmiss attempt ltac:(lia)) as Hnow.
    destruct (gateway attempt) as [err|status' json]; simpl in Hnow.
    + apply (Hcontinue [Warn err]); reflexivity.
    + destruct (ok status') eqn:Hok'.
      * destruct Hnow as [Hnow | [e ->]]; [discriminate|].
        apply (Hcontinue [Warn e]); reflexivity.
      * destruct (status' =? 404).
        -- apply (Hcontinue []); reflexivity.
        -- apply (Hcontinue [Warn (Error "Gateway 返回异常")]); reflexivity.
Qed.

End PollLoopAnswer.

(** X16. If the gateway first answers with a 2xx response carrying JSON at
    attempt k, within the allowed attempts, and every earlier attempt met a
    non-2xx status, a network error or an unreadable body, then
    [pollDecryption] returns that payload with [attempts = k], having made
    exactly the requests 1..k and waited the interval k - 1 times. *)
Theorem pollDecryption_returns_first_answer
        (D : Type) (gateway : Z -> RelayerClient.FetchReply D)
        (options : RelayerClient.PollOptions) (k status : Z) (d : D) :
  let maxAttempts := default 60 (RelayerClient.maxAttempts options) in
  let interval := default 5000 (RelayerClient.interval options) in
  1 <= k <= maxAttempts ->
  (forall a, 1 <= a < k -> Replies.unanswered (gateway a)) ->
  gateway k = RelayerClient.Response status (Return d) ->
  RelayerClient.ok status = true ->
  let '(r, t) := RelayerClient.pollDecryption gateway options in
  r = Return (RelayerClient.mkPollResult true d k) /\
  fetches t = seqZ 1 k /\
  sleeps t = replicate (Z.to_nat (k - 1)) interval.
Proof.
  intros maxAttempts interval Hk Hmiss Hhit Hok.
  unfold RelayerClient.pollDecryption. fold maxAttempts. fold interval.
  pose proof (pollLoop_answer D gateway maxAttempts interval
                (RelayerClient.onProgress options) (Z.to_nat maxAttempts) 1 k status d
                ltac:(lia) Hk Hmiss Hhit Hok) as H.
  destruct (RelayerClient.pollLoop gateway maxAttempts interval
              (RelayerClient.onProgress options) (Z.to_nat maxAttempts) 1) as [r t].
  replace (k - 1 + 1) with k in H by lia. exact H.
Qed.

(** The gateway says 404, then sends an empty 200, then the result. *)
Lemma pollDecryption_returns_first_answer_witness :
  let gateway := fun a : Z =>
    if a =? 1 then RelayerClient.Response 404 (Throw (Error "not ready"))
    else if a =? 2 then RelayerClient.Response 200 (Throw (Error "Unexpected end of JSON"))
    else RelayerClient.Response 200 (Return true) in
  RelayerClient.pollDecryption gateway (RelayerClient.mkPollOptions (Some 5) (Some 10) false)
  = (Return (RelayerClient.mkPollResult true true 3),
     [Fetch 1; Sleep 10; Fetch 2; Warn (Error "Unexpected end of JSON"); Sleep 10; Fetch 3]).
Proof.
  intros gateway.
  pose proof (pollDecryption_returns_first_answer bool gateway
                (RelayerClient.mkPollOptions (Some 5) (Some 10) false) 3 200 true) as H.
  assert (forall a, 1 <= a < 3 -> Replies.unanswered (gateway a)) as Hmiss.
  { intros a Ha. assert (a = 1 \/ a = 2) as [-> | ->] by lia.
    - left. reflexivity.
    - right. eexists. reflexivity. }
  specialize (H ltac:(simpl; lia) Hmiss eq_refl eq_refl).
  destruct (RelayerClient.pollDecryption gateway
              (RelayerClient.mkPollOptions (Some 5) (Some 10) false)) as [r t] eqn:Hrun.
  destruct H as (-> & _ & _). vm_compute in Hrun. injection Hrun as <-. reflexivity.
Defined.

(** ** Backoff, when a later attempt succeeds *)


Section BackoffSuccess.

Import RetryMechanism.

Variable T : Type.
Variable fn : Z -> outcome T.
Variables (m d : Z) (onRetry : bool).


End BackoffSuccess.



(** X18. With a negative maxRetries the loop body never runs:
    [retryWithBackoff] does not call [fn] at all and throws [undefined],
    the value of the never-assigned [lastError]. *)
Theorem retryWithBackoff_negative_budget
        (T : Type) (fn : Z -> outcome T) (options : RetryMechanism.RetryOptions)
        (maxRetries : Z) :
  RetryMechanism.maxRetries options = Some maxRetries ->
  maxRetries < 0 ->
  RetryMechanism.retryWithBackoff fn options = (Throw Undefined, []).
Proof.
  intros Hopt Hneg. unfold RetryMechanism.retryWithBackoff. rewrite Hopt.
  cbn [default from_option id].
  replace (Z.to_nat (maxRetries + 1)) with O by lia. reflexivity.
Qed.

Lemma retryWithBackoff_negative_budget_witness :
  RetryMechanism.retryWithBackoff (fun _ : Z => Return 7)
    (RetryMechanism.mkRetryOptions (Some (-1)) None false)
  = (Throw Undefined, []).
Proof.
  apply (retryWithBackoff_negative_budget Z (fun _ => Return 7)
           (RetryMechanism.mkRetryOptions (Some (-1)) None false) (-1));
    [reflexivity | lia].
Defined.

(** ** Waiting for a receipt, when the transaction is mined *)

Section ReceiptFound.

Import WalletCompatibility.

Variable getBlockNumber : string -> outcome Z.
Variable getTransactionReceipt : string -> Z -> outcome (option TransactionReceipt).

Lemma pollReceipt_found (provider : string) (maxAttempts : Z)
      (remaining : nat) (i k : Z) (receipt : TransactionReceipt) :
  i <= k < i + Z.of_nat remaining ->
  (forall j, i <= j < k -> no_receipt (getTransactionReceipt provider j)) ->
  getTransactionReceipt provider k = Return (Some receipt) ->
  blockNumber receipt <> 0 ->
  let '(r, t) := pollReceipt getTransactionReceipt provider maxAttempts remaining i in
  r = Return receipt /\
  receiptPolls t = map (pair provider) (seqZ i (k - i + 1)) /\
  sleeps t = replicate (Z.to_nat (k - i)) 2000 /\
  sends t = [].
Proof.
  revert i. induction remaining as [|remaining IH]; intros i Hk Hnone Hhit Hblock; [lia|].
  simpl pollReceipt.
  destruct (Z.eq_dec i k) as [->|Hlater].
  - rewrite Hhit. unfold confirmed.
    replace (blockNumber receipt =? 0) with false by (symmetry; lia). cbn [negb].
    replace (k - k + 1) with 1 by lia. replace (k - k) with 0 by lia. auto.
  - specialize (IH (i + 1) ltac:(lia) ltac:(intros j Hj; apply Hnone; lia) Hhit Hblock).
    assert (forall pre : list effect,
      receiptPolls pre = [] -> sleeps pre = [] -> sends pre = [] ->
      let '(r, t) :=
        (let '(r, t) := pollReceipt getTransactionReceipt provider maxAttempts
                                    remaining (i + 1) in
         (r, GetTransactionReceipt provider i :: pre ++ Sleep 2000 :: t)) in
      r = Return receipt /\
      receiptPolls t = map (pair provider) (seqZ i (k - i + 1)) /\
      sleeps t = replicate (Z.to_nat (k - i)) 2000 /\
      sends t = []) as Hcontinue.
    { intros pre Hp Hs Hw.
      destruct (pollReceipt getTransactionReceipt provider maxAttempts remaining (i + 1))
        as [r t].
      destruct IH as (-> & IHp & IHs & IHw). split; [reflexivity|].
      simpl receiptPolls. simpl sleeps. simpl sends.
      rewrite receiptPolls_app, sleeps_app, sends_app, Hp, Hs, Hw.
      simpl. rewrite IHp, IHs, IHw.
      set (j := Z.to_nat (k - (i + 1))).
      replace (k - (i + 1) + 1) with (Z.of_nat (S j)) by lia.
      replace (k - i + 1) with (Z.of_nat (S (S j))) by lia.
      replace (Z.to_nat (k - i)) with (S j) by lia.
      rewrite (seqZ_succ i (S j)). auto. }
    pose proof (Hnone i ltac:(lia)) as Hnow.
    destruct (getTransactionReceipt provider i) as [r0|err]; simpl in Hnow.
    + rewrite Hnow. apply (Hcontinue []); reflexivity.
    + apply (Hcontinue [Warn err]); reflexivity.
Qed.

(** The selection loop settles on the first endpoint whose probe answers,
    and on the last endpoint of the list when none does. *)
Lemma selectProvider_first_live (rpcs : list string) (provider : option string) :
  fst (selectProvider getBlockNumber rpcs provider)
  = match find (fun u => match getBlockNumber u with Return _ => true | Throw _ => false end)
               rpcs with
    | Some u => Some u
    | None => match last rpcs with Some u => Some u | None => provider end
    end.
Proof.
  revert provider. induction rpcs as [|rpcUrl rest IH]; intros provider; [reflexivity|].
  simpl selectProvider. cbn [find].
  destruct (getBlockNumber rpcUrl) as [n|err]; [reflexivity|].
  specialize (IH (Some rpcUrl)).
  destruct (selectProvider getBlockNumber rest (Some rpcUrl)) as [p t]. simpl in IH |- *.
  rewrite IH. destruct (find _ rest); [reflexivity|].
  rewrite last_cons. destruct (last rest); reflexivity.
Qed.

End ReceiptFound.

(** X19. If the k-th poll, within the budget, is the first to show a
    receipt with a block number, [waitForTransactionWithPublicRpc] returns
    that receipt after exactly k + 1 polls of one endpoint and k waits of
    2000 ms, and submits nothing. *)
Theorem waitForTransaction_returns_receipt
        (getBlockNumber : string -> outcome Z)
        (getTransactionReceipt :
           string -> Z -> outcome (option WalletCompatibility.TransactionReceipt))
        (txHash : string) (maxAttempts : option Z) (k : Z)
        (receipt : WalletCompatibility.TransactionReceipt) :
  let budget := default 60 maxAttempts in
  0 <= k < budget ->
  (forall rpcUrl j, 0 <= j < k ->
     WalletCompatibility.no_receipt (getTransactionReceipt rpcUrl j)) ->
  (forall rpcUrl, getTransactionReceipt rpcUrl k = Return (Some receipt)) ->
  WalletCompatibility.blockNumber receipt <> 0 ->
  let '(r, t) := WalletCompatibility.waitForTransactionWithPublicRpc
                   getBlockNumber getTransactionReceipt txHash maxAttempts in
  r = Return receipt /\
  (exists rpcUrl, In rpcUrl WalletCompatibility.FALLBACK_RPCS /\
                  receiptPolls t = map (pair rpcUrl) (seqZ 0 (k + 1))) /\
  sleeps t = replicate (Z.to_nat k) 2000 /\
  sends t = [].
Proof.
  intros budget Hk Hnone Hhit Hblock.
  unfold WalletCompatibility.waitForTransactionWithPublicRpc. fold budget.
  pose proof (selectProvider_selects getBlockNumber WalletCompatibility.FALLBACK_RPCS None)
    as Hsel.
  destruct (WalletCompatibility.selectProvider getBlockNumber
              WalletCompatibility.FALLBACK_RPCS None) as [p t0].
  destruct Hsel as ((u & -> & Hin) & Hp0 & Hs0 & Hw0).
  pose proof (pollReceipt_found getTransactionReceipt u budget (Z.to_nat budget) 0 k receipt
                ltac:(lia) ltac:(intros j Hj; apply Hnone; lia) (Hhit u) Hblock) as Hpoll.
  destruct (WalletCompatibility.pollReceipt getTransactionReceipt u budget
              (Z.to_nat budget) 0) as [r t].
  destruct Hpoll as (-> & Hp & Hs & Hw).
  rewrite receiptPolls_app, sleeps_app, sends_app, Hp0, Hs0, Hw0, Hp, Hs, Hw.
  replace (k - 0 + 1) with (k + 1) by lia. replace (k - 0) with k by lia.
  split; [reflexivity|]. split; [|auto].
  exists u. auto.
Qed.

(** A transaction mined while the third poll is made. *)
Lemma waitForTransaction_returns_receipt_witness :
  let getBlockNumber := fun _ : string => Return 9000000 in
  let getTransactionReceipt := fun (_ : string) (i : Z) =>
    if i <? 2 then Return None
    else Return (Some (WalletCompatibility.mkReceipt 9000001 1)) in
  let '(r, t) := WalletCompatibility.waitForTransactionWithPublicRpc
                   getBlockNumber getTransactionReceipt "0xabc" None in
  r = Return (WalletCompatibility.mkReceipt 9000001 1) /\
  (exists rpcUrl, In rpcUrl WalletCompatibility.FALLBACK_RPCS /\
                  receiptPolls t = map (pair rpcUrl) (seqZ 0 (2 + 1))) /\
  sleeps t = replicate (Z.to_nat 2) 2000 /\
  sends t = [].
Proof.
  intros getBlockNumber getTransactionReceipt.
  apply (waitForTransaction_returns_receipt getBlockNumber getTransactionReceipt
           "0xabc" None 2 (WalletCompatibility.mkReceipt 9000001 1)).
  - simpl. lia.
  - intros rpcUrl j Hj. unfold getTransactionReceipt.
    replace (j <? 2) with true by (symmetry; lia). reflexivity.
  - intros rpcUrl. reflexivity.
  - simpl. lia.
Defined.

(** X20. [waitForTransactionWithPublicRpc] polls the first fallback
    endpoint whose liveness probe answers, and the last endpoint of the list
    when no probe answers; it therefore never ends with the "all public
    RPCs unavailable" error: it returns a receipt or throws the
    confirmation timeout. *)
Theorem waitForTransaction_always_polls
        (getBlockNumber : string -> outcome Z)
        (getTransactionReceipt :
           string -> Z -> outcome (option WalletCompatibility.TransactionReceipt))
        (txHash : string) (maxAttempts : option Z) :
  let live := fun u => match getBlockNumber u with Return _ => true | Throw _ => false end in
  let chosen := default "https://eth-sepolia.public.blastapi.io"
                        (find live WalletCompatibility.FALLBACK_RPCS) in
  let '(r, t) := WalletCompatibility.waitForTransactionWithPublicRpc
                   getBlockNumber getTransactionReceipt txHash maxAttempts in
  Forall (fun poll => fst poll = chosen) (receiptPolls t) /\
  ((exists receipt, r = Return receipt /\ WalletCompatibility.blockNumber receipt <> 0) \/
   r = Throw (ConfirmTimeoutError (default 60 maxAttempts))).
Proof.
  intros live chosen.
  unfold WalletCompatibility.waitForTransactionWithPublicRpc.
  pose proof (selectProvider_first_live getBlockNumber
                WalletCompatibility.FALLBACK_RPCS None) as Hfirst.
  pose proof (selectProvider_selects getBlockNumber WalletCompatibility.FALLBACK_RPCS None)
    as Hsel.
  destruct (WalletCompatibility.selectProvider getBlockNumber
              WalletCompatibility.FALLBACK_RPCS None) as [p t0].
  destruct Hsel as ((u & -> & _) & Hp0 & _ & _). cbn [fst] in Hfirst.
  assert (u = chosen) as ->.
  { unfold chosen.
    change (Some u = match find live WalletCompatibility.FALLBACK_RPCS with
                     | Some u' => Some u'
                     | None => Some "https://eth-sepolia.public.blastapi.io"%string
                     end) in Hfirst.
    destruct (find live WalletCompatibility.FALLBACK_RPCS) as [u'|];
      injection Hfirst as ->; reflexivity. }
  assert (forall remaining i,
    let '(r, t) := WalletCompatibility.pollReceipt getTransactionReceipt chosen
                     (default 60 maxAttempts) remaining i in
    Forall (fun poll => fst poll = chosen) (receiptPolls t) /\
    ((exists receipt, r = Return receipt /\ WalletCompatibility.blockNumber receipt <> 0) \/
     r = Throw (ConfirmTimeoutError (default 60 maxAttempts)))) as Hloop.
  { induction remaining as [|remaining IH]; intros i; simpl.
    - split; [constructor | right; reflexivity].
    - specialize (IH (i + 1)).
      destruct (WalletCompatibility.pollReceipt getTransactionReceipt chosen
                  (default 60 maxAttempts) remaining (i + 1)) as [r t].
      destruct IH as [IHp IHr].
      assert (forall pre, receiptPolls pre = [] ->
        Forall (fun poll => fst poll = chosen)
          (receiptPolls (GetTransactionReceipt chosen i :: pre ++ Sleep 2000 :: t)))
        as Hpolls.
      { intros pre Hpre. simpl. rewrite receiptPolls_app, Hpre. simpl.
        constructor; [reflexivity | exact IHp]. }
      destruct (getTransactionReceipt chosen i) as [[receipt|]|err]; simpl.
      + destruct (WalletCompatibility.blockNumber receipt =? 0) eqn:Hb; simpl.
        * split; [apply (Hpolls []); reflexivity | exact IHr].
        * split; [repeat constructor|]. left. exists receipt. split; [reflexivity | lia].
      + split; [apply (Hpolls []); reflexivity | exact IHr].
      + split; [apply (Hpolls [Warn err]); reflexivity | exact IHr]. }
  specialize (Hloop (Z.to_nat (default 60 maxAttempts)) 0).
  destruct (WalletCompatibility.pollReceipt getTransactionReceipt chosen
              (default 60 maxAttempts) (Z.to_nat (default 60 maxAttempts)) 0) as [r t].
  rewrite receiptPolls_app, Hp0. exact Hloop.
Qed.

(** ** The client-side retry never yields a new request *)

(** X21. Run against the contract as written, with the retry transaction
    executing no earlier than the status was read, [checkAndRetryDecryption]
    never obtains a new request id: it returns [null] or the id of the
    subject's current request and leaves the ledger unchanged, because it
    only sends the retry for a request that is already expired, which the
    contract rejects. *)
Theorem checkAndRetryDecryption_never_retries
        (nowRead : Z) (tx : Env) (s : State) (userAddress : address) (onRetry : bool) :
  0 < timestamp (request s (mget 0 (userToRequestId s) userAddress)) ->
  nowRead <= block_timestamp tx ->
  exists (r : option Z) (t : list effect),
    RetryMechanism.checkAndRetryDecryption nowRead tx s userAddress onRetry = (r, s, t) /\
    (r = None \/ r = Some (mget 0 (userToRequestId s) userAddress)) /\
    (r = Some (mget 0 (userToRequestId s) userAddress) -> sends t = []).
Proof.
  intros Hexists Hlater. unfold RetryMechanism.checkAndRetryDecryption.
  set (requestId := mget 0 (userToRequestId s) userAddress) in *.
  destruct (requestId =? 0); [eauto 8|].
  unfold getRequestStatus.
  replace (0 <? timestamp (request s requestId)) with true by (symmetry; lia).
  cbn [negb].
  destruct (checked_add (timestamp (request s requestId)) REQUEST_TIMEOUT)
    as [deadline|reason|code] eqn:Hdeadline; cbn [Evm.bind]; [|eauto 8|eauto 8].
  apply checked_add_Ok in Hdeadline as [-> _].
  cbn [st_processed st_expired st_retryCount].
  destruct (processed (request s requestId)); [eauto 8|].
  destruct (Z.ltb_spec (timestamp (request s requestId) + REQUEST_TIMEOUT) nowRead)
    as [Hexpired|Hfresh]; [|eauto 8].
  cbn [andb].
  destruct (retryCount (request s requestId) <? 3); [|eauto 8].
  pose proof (retryDecryption_expired_not_Ok tx s requestId ltac:(lia)) as Hrevert.
  destruct (retryDecryption tx s requestId) as [[[s' logs] n]| |]; [discriminate | |].
  - eexists. eexists. split; [reflexivity|]. split; [left; reflexivity | discriminate].
  - eexists. eexists. split; [reflexivity|]. split; [left; reflexivity | discriminate].
Qed.

(** Request 1 of the example ledger, checked ten minutes and forty minutes
    after its creation. *)
Lemma checkAndRetryDecryption_never_retries_witness :
  RetryMechanism.checkAndRetryDecryption 1600 (Scenario.retryAt 1600 2)
    (verifier Scenario.submitted) Scenario.alice true
    = (Some 1, verifier Scenario.submitted, []) /\
  exists (r : option Z) (t : list effect),
    RetryMechanism.checkAndRetryDecryption 3400 (Scenario.retryAt 3400 2)
      (verifier Scenario.submitted) Scenario.alice true
      = (r, verifier Scenario.submitted, t) /\
    (r = None \/ r = Some 1).
Proof.
  split; [vm_compute; reflexivity|].
  destruct (checkAndRetryDecryption_never_retries 3400 (Scenario.retryAt 3400 2)
              (verifier Scenario.submitted) Scenario.alice true)
    as (r & t & Hrun & Hr & _); [vm_compute; reflexivity | vm_compute; congruence |].
  exists r, t. split; [exact Hrun | exact Hr].
Defined.

(** ** The callback wait ends with the first read that succeeds *)

Section CallbackWait.

Import UseDecryption.

Variable ledger : Z -> option State.

Lemma waitLoop_first_read (userAddress : address) (remaining : nat) (i k : Z) (s : State) :
  i <= k < i + Z.of_nat remaining ->
  (forall j, i <= j < k -> ledger j = None) ->
  ledger k = Some s ->
  let '(r, t) := waitLoop ledger userAddress remaining i in
  r = Return tt /\
  ledgerReads t = seqZ i (k - i + 1) /\
  sleeps t = replicate (Z.to_nat (k - i)) INTERVAL.
Proof.
  revert i. induction remaining as [|remaining IH]; intros i Hk Hfail Hhit; [lia|].
  cbn [waitLoop].
  destruct (Z.eq_dec i k) as [->|Hlater].
  - rewrite Hhit.
    assert (callbackObserved s userAddress = true) as ->.
    { unfold callbackObserved, read_isVerified. cbn [is_defined].
      destruct (negb (mget 0 (userToRequestId s) userAddress =? 0)
                && processed (request s (mget 0 (userToRequestId s) userAddress)));
        reflexivity. }
    replace (k - k + 1) with 1 by lia. replace (k - k) with 0 by lia. auto.
  - rewrite (Hfail i) by lia.
    specialize (IH (i + 1) ltac:(lia) ltac:(intros j Hj; apply Hfail; lia) Hhit).
    destruct (waitLoop ledger userAddress remaining (i + 1)) as [r t].
    destruct IH as (-> & IHr & IHs). split; [reflexivity|].
    cbn [ledgerReads sleeps app]. rewrite IHr, IHs.
    set (j := Z.to_nat (k - (i + 1))).
    replace (k - (i + 1) + 1) with (Z.of_nat (S j)) by lia.
    replace (k - i + 1) with (Z.of_nat (S (S j))) by lia.
    replace (Z.to_nat (k - i)) with (S j) by lia.
    rewrite (seqZ_succ i (S j)). auto.
Qed.

End CallbackWait.

(** X22. [waitForCallbackCompletion] ends with the first iteration whose
    ledger reads succeed, whatever the flags it reads say: if the reads of
    iterations 0..k-1 throw and those of iteration k < 120 succeed, it
    returns normally after k + 1 rounds of reads and k waits of 2000 ms. *)
Theorem waitForCallbackCompletion_first_read
        (ledger : Z -> option State) (userAddress : address) (k : Z) (s : State) :
  0 <= k < UseDecryption.MAX_WAIT ->
  (forall j, 0 <= j < k -> ledger j = None) ->
  ledger k = Some s ->
  let '(r, t) := UseDecryption.waitForCallbackCompletion ledger userAddress in
  r = Return tt /\
  ledgerReads t = seqZ 0 (k + 1) /\
  sleeps t = replicate (Z.to_nat k) 2000.
Proof.
  intros Hk Hfail Hhit. unfold UseDecryption.waitForCallbackCompletion.
  pose proof (waitLoop_first_read ledger userAddress (Z.to_nat UseDecryption.MAX_WAIT)
                0 k s ltac:(lia) Hfail Hhit) as H.
  destruct (UseDecryption.waitLoop ledger userAddress (Z.to_nat UseDecryption.MAX_WAIT) 0)
    as [r t].
  replace (k - 0 + 1) with (k + 1) in H by lia. replace (k - 0) with k in H by lia.
  exact H.
Qed.

(** Two failed rounds of reads, then a ledger on which Alice's request is
    still pending. *)
Lemma waitForCallbackCompletion_first_read_witness :
  let ledger := fun i : Z => if i <? 2 then None else Some (verifier Scenario.submitted) in
  let '(r, t) := UseDecryption.waitForCallbackCompletion ledger Scenario.alice in
  r = Return tt /\
  ledgerReads t = seqZ 0 (2 + 1) /\
  sleeps t = replicate (Z.to_nat 2) 2000.
Proof.
  intros ledger.
  apply (waitForCallbackCompletion_first_read ledger Scenario.alice 2
           (verifier Scenario.submitted)).
  - vm_compute. split; congruence.
  - intros j Hj. unfold ledger. replace (j <? 2) with true by (symmetry; lia). reflexivity.
  - reflexivity.
Defined.

(** * Properties of the metadata helpers *)

(** ** Decimal strings *)

Section DecimalStrings.

Import Metadata.

Lemma parseDecimal_app (s1 s2 : bytes) :
  parseDecimal (s1 ++ s2) = foldl (fun acc b => acc * 10 + (b - 48)) (parseDecimal s1) s2.
Proof. unfold parseDecimal. apply foldl_app. Qed.

Lemma decimalDigits_length (n : nat) (value : Z) : length (decimalDigits n value) = n.
Proof.
  revert value. induction n as [|n IH]; intros value; [reflexivity|].
  simpl. rewrite length_app, IH. simpl. lia.
Qed.

Lemma decimalDigits_parse (n : nat) (value : Z) :
  0 <= value < 10 ^ Z.of_nat n -> parseDecimal (decimalDigits n value) = value.
Proof.
  revert value. induction n as [|n IH]; intros value Hv.
  - unfold parseDecimal. simpl in *. lia.
  - simpl decimalDigits. rewrite parseDecimal_app. simpl.
    rewrite Nat2Z.inj_succ, Z.pow_succ_r in Hv by lia.
    rewrite IH by (split; [apply Z.div_pos; lia | apply Z.div_lt_upper_bound; lia]).
    pose proof (Z.div_mod value 10 ltac:(lia)). lia.
Qed.

Lemma decimalDigits_chars (n : nat) (value : Z) :
  Forall (fun b => 48 <= b <= 57) (decimalDigits n value).
Proof.
  revert value. induction n as [|n IH]; intros value; [constructor|].
  simpl. apply Forall_app. split; [apply IH|].
  constructor; [|constructor]. pose proof (Z.mod_pos_bound value 10 ltac:(lia)). lia.
Qed.

Lemma decimalDigits_head (n : nat) (value : Z) :
  10 ^ Z.of_nat n <= value < 10 ^ Z.of_nat (S n) ->
  exists c rest, decimalDigits (S n) value = c :: rest /\ c <> 48.
Proof.
  revert value. induction n as [|n IH]; intros value Hv.
  - simpl in *. exists (48 + value mod 10), []. split; [reflexivity|].
    rewrite Z.mod_small by lia. lia.
  - rewrite !Nat2Z.inj_succ, !Z.pow_succ_r in Hv by lia.
    destruct (IH (value / 10)) as (c & rest & Heq & Hc).
    { rewrite Nat2Z.inj_succ, Z.pow_succ_r by lia.
      split; [apply Z.div_le_lower_bound; lia | apply Z.div_lt_upper_bound; lia]. }
    change (decimalDigits (S (S n)) value)
      with (decimalDigits (S n) (value / 10) ++ [48 + value mod 10]).
    rewrite Heq. exists c, (rest ++ [48 + value mod 10]). split; [reflexivity | exact Hc].
Qed.

(** The counting loop returns the number of decimal digits. *)
Lemma countDigits_spec (remaining : nat) (temp digits : Z) :
  0 <= temp < 10 ^ Z.of_nat remaining ->
  0 <= digits -> digits + Z.of_nat remaining <= uint256_max ->
  exists n : nat,
    countDigits remaining temp digits = Ok (digits + Z.of_nat n) /\
    (n <= remaining)%nat /\
    match n with
    | O => temp = 0
    | S n' => 10 ^ Z.of_nat n' <= temp < 10 ^ Z.of_nat n
    end.
Proof.
  revert temp digits. induction remaining as [|remaining IH]; intros temp digits Ht Hd Hfit.
  - simpl in Ht. assert (temp = 0) as -> by lia. exists O. simpl.
    repeat split; [f_equal; lia | lia].
  - destruct (Z.eqb_spec temp 0) as [->|Hnz].
    + exists O. simpl. repeat split; [f_equal; lia | lia].
    + simpl countDigits. replace (temp =? 0) with false by (symmetry; lia).
      rewrite checked_add_fits by lia. simpl Evm.bind.
      rewrite Nat2Z.inj_succ, Z.pow_succ_r in Ht by lia.
      destruct (IH (temp / 10) (digits + 1)) as (n & Hrun & Hle & Hn);
        [split; [apply Z.div_pos; lia | apply Z.div_lt_upper_bound; lia] | lia | lia |].
      exists (S n). rewrite Hrun. split; [f_equal; lia|]. split; [lia|].
      destruct n as [|n'].
      * simpl. pose proof (Z.div_mod temp 10 ltac:(lia)).
        pose proof (Z.mod_pos_bound temp 10 ltac:(lia)). lia.
      * rewrite !Nat2Z.inj_succ, !Z.pow_succ_r by lia.
        rewrite Nat2Z.inj_succ, Z.pow_succ_r in Hn by lia.
        pose proof (Z.div_mod temp 10 ltac:(lia)).
        pose proof (Z.mod_pos_bound temp 10 ltac:(lia)). lia.
Qed.

Lemma insert_middle (front back : bytes) (z b : Z) :
  <[length front := b]> (front ++ z :: back) = front ++ b :: back.
Proof. induction front as [|x front IH]; simpl; [reflexivity | f_equal; exact IH]. Qed.

(** Writing at the position just after [front]. *)
Lemma write_middle (front back : bytes) (z b : Z) :
  write (front ++ z :: back) (Z.of_nat (length front)) b = Ok (front ++ b :: back).
Proof.
  unfold write.
  replace (0 <=? Z.of_nat (length front)) with true by (symmetry; apply Z.leb_le; lia).
  replace (Z.of_nat (length front) <? Z.of_nat (length (front ++ z :: back))) with true
    by (symmetry; apply Z.ltb_lt; rewrite length_app; simpl; lia).
  cbn [andb]. rewrite Nat2Z.id, insert_middle. reflexivity.
Qed.

(** The filling loop writes the digits just below position [digits]. *)
Lemma fillDigits_spec (n remaining : nat) (value : Z) (front back : bytes) (hole : bytes) :
  (n <= remaining)%nat ->
  length hole = n ->
  match n with
  | O => value = 0
  | S n' => 10 ^ Z.of_nat n' <= value < 10 ^ Z.of_nat n
  end ->
  fillDigits remaining value (Z.of_nat (length front + n)) (front ++ hole ++ back)
  = Ok (front ++ decimalDigits n value ++ back).
Proof.
  revert remaining value hole back.
  induction n as [|n IH]; intros remaining value hole back Hgas Hhole Hn.
  - subst value. destruct hole; [|discriminate]. destruct remaining; reflexivity.
  - destruct remaining as [|remaining]; [lia|].
    assert (0 < value) as Hpos by (pose proof (Z.pow_pos_nonneg 10 (Z.of_nat n)); lia).
    simpl fillDigits. replace (value =? 0) with false by (symmetry; lia).
    unfold checked_sub.
    replace (1 <=? Z.of_nat (length front + S n)) with true
      by (symmetry; apply Z.leb_le; lia).
    simpl Evm.bind.
    pose proof (Z.mod_pos_bound value 10 ltac:(lia)) as Hmod.
    rewrite checked_add_fits by (unfold uint256_max; lia). simpl Evm.bind.
    unfold to_uint8. rewrite (Z.mod_small (48 + value mod 10)) by lia.
    assert (exists hole' z, hole = hole' ++ [z] /\ length hole' = n)
      as (hole' & z & -> & Hhole').
    { destruct (decide (hole = [])) as [->|Hne]; [discriminate|].
      destruct (exists_last Hne) as (hole' & z & ->).
      exists hole', z. split; [reflexivity|]. rewrite length_app in Hhole. simpl in Hhole.
      lia. }
    replace (Z.of_nat (length front + S n) - 1) with (Z.of_nat (length (front ++ hole')))
      by (rewrite length_app; lia).
    replace (front ++ (hole' ++ [z]) ++ back) with ((front ++ hole') ++ z :: back)
      by (rewrite <- !app_assoc; reflexivity).
    rewrite write_middle. simpl Evm.bind.
    replace ((front ++ hole') ++ (48 + value mod 10) :: back)
      with (front ++ hole' ++ ((48 + value mod 10) :: back))
      by (rewrite <- !app_assoc; reflexivity).
    replace (Z.of_nat (length (front ++ hole'))) with (Z.of_nat (length front + n))
      by (rewrite length_app; lia).
    rewrite IH; [| lia | exact Hhole' |].
    + simpl decimalDigits. rewrite <- !app_assoc. reflexivity.
    + rewrite Nat2Z.inj_succ, Z.pow_succ_r in Hn by lia.
      destruct n as [|n'].
      * simpl in Hn. apply Z.div_small. lia.
      * rewrite Nat2Z.inj_succ, Z.pow_succ_r in Hn |- * by lia.
        split; [apply Z.div_le_lower_bound; lia | apply Z.div_lt_upper_bound; lia].
Qed.

End DecimalStrings.

(** X23. For every [uint256] value [_toString] returns, without running out
    of gas or panicking, a non-empty string of decimal digits that denotes
    the value and has no leading zero (except the string "0" for zero). *)
Theorem _toString_decimal (value : Z) :
  0 <= value <= uint256_max ->
  exists s : Metadata.bytes,
    Metadata._toString value = Ok s /\
    Metadata.parseDecimal s = value /\
    Forall (fun b => 48 <= b <= 57) s /\
    s <> [] /\
    (value <> 0 -> head s <> Some 48).
Proof.
  intros Hrange. unfold Metadata._toString.
  destruct (Z.eqb_spec value 0) as [->|Hnz].
  - exists [48]. repeat split; [repeat constructor; lia | discriminate | congruence].
  - assert (uint256_max < 10 ^ Z.of_nat Metadata.digit_budget) as Hbudget
      by (vm_compute; reflexivity).
    assert (0 + Z.of_nat Metadata.digit_budget <= uint256_max) as Hroom
      by (vm_compute; congruence).
    generalize dependent Metadata.digit_budget. intros budget Hbudget Hroom.
    destruct (countDigits_spec budget value 0) as (n & Hcount & Hgas & Hn);
      [lia | lia | exact Hroom |].
    rewrite Hcount. cbn [Evm.bind].
    destruct n as [|n']; [lia|].
    replace (0 + Z.of_nat (S n')) with (Z.of_nat (S n')) by lia.
    pose proof (fillDigits_spec (S n') budget value [] []
                  (Metadata.new_bytes (Z.of_nat (S n'))) Hgas) as Hfill.
    rewrite app_nil_r in Hfill. cbn [app length Nat.add] in Hfill.
    rewrite Hfill; [| unfold Metadata.new_bytes; rewrite length_replicate; lia | exact Hn].
    rewrite app_nil_r.
    exists (Metadata.decimalDigits (S n') value).
    split; [reflexivity|]. split; [apply decimalDigits_parse; lia|].
    split; [apply decimalDigits_chars|].
    destruct (decimalDigits_head n' value Hn) as (c & rest & -> & Hc).
    split; [discriminate|]. intros _. simpl. congruence.
Qed.

(** Token id 1234567890. *)
Lemma _toString_decimal_witness :
  exists s : Metadata.bytes,
    Metadata._toString 1234567890 = Ok s /\
    Metadata.parseDecimal s = 1234567890 /\
    length s = 10%nat.
Proof.
  destruct (_toString_decimal 1234567890) as (s & Hrun & Hparse & _);
    [vm_compute; split; congruence|].
  exists s. split; [exact Hrun|]. split; [exact Hparse|].
  vm_compute in Hrun. injection Hrun as <-. reflexivity.
Defined.

(** ** Base64 *)

Section Base64.

Import Metadata.

(** A property of bytes that holds on all 256 of them. *)
Lemma forall_bytes (P : Z -> bool) :
  forallb P (seqZ 0 256) = true -> forall a, is_byte a -> P a = true.
Proof.
  intros Hall a Ha. rewrite forallb_forall in Hall. apply Hall.
  apply list_elem_of_In, elem_of_seqZ. unfold is_byte in Ha. lia.
Qed.

Lemma forall_sextets (P : Z -> bool) :
  forallb P (seqZ 0 64) = true -> forall k, 0 <= k < 64 -> P k = true.
Proof.
  intros Hall k Hk. rewrite forallb_forall in Hall. apply Hall.
  apply list_elem_of_In, elem_of_seqZ. lia.
Qed.

(** The contract's bit operations, as arithmetic. *)
Lemma first_sextet (a : Z) : is_byte a -> shr1 a 2 = a / 4.
Proof.
  intros Ha. apply Z.eqb_eq.
  apply (forall_bytes (fun a => shr1 a 2 =? a / 4)); [vm_compute; reflexivity | exact Ha].
Qed.

Lemma last_sextet (a : Z) : is_byte a -> Z.land a 63 = a mod 64.
Proof.
  intros Ha. apply Z.eqb_eq.
  apply (forall_bytes (fun a => Z.land a 63 =? a mod 64)); [vm_compute; reflexivity | exact Ha].
Qed.

Lemma second_sextet (a b : Z) :
  is_byte a -> is_byte b ->
  Z.lor (shl1 (Z.land a 3) 4) (shr1 b 4) = (a mod 4) * 16 + b / 16.
Proof.
  intros Ha Hb. apply Z.eqb_eq.
  apply (forall_bytes (fun b => Z.lor (shl1 (Z.land a 3) 4) (shr1 b 4)
                                =? (a mod 4) * 16 + b / 16)); [|exact Hb].
  apply (forall_bytes (fun a => forallb (fun b => Z.lor (shl1 (Z.land a 3) 4) (shr1 b 4)
                                                  =? (a mod 4) * 16 + b / 16)
                                        (seqZ 0 256))); [vm_compute; reflexivity | exact Ha].
Qed.

Lemma third_sextet (b c : Z) :
  is_byte b -> is_byte c ->
  Z.lor (shl1 (Z.land b 15) 2) (shr1 c 6) = (b mod 16) * 4 + c / 64.
Proof.
  intros Hb Hc. apply Z.eqb_eq.
  apply (forall_bytes (fun c => Z.lor (shl1 (Z.land b 15) 2) (shr1 c 6)
                                =? (b mod 16) * 4 + c / 64)); [|exact Hc].
  apply (forall_bytes (fun b => forallb (fun c => Z.lor (shl1 (Z.land b 15) 2) (shr1 c 6)
                                                  =? (b mod 16) * 4 + c / 64)
                                        (seqZ 0 256))); [vm_compute; reflexivity | exact Hb].
Qed.

Lemma short_second_sextet (a : Z) : is_byte a -> shl1 (Z.land a 3) 4 = (a mod 4) * 16.
Proof.
  intros Ha. apply Z.eqb_eq.
  apply (forall_bytes (fun a => shl1 (Z.land a 3) 4 =? (a mod 4) * 16));
    [vm_compute; reflexivity | exact Ha].
Qed.

Lemma short_third_sextet (b : Z) : is_byte b -> shl1 (Z.land b 15) 2 = (b mod 16) * 4.
Proof.
  intros Hb. apply Z.eqb_eq.
  apply (forall_bytes (fun b => shl1 (Z.land b 15) 2 =? (b mod 16) * 4));
    [vm_compute; reflexivity | exact Hb].
Qed.

(** The table lookup never goes out of range on a 6-bit value. *)
Lemma lookup64_char (k : Z) : 0 <= k < 64 -> lookup64 k = Ok (char64 k).
Proof.
  intros Hk.
  assert ((match lookup64 k with Ok c => c =? char64 k | _ => false end) = true) as H.
  { apply (forall_sextets (fun k => match lookup64 k with
                                    | Ok c => c =? char64 k
                                    | _ => false
                                    end)); [vm_compute; reflexivity | exact Hk]. }
  destruct (lookup64 k) as [c| |]; try discriminate. f_equal. lia.
Qed.

(** The alphabet and its inverse. *)
Lemma index64_char64 (k : Z) :
  0 <= k < 64 -> index64 (char64 k) = k /\ char64 k <> 61 /\ In (char64 k) table.
Proof.
  intros Hk.
  assert (((index64 (char64 k) =? k) && negb (char64 k =? 61)
           && existsb (Z.eqb (char64 k)) table) = true) as H.
  { apply (forall_sextets (fun k => (index64 (char64 k) =? k) && negb (char64 k =? 61)
                                    && existsb (Z.eqb (char64 k)) table));
      [vm_compute; reflexivity | exact Hk]. }
  apply andb_true_iff in H as [H Hin]. apply andb_true_iff in H as [Hidx Hpad].
  apply existsb_exists in Hin as (c & Hin & Hc). apply Z.eqb_eq in Hc. subst c.
  apply negb_true_iff in Hpad. split; [lia|]. split; [lia | exact Hin].
Qed.

(** Reading the array at and after a known position. *)
Lemma read_at (front back : bytes) (k : nat) (x : Z) :
  back !! k = Some x ->
  read (front ++ back) (Z.of_nat (length front + k)) = Ok x.
Proof.
  intros Hx. unfold read.
  replace (0 <=? Z.of_nat (length front + k)) with true by (symmetry; apply Z.leb_le; lia).
  rewrite Nat2Z.id.
  assert ((front ++ back) !! (length front + k)%nat = Some x) as Hat.
  { rewrite (lookup_app_r front back) by lia.
    replace (length front + k - length front)%nat with k by lia. exact Hx. }
  unfold bytes in *. rewrite Hat. reflexivity.
Qed.

(** Appending one character to the part of the result written so far. *)
Lemma push_spec (out : bytes) (p : nat) (c : Z) :
  Z.of_nat (length out) + 1 <= uint256_max ->
  push (out ++ replicate (S p) 0, Z.of_nat (length out)) c
  = Ok ((out ++ [c]) ++ replicate p 0, Z.of_nat (length (out ++ [c]))).
Proof.
  intros Hfit. unfold push. simpl replicate. rewrite write_middle. simpl Evm.bind.
  rewrite checked_add_fits by exact Hfit. simpl Evm.bind.
  rewrite <- app_assoc, length_app. simpl. do 2 f_equal. lia.
Qed.

(** The main loop encodes the full groups of three bytes. *)
Lemma encodeGroups_spec (k : nat) :
  forall (remaining : nat) (front body tail out : bytes) (p : nat),
    length body = (3 * k)%nat -> (length tail < 3)%nat ->
    Forall is_byte body ->
    (k <= remaining)%nat ->
    Z.of_nat (length (front ++ body ++ tail)) + 3 <= uint256_max ->
    Z.of_nat (length out) + 4 * Z.of_nat k <= uint256_max ->
    encodeGroups remaining (front ++ body ++ tail)
      (Z.of_nat (length (front ++ body ++ tail))) (Z.of_nat (length front))
      (out ++ replicate (4 * k + p) 0, Z.of_nat (length out))
    = Ok (Z.of_nat (length (front ++ body)),
          ((out ++ encodeStandard body) ++ replicate p 0,
           Z.of_nat (length (out ++ encodeStandard body)))).
Proof.
  induction k as [|k IH]; intros remaining front body tail out p Hbody Htail Hbytes
                                 Hgas Hfit Hroom.
  - destruct body; [|discriminate]. simpl app. rewrite !app_nil_r.
    assert (forall r, encodeGroups r (front ++ tail) (Z.of_nat (length (front ++ tail)))
                        (Z.of_nat (length front)) (out ++ replicate p 0, Z.of_nat (length out))
                      = Ok (Z.of_nat (length front),
                            (out ++ replicate p 0, Z.of_nat (length out)))) as Hstop.
    { intros r. destruct r; simpl encodeGroups;
        (rewrite checked_add_fits by (rewrite length_app in Hfit; simpl in Hfit; lia));
        simpl Evm.bind;
        (replace (Z.of_nat (length front) + 3 <=? Z.of_nat (length (front ++ tail)))
           with false by (symmetry; apply Z.leb_gt; rewrite length_app; lia));
        reflexivity. }
    apply Hstop.
  - destruct body as [|a [|b [|c body']]]; try (simpl in Hbody; lia).
    destruct remaining as [|remaining]; [lia|].
    apply Forall_cons in Hbytes as [Ha Hbytes]. apply Forall_cons in Hbytes as [Hb Hbytes].
    apply Forall_cons in Hbytes as [Hc Hbytes].
    assert (length body' = (3 * k)%nat) as Hbody' by (simpl in Hbody; lia).
    assert (read (front ++ (a :: b :: c :: body') ++ tail) (Z.of_nat (length front)) = Ok a)
      as Hread0.
    { replace (Z.of_nat (length front)) with (Z.of_nat (length front + 0)) by (f_equal; lia).
      apply read_at. reflexivity. }
    assert (read (front ++ (a :: b :: c :: body') ++ tail) (Z.of_nat (length front) + 1) = Ok b)
      as Hread1.
    { replace (Z.of_nat (length front) + 1) with (Z.of_nat (length front + 1)) by lia.
      apply read_at. reflexivity. }
    assert (read (front ++ (a :: b :: c :: body') ++ tail) (Z.of_nat (length front) + 2) = Ok c)
      as Hread2.
    { replace (Z.of_nat (length front) + 2) with (Z.of_nat (length front + 2)) by lia.
      apply read_at. reflexivity. }
    assert ((Z.of_nat (length front) + 3
             <=? Z.of_nat (length (front ++ (a :: b :: c :: body') ++ tail))) = true) as Hbound.
    { apply Z.leb_le. rewrite !length_app. simpl. lia. }
    rewrite !length_app in Hfit. simpl length in Hfit.
    remember (front ++ (a :: b :: c :: body') ++ tail) as data eqn:Hdata.
    cbn [encodeGroups].
    rewrite !checked_add_fits by lia. cbn [Evm.bind].
    rewrite Hbound, Hread0. cbn [Evm.bind]. rewrite Hread1. cbn [Evm.bind].
    rewrite Hread2. cbn [Evm.bind].
    rewrite first_sextet, second_sextet, third_sextet, last_sextet by assumption.
    unfold is_byte in Ha, Hb, Hc.
    rewrite !lookup64_char
      by (split; [try apply Z.div_pos; try apply Z.mod_pos_bound; try lia
                 | try apply Z.div_lt_upper_bound; try apply Z.mod_pos_bound; try lia];
          pose proof (Z.mod_pos_bound a 4 ltac:(lia));
          pose proof (Z.mod_pos_bound b 16 ltac:(lia));
          pose proof (Z.div_pos b 16 ltac:(lia) ltac:(lia));
          pose proof (Z.div_lt_upper_bound b 16 16 ltac:(lia) ltac:(lia));
          pose proof (Z.div_pos c 64 ltac:(lia) ltac:(lia));
          pose proof (Z.div_lt_upper_bound c 64 4 ltac:(lia) ltac:(lia)); lia).
    cbn [Evm.bind].
    replace (4 * S k + p)%nat with (S (S (S (S (4 * k + p))))) by lia.
    rewrite push_spec by lia. cbn [Evm.bind].
    rewrite push_spec by (rewrite !length_app; simpl; lia). cbn [Evm.bind].
    rewrite push_spec by (rewrite !length_app; simpl; lia). cbn [Evm.bind].
    rewrite push_spec by (rewrite !length_app; simpl; lia). cbn [Evm.bind].
    replace (Z.of_nat (length front) + 3) with (Z.of_nat (length (front ++ [a; b; c])))
      by (rewrite length_app; simpl; lia).
    assert (data = (front ++ [a; b; c]) ++ body' ++ tail) as Hdata'
      by (rewrite Hdata, <- !app_assoc; reflexivity).
    rewrite Hdata'.
    rewrite IH; try assumption; try lia.
    + simpl encodeStandard. rewrite <- !app_assoc. simpl app. reflexivity.
    + rewrite !length_app. simpl. lia.
    + rewrite !length_app. simpl. lia.
Qed.

(** The 6-bit values of a group are in range. *)
Lemma sextets_in_range (a b c : Z) :
  is_byte a -> is_byte b -> is_byte c ->
  0 <= a / 4 < 64 /\ 0 <= (a mod 4) * 16 + b / 16 < 64 /\
  0 <= (b mod 16) * 4 + c / 64 < 64 /\ 0 <= c mod 64 < 64 /\
  0 <= (a mod 4) * 16 < 64 /\ 0 <= (b mod 16) * 4 < 64.
Proof.
  unfold is_byte. intros Ha Hb Hc. repeat split; Z.div_mod_to_equations; lia.
Qed.

(** The short last group, with its padding. *)
Lemma encodeTail_spec (front tail out : bytes) (p : nat) :
  (length tail < 3)%nat ->
  Forall is_byte tail ->
  Z.of_nat (length (front ++ tail)) + 3 <= uint256_max ->
  Z.of_nat (length out) + 4 <= uint256_max ->
  encodeTail (front ++ tail) (Z.of_nat (length (front ++ tail))) (Z.of_nat (length front))
    (out ++ replicate (length (encodeStandard tail) + p) 0, Z.of_nat (length out))
  = Ok ((out ++ encodeStandard tail) ++ replicate p 0,
        Z.of_nat (length (out ++ encodeStandard tail))).
Proof.
  intros Htail Hbytes Hfit Hroom.
  destruct tail as [|a [|b [|c tail]]]; [| | |simpl in Htail; lia].
  - unfold encodeTail. rewrite !app_nil_r.
    replace (Z.of_nat (length front) <? Z.of_nat (length front)) with false
      by (symmetry; apply Z.ltb_ge; lia).
    reflexivity.
  - apply Forall_cons in Hbytes as [Ha _].
    destruct (sextets_in_range a a a Ha Ha Ha) as (H0 & _ & _ & _ & H1 & _).
    assert (read (front ++ [a]) (Z.of_nat (length front)) = Ok a) as Hread0.
    { replace (Z.of_nat (length front)) with (Z.of_nat (length front + 0)) by (f_equal; lia).
      apply read_at. reflexivity. }
    rewrite length_app in Hfit. simpl length in Hfit.
    unfold encodeTail.
    replace (Z.of_nat (length front) <? Z.of_nat (length (front ++ [a]))) with true
      by (symmetry; apply Z.ltb_lt; rewrite length_app; simpl; lia).
    rewrite Hread0. cbn [Evm.bind].
    rewrite first_sextet, lookup64_char by assumption. cbn [Evm.bind].
    cbn [encodeStandard length Nat.add].
    rewrite push_spec by lia. cbn [Evm.bind].
    rewrite checked_add_fits by lia. cbn [Evm.bind].
    replace (Z.of_nat (length front) + 1 <? Z.of_nat (length (front ++ [a]))) with false
      by (symmetry; apply Z.ltb_ge; rewrite length_app; simpl; lia).
    rewrite short_second_sextet, lookup64_char by assumption. cbn [Evm.bind].
    rewrite push_spec by (rewrite !length_app; simpl; lia). cbn [Evm.bind].
    rewrite push_spec by (rewrite !length_app; simpl; lia). cbn [Evm.bind].
    rewrite push_spec by (rewrite !length_app; simpl; lia).
    rewrite <- !app_assoc. reflexivity.
  - apply Forall_cons in Hbytes as [Ha Hbytes]. apply Forall_cons in Hbytes as [Hb _].
    destruct (sextets_in_range a b b Ha Hb Hb) as (H0 & H1 & _ & _ & _ & H2).
    assert (read (front ++ [a; b]) (Z.of_nat (length front)) = Ok a) as Hread0.
    { replace (Z.of_nat (length front)) with (Z.of_nat (length front + 0)) by (f_equal; lia).
      apply read_at. reflexivity. }
    assert (read (front ++ [a; b]) (Z.of_nat (length front) + 1) = Ok b) as Hread1.
    { replace (Z.of_nat (length front) + 1) with (Z.of_nat (length front + 1)) by lia.
      apply read_at. reflexivity. }
    rewrite length_app in Hfit. simpl length in Hfit.
    unfold encodeTail.
    replace (Z.of_nat (length front) <? Z.of_nat (length (front ++ [a; b]))) with true
      by (symmetry; apply Z.ltb_lt; rewrite length_app; simpl; lia).
    rewrite Hread0. cbn [Evm.bind].
    rewrite first_sextet, lookup64_char by assumption. cbn [Evm.bind].
    cbn [encodeStandard length Nat.add].
    rewrite push_spec by lia. cbn [Evm.bind].
    rewrite checked_add_fits by lia. cbn [Evm.bind].
    replace (Z.of_nat (length front) + 1 <? Z.of_nat (length (front ++ [a; b]))) with true
      by (symmetry; apply Z.ltb_lt; rewrite length_app; simpl; lia).
    rewrite Hread1. cbn [Evm.bind].
    rewrite second_sextet, lookup64_char by assumption. cbn [Evm.bind].
    rewrite push_spec by (rewrite !length_app; simpl; lia). cbn [Evm.bind].
    rewrite short_third_sextet, lookup64_char by assumption. cbn [Evm.bind].
    rewrite push_spec by (rewrite !length_app; simpl; lia). cbn [Evm.bind].
    rewrite push_spec by (rewrite !length_app; simpl; lia).
    rewrite <- !app_assoc. reflexivity.
Qed.

(** Any array is a run of full groups followed by fewer than three bytes. *)
Lemma split_groups (data : bytes) :
  exists (k : nat) (body tail : bytes),
    data = body ++ tail /\ length body = (3 * k)%nat /\ (length tail < 3)%nat.
Proof.
  exists (length data / 3)%nat, (take (3 * (length data / 3)) data),
         (drop (3 * (length data / 3)) data).
  pose proof (Nat.div_mod_eq (length data) 3) as Hdiv.
  pose proof (Nat.mod_upper_bound (length data) 3 ltac:(lia)) as Hmod.
  split; [symmetry; apply take_drop|].
  split; [rewrite length_take; lia | rewrite length_drop; lia].
Qed.

Lemma encodeStandard_app (k : nat) :
  forall body tail : bytes,
    length body = (3 * k)%nat ->
    encodeStandard (body ++ tail) = encodeStandard body ++ encodeStandard tail.
Proof.
  induction k as [|k IH]; intros body tail Hbody.
  - destruct body; [reflexivity | discriminate].
  - destruct body as [|a [|b [|c body]]]; try (simpl in Hbody; lia).
    change ((a :: b :: c :: body) ++ tail) with (a :: b :: c :: (body ++ tail)).
    cbn [encodeStandard]. rewrite IH by (simpl in Hbody; lia). reflexivity.
Qed.

Lemma encodeStandard_groups_length (k : nat) :
  forall body : bytes,
    length body = (3 * k)%nat -> length (encodeStandard body) = (4 * k)%nat.
Proof.
  induction k as [|k IH]; intros body Hbody.
  - destruct body; [reflexivity | discriminate].
  - destruct body as [|a [|b [|c body]]]; try (simpl in Hbody; lia).
    cbn [encodeStandard]. rewrite length_app, IH by (simpl in Hbody; lia). simpl. lia.
Qed.

(** The length of the standard encoding, as the contract computes it. *)
Lemma encodeStandard_length (data : bytes) :
  Z.of_nat (length (encodeStandard data)) = 4 * ((Z.of_nat (length data) + 2) / 3).
Proof.
  destruct (split_groups data) as (k & body & tail & -> & Hbody & Htail).
  rewrite (encodeStandard_app k) by exact Hbody.
  rewrite !length_app, (encodeStandard_groups_length k), Hbody by exact Hbody.
  destruct tail as [|a [|b [|c tail]]]; [| | |simpl in Htail; lia];
    simpl length; Z.div_mod_to_equations; lia.
Qed.

Lemma char64_in_table (k : Z) : 0 <= k < 64 -> In (char64 k) table \/ char64 k = 61.
Proof. intros Hk. left. apply (index64_char64 k Hk). Qed.

(** Every character of the encoding is in the alphabet, or is the padding
    character. *)
Lemma encodeStandard_alphabet (n : nat) :
  forall data : bytes,
    (length data <= n)%nat ->
    Forall is_byte data ->
    Forall (fun c => In c table \/ c = 61) (encodeStandard data).
Proof.
  induction n as [|n IH]; intros data Hlen Hbytes.
  - destruct data; [constructor | simpl in Hlen; lia].
  - destruct data as [|a [|b [|c data]]].
    + constructor.
    + apply Forall_cons in Hbytes as [Ha _].
      destruct (sextets_in_range a a a Ha Ha Ha) as (H0 & _ & _ & _ & H1 & _).
      cbn [encodeStandard].
      apply Forall_cons; split; [apply char64_in_table; exact H0|].
      apply Forall_cons; split; [apply char64_in_table; exact H1|].
      apply Forall_cons; split; [right; reflexivity|].
      apply Forall_cons; split; [right; reflexivity|]. constructor.
    + apply Forall_cons in Hbytes as [Ha Hbytes]. apply Forall_cons in Hbytes as [Hb _].
      destruct (sextets_in_range a b b Ha Hb Hb) as (H0 & H1 & _ & _ & _ & H2).
      cbn [encodeStandard].
      apply Forall_cons; split; [apply char64_in_table; exact H0|].
      apply Forall_cons; split; [apply char64_in_table; exact H1|].
      apply Forall_cons; split; [apply char64_in_table; exact H2|].
      apply Forall_cons; split; [right; reflexivity|]. constructor.
    + apply Forall_cons in Hbytes as [Ha Hbytes]. apply Forall_cons in Hbytes as [Hb Hbytes].
      apply Forall_cons in Hbytes as [Hc Hbytes].
      destruct (sextets_in_range a b c Ha Hb Hc) as (H0 & H1 & H2 & H3 & _ & _).
      cbn [encodeStandard app].
      apply Forall_cons; split; [apply char64_in_table; exact H0|].
      apply Forall_cons; split; [apply char64_in_table; exact H1|].
      apply Forall_cons; split; [apply char64_in_table; exact H2|].
      apply Forall_cons; split; [apply char64_in_table; exact H3|].
      apply IH; [simpl in Hlen; lia | exact Hbytes].
Qed.

(** Decoding the standard encoding gives the bytes back. *)
Lemma decodeBase64_encodeStandard (n : nat) :
  forall data : bytes,
    (length data <= n)%nat ->
    Forall is_byte data ->
    decodeBase64 (encodeStandard data) = data.
Proof.
  induction n as [|n IH]; intros data Hlen Hbytes.
  - destruct data; [reflexivity | simpl in Hlen; lia].
  - destruct data as [|a [|b [|c data]]].
    + reflexivity.
    + apply Forall_cons in Hbytes as [Ha _].
      destruct (sextets_in_range a a a Ha Ha Ha) as (H0 & _ & _ & _ & H1 & _).
      destruct (index64_char64 _ H0) as (I0 & _ & _).
      destruct (index64_char64 _ H1) as (I1 & _ & _).
      cbn [encodeStandard decodeBase64]. rewrite I0, I1. cbn [Z.eqb Pos.eqb].
      f_equal. unfold is_byte in Ha. Z.div_mod_to_equations. lia.
    + apply Forall_cons in Hbytes as [Ha Hbytes]. apply Forall_cons in Hbytes as [Hb _].
      destruct (sextets_in_range a b b Ha Hb Hb) as (H0 & H1 & _ & _ & _ & H2).
      destruct (index64_char64 _ H0) as (I0 & _ & _).
      destruct (index64_char64 _ H1) as (I1 & _ & _).
      destruct (index64_char64 _ H2) as (I2 & P2 & _).
      cbn [encodeStandard decodeBase64]. rewrite I0, I1, I2.
      replace (char64 (b mod 16 * 4) =? 61) with false by (symmetry; apply Z.eqb_neq; exact P2).
      cbn [Z.eqb Pos.eqb].
      unfold is_byte in Ha, Hb. f_equal; [|f_equal]; Z.div_mod_to_equations; lia.
    + apply Forall_cons in Hbytes as [Ha Hbytes]. apply Forall_cons in Hbytes as [Hb Hbytes].
      apply Forall_cons in Hbytes as [Hc Hbytes].
      destruct (sextets_in_range a b c Ha Hb Hc) as (H0 & H1 & H2 & H3 & _ & _).
      destruct (index64_char64 _ H0) as (I0 & _ & _).
      destruct (index64_char64 _ H1) as (I1 & _ & _).
      destruct (index64_char64 _ H2) as (I2 & P2 & _).
      destruct (index64_char64 _ H3) as (I3 & P3 & _).
      cbn [encodeStandard app decodeBase64]. rewrite I0, I1, I2, I3.
      replace (char64 (b mod 16 * 4 + c / 64) =? 61) with false
        by (symmetry; apply Z.eqb_neq; exact P2).
      replace (char64 (c mod 64) =? 61) with false by (symmetry; apply Z.eqb_neq; exact P3).
      rewrite IH by (simpl in Hlen; lia || exact Hbytes).
      unfold is_byte in Ha, Hb, Hc. cbn [app].
      f_equal; [|f_equal; [|f_equal]]; Z.div_mod_to_equations; lia.
Qed.

(** The contract's encoder computes the standard encoding, and never reads
    or writes outside its arrays. *)
Lemma encodeBase64_encodeStandard (data : bytes) :
  Forall is_byte data ->
  Z.of_nat (length data) < 2 ^ 64 ->
  encodeBase64 data = Ok (encodeStandard data).
Proof.
  intros Hbytes Hsmall.
  assert (2 ^ 64 * 8 <= uint256_max) as Hmax by (vm_compute; discriminate).
  unfold encodeBase64. cbv zeta.
  destruct (Z.eqb_spec (Z.of_nat (length data)) 0) as [Hempty|Hne].
  { destruct data; [reflexivity | simpl in Hempty; lia]. }
  rewrite checked_add_fits by lia. cbn [Evm.bind].
  pose proof (encodeStandard_length data) as Hlen.
  replace (4 * ((Z.of_nat (length data) + 2) / 3) <=? uint256_max) with true
    by (symmetry; apply Z.leb_le; Z.div_mod_to_equations; lia).
  cbn [Evm.bind]. rewrite <- Hlen. unfold new_bytes. rewrite Nat2Z.id.
  destruct (split_groups data) as (k & body & tail & Hdata & Hbody & Htail).
  assert (Forall is_byte body /\ Forall is_byte tail) as [Hbodybytes Htailbytes]
    by (apply Forall_app; rewrite <- Hdata; exact Hbytes).
  assert (length (encodeStandard data)
          = (4 * k + (length (encodeStandard tail) + 0))%nat) as Hroom.
  { rewrite Hdata, (encodeStandard_app k), length_app, (encodeStandard_groups_length k)
      by exact Hbody. lia. }
  assert (length data = (3 * k + length tail)%nat) as Hsize
    by (rewrite Hdata, length_app, Hbody; reflexivity).
  rewrite Hroom.
  pose proof (encodeGroups_spec k (length data) [] body tail []
                (length (encodeStandard tail) + 0)) as Hgroups.
  cbn [app length] in Hgroups. rewrite <- Hdata in Hgroups.
  change (Z.of_nat 0) with 0 in Hgroups.
  specialize (Hgroups Hbody Htail Hbodybytes ltac:(lia) ltac:(lia) ltac:(lia)).
  match goal with
  | |- Evm.bind ?m _ = _ =>
      replace m
        with (Ok (Z.of_nat (length body),
                  (encodeStandard body ++ replicate (length (encodeStandard tail) + 0) 0,
                   Z.of_nat (length (encodeStandard body)))))
        by (symmetry; exact Hgroups)
  end.
  cbn [Evm.bind].
  pose proof (encodeTail_spec body tail (encodeStandard body) 0) as Htl.
  rewrite <- Hdata in Htl.
  specialize (Htl Htail Htailbytes ltac:(lia)
                  ltac:(rewrite (encodeStandard_groups_length k) by exact Hbody; lia)).
  match goal with
  | |- Evm.bind ?m _ = _ =>
      replace m
        with (Ok ((encodeStandard body ++ encodeStandard tail) ++ replicate 0 0,
                  Z.of_nat (length (encodeStandard body ++ encodeStandard tail))))
        by (symmetry; exact Htl)
  end.
  cbn [Evm.bind fst replicate]. rewrite app_nil_r, Hdata, (encodeStandard_app k) by exact Hbody.
  reflexivity.
Qed.

(** X24. [encodeBase64] on an array of bytes returns without a panic; the
    result has [4 * ((len + 2) / 3)] characters, each of them in the 64
    character alphabet or the padding character "=". *)
Theorem encodeBase64_shape (data : Metadata.bytes) :
  Forall Metadata.is_byte data ->
  Z.of_nat (length data) < 2 ^ 64 ->
  exists s : Metadata.bytes,
    Metadata.encodeBase64 data = Ok s /\
    Z.of_nat (length s) = 4 * ((Z.of_nat (length data) + 2) / 3) /\
    Forall (fun c => In c Metadata.table \/ c = 61) s.
Proof.
  intros Hbytes Hsmall. exists (encodeStandard data).
  split; [apply encodeBase64_encodeStandard; assumption|].
  split; [apply encodeStandard_length|].
  apply (encodeStandard_alphabet (length data)); [lia | exact Hbytes].
Qed.

Lemma encodeBase64_shape_witness :
  exists s : Metadata.bytes,
    Metadata.encodeBase64 [77; 97] = Ok s /\
    Z.of_nat (length s) = 4 * ((Z.of_nat (length [77; 97]) + 2) / 3) /\
    Forall (fun c => In c Metadata.table \/ c = 61) s.
Proof.
  apply (encodeBase64_shape [77; 97]).
  - repeat constructor; unfold Metadata.is_byte; lia.
  - simpl. lia.
Defined.

(** X25. What [encodeBase64] returns decodes, by the standard Base64
    decoding, to the bytes it was given: the encoding loses nothing. *)
Theorem encodeBase64_round_trip (data : Metadata.bytes) :
  Forall Metadata.is_byte data ->
  Z.of_nat (length data) < 2 ^ 64 ->
  exists s : Metadata.bytes,
    Metadata.encodeBase64 data = Ok s /\ Metadata.decodeBase64 s = data.
Proof.
  intros Hbytes Hsmall. exists (encodeStandard data).
  split; [apply encodeBase64_encodeStandard; assumption|].
  apply (decodeBase64_encodeStandard (length data)); [lia | exact Hbytes].
Qed.

Lemma encodeBase64_round_trip_witness :
  exists s : Metadata.bytes,
    Metadata.encodeBase64 [77; 97; 110; 33] = Ok s /\
    Metadata.decodeBase64 s = [77; 97; 110; 33].
Proof.
  apply (encodeBase64_round_trip [77; 97; 110; 33]).
  - repeat constructor; unfold Metadata.is_byte; lia.
  - simpl. lia.
Defined.

End Base64.

(** ** Hexadecimal display of an address *)

Section Hex.

Import Metadata.

Lemma addressByte_is_byte (addr i : Z) : is_byte (addressByte addr i).
Proof. unfold is_byte, addressByte, to_uint8. apply Z.mod_pos_bound. lia. Qed.

(** Both halves of a byte get their digit, without overflow, and the two
    digits read back as the byte. *)
Lemma hex_pair (b : Z) :
  is_byte b ->
  _toHexChar (Z.shiftr b 4) = Ok (hexChar (Z.shiftr b 4)) /\
  _toHexChar (Z.land b 15) = Ok (hexChar (Z.land b 15)) /\
  hexValue (hexChar (Z.shiftr b 4)) * 16 + hexValue (hexChar (Z.land b 15)) = b /\
  0 <= hexValue (hexChar (Z.shiftr b 4)) /\
  0 <= hexValue (hexChar (Z.land b 15)) < 16 /\
  is_hex_digit (hexChar (Z.shiftr b 4)) /\ is_hex_digit (hexChar (Z.land b 15)).
Proof.
  intros Hb.
  set (good := fun b =>
    let hi := Z.shiftr b 4 in
    let lo := Z.land b 15 in
    let digit c := ((48 <=? c) && (c <=? 57)) || ((97 <=? c) && (c <=? 102)) in
    match _toHexChar hi, _toHexChar lo with
    | Ok ch, Ok cl =>
        (ch =? hexChar hi) && (cl =? hexChar lo)
        && (hexValue ch * 16 + hexValue cl =? b)
        && (0 <=? hexValue ch) && (0 <=? hexValue cl) && (hexValue cl <? 16)
        && digit ch && digit cl
    | _, _ => false
    end).
  assert (good b = true) as Hgood
    by (apply forall_bytes; [vm_compute; reflexivity | exact Hb]).
  unfold good in Hgood. cbv zeta in Hgood.
  destruct (_toHexChar (Z.shiftr b 4)) as [ch| |]; try discriminate.
  destruct (_toHexChar (Z.land b 15)) as [cl| |]; try discriminate.
  repeat (apply andb_true_iff in Hgood as [Hgood ?]).
  assert (ch = hexChar (Z.shiftr b 4)) as <- by lia.
  assert (cl = hexChar (Z.land b 15)) as <- by lia.
  unfold is_hex_digit.
  repeat match goal with
         | H : (_ || _) = true |- _ => apply orb_true_iff in H
         end.
  split; [reflexivity|]. split; [reflexivity|].
  split; [lia|]. split; [lia|]. split; [lia|]. split; lia.
Qed.

(** The first loop fills the positions after the prefix with the digits of
    the bytes, two per iteration. *)
Lemma hexLoop_spec (addr : Z) (remaining : nat) :
  forall (i : Z) (front hole back : bytes),
    Z.of_nat (length front) = 2 + i * 2 ->
    length hole = (2 * remaining)%nat ->
    hexLoop remaining addr i (front ++ hole ++ back)
    = Ok (front ++ hexDigits remaining addr i ++ back).
Proof.
  induction remaining as [|remaining IH]; intros i front hole back Hfront Hhole.
  - destruct hole; [reflexivity | discriminate].
  - destruct hole as [|x [|y hole]]; try (simpl in Hhole; lia).
    destruct (hex_pair (addressByte addr i) (addressByte_is_byte addr i))
      as (Hhi & Hlo & _).
    cbn [hexLoop]. fold (addressByte addr i). cbv zeta.
    rewrite Hhi, Hlo. cbn [Evm.bind].
    rewrite <- Hfront.
    change ((x :: y :: hole) ++ back) with (x :: y :: hole ++ back).
    rewrite write_middle. cbn [Evm.bind].
    replace (3 + i * 2)
      with (Z.of_nat (length (front ++ [hexChar (Z.shiftr (addressByte addr i) 4)])))
      by (rewrite length_app; simpl; lia).
    replace (front ++ hexChar (Z.shiftr (addressByte addr i) 4) :: y :: hole ++ back)
      with ((front ++ [hexChar (Z.shiftr (addressByte addr i) 4)]) ++ y :: hole ++ back)
      by (rewrite <- app_assoc; reflexivity).
    rewrite write_middle. cbn [Evm.bind].
    replace ((front ++ [hexChar (Z.shiftr (addressByte addr i) 4)])
               ++ hexChar (Z.land (addressByte addr i) 15) :: hole ++ back)
      with ((front ++ hexPair addr i) ++ hole ++ back)
      by (unfold hexPair; rewrite <- !app_assoc; reflexivity).
    rewrite IH.
    + cbn [hexDigits]. rewrite <- !app_assoc. reflexivity.
    + rewrite length_app. unfold hexPair. simpl length. lia.
    + simpl in Hhole. lia.
Qed.

(** The shortened display keeps the prefix, the first four digits and the
    last six. *)
Lemma shorten (a b c d e f g h i j : Z) (middle : bytes) :
  length middle = 30%nat ->
  (let buffer := [48; 120] ++ [a; b; c; d] ++ middle ++ [e; f; g; h; i; j] in
   do result_ <- copyLoop 6 0 0 0 buffer (new_bytes 14);
   do result_ <- write result_ 6 46;
   do result_ <- write result_ 7 46;
   copyLoop 6 0 8 36 buffer result_)
  = Ok ([48; 120] ++ [a; b; c; d] ++ [46; 46] ++ [e; f; g; h; i; j]).
Proof.
  intros Hmiddle.
  do 30 (destruct middle as [|? middle]; [discriminate|]).
  destruct middle; [|discriminate].
  vm_compute. reflexivity.
Qed.

Lemma hexDigits_ends (addr : Z) :
  hexDigits 20 addr 0
  = (hexPair addr 0 ++ hexPair addr 1) ++ hexDigits 15 addr 2
    ++ (hexPair addr 17 ++ hexPair addr 18 ++ hexPair addr 19).
Proof.
  cbn [hexDigits]. rewrite <- !app_assoc, !app_nil_r. reflexivity.
Qed.

Lemma hexDigits_length (addr : Z) (remaining : nat) :
  forall i, length (hexDigits remaining addr i) = (2 * remaining)%nat.
Proof.
  induction remaining as [|remaining IH]; intros i; [reflexivity|].
  cbn [hexDigits]. rewrite length_app, IH. unfold hexPair. simpl. lia.
Qed.

(** [_toHexString], in closed form. *)
Lemma _toHexString_digits (addr : Z) :
  _toHexString addr
  = Ok ([48; 120] ++ (hexPair addr 0 ++ hexPair addr 1) ++ [46; 46]
        ++ (hexPair addr 17 ++ hexPair addr 18 ++ hexPair addr 19)).
Proof.
  unfold _toHexString. cbv zeta.
  change (write (new_bytes 42) 0 48) with (Ok (48 :: replicate 41 0)). cbn [Evm.bind].
  change (write (48 :: replicate 41 0) 1 120) with (Ok ([48; 120] ++ replicate 40 0 ++ [])).
  cbn [Evm.bind].
  match goal with
  | |- Evm.bind ?m _ = _ =>
      replace m with (Ok ([48; 120] ++ hexDigits 20 addr 0 ++ []))
        by (symmetry; apply hexLoop_spec; reflexivity)
  end.
  cbn [Evm.bind]. rewrite app_nil_r, hexDigits_ends.
  apply (shorten _ _ _ _ _ _ _ _ _ _ (hexDigits 15 addr 2)).
  apply hexDigits_length.
Qed.

(** X26. [_toHexString] on a 160-bit address returns; the result is "0x",
    four hexadecimal digits, "..", and six hexadecimal digits; the four
    digits denote the top 16 bits of the address and the six digits its
    low 24 bits. *)
Theorem _toHexString_shortened (addr : Z) :
  0 <= addr < 2 ^ 160 ->
  exists front back : Metadata.bytes,
    Metadata._toHexString addr = Ok ([48; 120] ++ front ++ [46; 46] ++ back) /\
    length front = 4%nat /\ length back = 6%nat /\
    Forall Metadata.is_hex_digit (front ++ back) /\
    Metadata.parseHex front = addr / 2 ^ 144 /\
    Metadata.parseHex back = addr mod 2 ^ 24.
Proof.
  intros Haddr.
  exists (hexPair addr 0 ++ hexPair addr 1),
         (hexPair addr 17 ++ hexPair addr 18 ++ hexPair addr 19).
  split; [apply _toHexString_digits|].
  split; [reflexivity|]. split; [reflexivity|].
  destruct (hex_pair _ (addressByte_is_byte addr 0)) as (_ & _ & V0 & P0 & L0 & D0 & D0').
  destruct (hex_pair _ (addressByte_is_byte addr 1)) as (_ & _ & V1 & P1 & L1 & D1 & D1').
  destruct (hex_pair _ (addressByte_is_byte addr 17)) as (_ & _ & V17 & P17 & L17 & D17 & D17').
  destruct (hex_pair _ (addressByte_is_byte addr 18)) as (_ & _ & V18 & P18 & L18 & D18 & D18').
  destruct (hex_pair _ (addressByte_is_byte addr 19)) as (_ & _ & V19 & P19 & L19 & D19 & D19').
  split.
  { unfold hexPair. cbn [app]. repeat (apply Forall_cons; split; [assumption|]). constructor. }
  assert (forall i, 0 <= i <= 19 ->
                    addressByte addr i = (addr / 2 ^ (8 * (19 - i))) mod 256) as Hbyte.
  { intros i Hi. unfold addressByte, to_uint8. rewrite Z.shiftr_div_pow2 by lia. reflexivity. }
  pose proof (Hbyte 0 ltac:(lia)) as B0. pose proof (Hbyte 1 ltac:(lia)) as B1.
  pose proof (Hbyte 17 ltac:(lia)) as B17. pose proof (Hbyte 18 ltac:(lia)) as B18.
  pose proof (Hbyte 19 ltac:(lia)) as B19.
  change (2 ^ (8 * (19 - 0))) with (2 ^ 144 * 256) in B0.
  change (2 ^ (8 * (19 - 1))) with (2 ^ 144) in B1.
  change (2 ^ (8 * (19 - 17))) with 65536 in B17.
  change (2 ^ (8 * (19 - 18))) with 256 in B18.
  change (2 ^ (8 * (19 - 19))) with 1 in B19.
  rewrite <- Z.div_div in B0 by lia.
  assert (0 <= addr / 2 ^ 144 < 65536) as Htop.
  { split; [apply Z.div_pos; lia|].
    apply Z.div_lt_upper_bound; [lia|]. change (2 ^ 144 * 65536) with (2 ^ 160). lia. }
  split.
  - unfold hexPair, parseHex. cbn [app foldl].
    clear B17 B18 B19 V17 V18 V19 Hbyte Haddr.
    generalize dependent (addr / 2 ^ 144). intros top B0 B1 Htop.
    Z.div_mod_to_equations. lia.
  - unfold hexPair, parseHex. cbn [app foldl].
    change (2 ^ 24) with 16777216.
    clear B0 B1 V0 V1 Hbyte Htop.
    Z.div_mod_to_equations. lia.
Qed.

Lemma _toHexString_shortened_witness :
  exists front back : Metadata.bytes,
    Metadata._toHexString 1311768467294899695 = Ok ([48; 120] ++ front ++ [46; 46] ++ back) /\
    length front = 4%nat /\ length back = 6%nat /\
    Forall Metadata.is_hex_digit (front ++ back) /\
    Metadata.parseHex front = 1311768467294899695 / 2 ^ 144 /\
    Metadata.parseHex back = 1311768467294899695 mod 2 ^ 24.
Proof.
  apply (_toHexString_shortened 1311768467294899695). lia.
Defined.

End Hex.

(** ** The token contract with revocation *)

Section Revocation.

Import RevocableCredential.

Lemma mintCredential_Ok_iff (sender : address) (now : Z) (s s' : State) (to : address)
      (age : euint32) (logs : list Log) (tokenId : Z) :
  mintCredential sender now s to age = Ok (s', logs, tokenId) <->
  mget false (authorizedMinters s) sender = true /\
  getTokenIdOf s to = 0 /\
  to <> 0 /\
  _ownerOf s (tokenIdCounter s) = 0 /\
  tokenIdCounter s + 1 <= uint256_max /\
  tokenId = tokenIdCounter s /\
  s' = minted s now to age /\
  logs = [Transfer 0 to tokenId; CredentialMinted to tokenId now].
Proof.
  unfold mintCredential, getTokenIdOf.
  destruct (mget false (authorizedMinters s) sender) eqn:Hauth;
    [|split; [discriminate | intros (? & _); discriminate]].
  destruct (Z.eqb_spec (mget 0 (addressToTokenId s) to) 0) as [Hnone|Hsome];
    [|split; [discriminate | intros (_ & ? & _); contradiction]].
  cbn [Evm.bind Evm.require]. unfold checked_add.
  destruct (Z.leb_spec (tokenIdCounter s + 1) uint256_max) as [Hfit|Hover];
    [|split; [discriminate | intros (_ & _ & _ & _ & ? & _); lia]].
  cbn [Evm.bind]. unfold _safeMint.
  destruct (Z.eqb_spec to 0) as [Hzero|Hto];
    [split; [discriminate | intros (_ & _ & ? & _); contradiction]|].
  cbn [negb Evm.bind Evm.require].
  unfold _update, super_update, set_tokens, minted, _ownerOf, balanceOf.
  cbn [owner owners balances tokenIdCounter encryptedAges addressToTokenId tokenIdToAddress
       mintTimestamp authorizedMinters].
  destruct (Z.eqb_spec (mget 0 (owners s) (tokenIdCounter s)) 0) as [Hfree|Hused].
  2:{ replace (to =? 0) with false by (symmetry; lia). cbn [negb andb].
      split; [discriminate | intros (_ & _ & _ & ? & _); contradiction]. }
  replace (to =? 0) with false by (symmetry; lia). rewrite !Hfree.
  cbn [negb andb orb Z.eqb Evm.bind Evm.require app].
  split.
  - intros H. injection H as <- <- <-. repeat split; try assumption; reflexivity.
  - intros (_ & _ & _ & _ & _ & -> & -> & ->). reflexivity.
Qed.

Lemma revokeCredential_Ok_iff (sender : address) (s s' : State) (tokenId : Z)
      (logs : list Log) :
  revokeCredential sender s tokenId = Ok (s', logs) <->
  sender = owner s /\
  _ownerOf s tokenId <> 0 /\
  s' = revoked s tokenId /\
  logs = [Transfer (_ownerOf s tokenId) 0 tokenId;
          CredentialRevoked (_ownerOf s tokenId) tokenId].
Proof.
  unfold revokeCredential.
  destruct (Z.eqb_spec sender (owner s)) as [Hsender|Hother];
    [|split; [discriminate | intros (? & _); contradiction]].
  cbn [Evm.bind Evm.require]. unfold ownerOf.
  destruct (Z.eqb_spec (_ownerOf s tokenId) 0) as [Hfree|Hused];
    [split; [discriminate | intros (_ & ? & _); contradiction]|].
  cbn [negb Evm.bind Evm.require].
  unfold _burn, _update, super_update, set_tokens, revoked, balanceOf.
  replace (_ownerOf s tokenId =? 0) with false by (symmetry; lia).
  cbn [negb andb orb Z.eqb Evm.bind Evm.require app
       owner owners balances tokenIdCounter encryptedAges addressToTokenId tokenIdToAddress
       mintTimestamp authorizedMinters].
  replace (_ownerOf s tokenId =? 0) with false by (symmetry; lia).
  cbn [negb andb orb Z.eqb Evm.bind Evm.require app
       owner owners balances tokenIdCounter encryptedAges addressToTokenId tokenIdToAddress
       mintTimestamp authorizedMinters].
  split.
  - intros H. injection H as <- <-. repeat split; try assumption; reflexivity.
  - intros (_ & _ & -> & ->). reflexivity.
Qed.

(** A credential cannot be moved by [transferFrom]. *)
Lemma transferFrom_never (sender : address) (s s' : State) (from to : address) (tokenId : Z)
      (logs : list Log) :
  sender <> 0 -> transferFrom sender s from to tokenId <> Ok (s', logs).
Proof.
  intros Hsender H. unfold transferFrom in H.
  apply require_Ok in H as [Hto H].
  apply bind_Ok in H as ([[s1 evs] previous] & Hupd & _).
  unfold _update, super_update in Hupd.
  destruct (Z.eqb_spec (_ownerOf s tokenId) 0) as [Hfree|Hused].
  - destruct (to =? 0); [discriminate|]. cbn [negb andb] in Hupd.
    replace (sender =? 0) with false in Hupd by (symmetry; lia). discriminate.
  - destruct (to =? 0); discriminate.
Qed.

Lemma constructor_consistent (deployer : address) : consistent (constructor deployer).
Proof.
  unfold consistent, constructor, _ownerOf, getTokenIdOf, balanceOf, hasCredential, mget.
  cbn. repeat split; try lia; intros; rewrite ?lookup_empty in *; cbn in *;
    try contradiction; reflexivity.
Qed.

Lemma minted_consistent (s : State) (now : Z) (to : address) (age : euint32) :
  consistent s ->
  getTokenIdOf s to = 0 -> to <> 0 ->
  consistent (minted s now to age).
Proof.
  intros (Hone & Howned & Hrecorded & Hbalance) Hnone Hto.
  assert (_ownerOf s (tokenIdCounter s) = 0) as Hfree.
  { destruct (Z.eq_dec (_ownerOf s (tokenIdCounter s)) 0) as [|Hused]; [assumption|].
    apply Howned in Hused. lia. }
  unfold consistent, minted, _ownerOf, getTokenIdOf, balanceOf, hasCredential in *.
  cbn [owner owners balances tokenIdCounter encryptedAges addressToTokenId tokenIdToAddress
       mintTimestamp authorizedMinters] in *.
  unfold address in *.
  split; [lia|]. split; [|split].
  - intros t Ht. destruct (Z.eq_dec t (tokenIdCounter s)) as [->|Hne].
    + rewrite (mget_insert_eq 0 to (owners s)), mget_insert_eq. lia.
    + rewrite (mget_insert_ne 0 to (owners s) (tokenIdCounter s) t) in Ht |- * by congruence.
      destruct (Howned t Ht) as [Hrange Hback].
      destruct (Z.eq_dec (mget 0 (owners s) t) to) as [Hsame|Hdiff].
      * rewrite Hsame in Hback. lia.
      * rewrite mget_insert_ne by congruence. lia.
  - intros a Ha. destruct (Z.eq_dec a to) as [->|Hne].
    + rewrite (mget_insert_eq 0 (tokenIdCounter s) (addressToTokenId s)), mget_insert_eq.
      split; [assumption|reflexivity].
    + rewrite (mget_insert_ne 0 (tokenIdCounter s) (addressToTokenId s) to a) in Ha |- *
        by congruence.
      destruct (Hrecorded a Ha) as [Hnz Hback].
      assert (mget 0 (addressToTokenId s) a <> tokenIdCounter s) as Hold.
      { intros Heq. rewrite Heq in Hback. congruence. }
      rewrite mget_insert_ne by congruence. split; assumption.
  - intros a. destruct (Z.eq_dec a to) as [->|Hne].
    + rewrite !mget_insert_eq. specialize (Hbalance to). rewrite Hnone in Hbalance.
      cbn in Hbalance. rewrite Hbalance.
      replace (tokenIdCounter s =? 0) with false by (symmetry; lia). reflexivity.
    + rewrite !mget_insert_ne by congruence. apply Hbalance.
Qed.

Lemma mget_delete_eq {V : Type} (zero : V) (m : gmap Z V) (k : Z) :
  mget zero (delete k m) k = zero.
Proof. unfold mget. by rewrite lookup_delete_eq. Qed.

Lemma mget_delete_ne {V : Type} (zero : V) (m : gmap Z V) (k k' : Z) :
  k <> k' -> mget zero (delete k m) k' = mget zero m k'.
Proof. intros Hne. unfold mget. by rewrite lookup_delete_ne. Qed.

Lemma revoked_consistent (s : State) (tokenId : Z) :
  consistent s ->
  _ownerOf s tokenId <> 0 ->
  consistent (revoked s tokenId).
Proof.
  intros (Hone & Howned & Hrecorded & Hbalance) Hheld.
  destruct (Howned tokenId Hheld) as [Hrange Hback].
  unfold consistent, revoked, _ownerOf, getTokenIdOf, balanceOf, hasCredential in *.
  cbn [owner owners balances tokenIdCounter encryptedAges addressToTokenId tokenIdToAddress
       mintTimestamp authorizedMinters] in *.
  unfold address in *.
  set (holder := mget 0 (owners s) tokenId) in *.
  split; [lia|]. split; [|split].
  - intros t Ht. destruct (Z.eq_dec t tokenId) as [->|Hne].
    + rewrite mget_insert_eq in Ht. contradiction.
    + rewrite (mget_insert_ne 0 0 (owners s) tokenId t) in Ht |- * by congruence.
      destruct (Howned t Ht) as [Hrange' Hback'].
      assert (mget 0 (owners s) t <> holder) as Hdiff.
      { intros Heq. rewrite Heq in Hback'. congruence. }
      rewrite mget_delete_ne by congruence. split; assumption.
  - intros a Ha. destruct (Z.eq_dec a holder) as [->|Hne].
    + rewrite mget_delete_eq in Ha. contradiction.
    + rewrite (mget_delete_ne 0 (addressToTokenId s) holder a) in Ha |- * by congruence.
      destruct (Hrecorded a Ha) as [Hnz Hback'].
      assert (mget 0 (addressToTokenId s) a <> tokenId) as Hold.
      { intros Heq. rewrite Heq in Hback'. fold holder in Hback'. congruence. }
      rewrite mget_insert_ne by congruence. split; assumption.
  - intros a. destruct (Z.eq_dec a holder) as [->|Hne].
    + rewrite mget_insert_eq, mget_delete_eq. cbn.
      specialize (Hbalance holder). rewrite Hback in Hbalance.
      replace (tokenId =? 0) with false in Hbalance by (symmetry; lia).
      cbn in Hbalance. lia.
    + rewrite mget_insert_ne, mget_delete_ne by congruence. apply Hbalance.
Qed.

Lemma step_keeps_consistent (s s' : State) : step s s' -> consistent s -> consistent s'.
Proof.
  intros Hstep Hs. destruct Hstep as
      [sender s minter s' logs H | sender s minter s' logs H
      | sender now s to age s' logs tokenId H | sender s tokenId s' logs H
      | sender s from to tokenId s' logs Hsender H].
  - unfold authorizeMinter in H. apply require_Ok in H as [_ H]. injection H as <- _.
    exact Hs.
  - unfold revokeMinter in H. apply require_Ok in H as [_ H]. injection H as <- _.
    exact Hs.
  - apply mintCredential_Ok_iff in H as (_ & Hnone & Hto & _ & _ & _ & -> & _).
    apply minted_consistent; assumption.
  - apply revokeCredential_Ok_iff in H as (_ & Hheld & -> & _).
    apply revoked_consistent; assumption.
  - exfalso. exact (transferFrom_never _ _ _ _ _ _ _ Hsender H).
Qed.

Lemma rtc_keeps_consistent (s s' : State) : rtc step s s' -> consistent s -> consistent s'.
Proof.
  induction 1 as [|s1 s2 s3 Hstep _ IH]; [auto|].
  intros Hs. apply IH. exact (step_keeps_consistent _ _ Hstep Hs).
Qed.

Lemma reachable_is_consistent (s : State) : reachable s -> consistent s.
Proof.
  intros [deployer Hrun]. exact (rtc_keeps_consistent _ _ Hrun (constructor_consistent deployer)).
Qed.

(** An id below the counter that nobody owns stays that way. *)
Lemma step_retired (s s' : State) (t : Z) :
  step s s' ->
  t < tokenIdCounter s -> _ownerOf s t = 0 ->
  t < tokenIdCounter s' /\ _ownerOf s' t = 0.
Proof.
  intros Hstep Hbelow Hfree. destruct Hstep as
      [sender s minter s' logs H | sender s minter s' logs H
      | sender now s to age s' logs tokenId H | sender s tokenId s' logs H
      | sender s from to tokenId s' logs Hsender H].
  - unfold authorizeMinter in H. apply require_Ok in H as [_ H]. injection H as <- _.
    split; assumption.
  - unfold revokeMinter in H. apply require_Ok in H as [_ H]. injection H as <- _.
    split; assumption.
  - apply mintCredential_Ok_iff in H as (_ & _ & _ & _ & _ & _ & -> & _).
    unfold minted, _ownerOf in *. cbn [owners tokenIdCounter]. split; [lia|].
    rewrite mget_insert_ne by lia. exact Hfree.
  - apply revokeCredential_Ok_iff in H as (_ & _ & -> & _).
    unfold revoked, _ownerOf in *. cbn [owners tokenIdCounter]. split; [lia|].
    destruct (Z.eq_dec tokenId t) as [->|Hne];
      [apply mget_insert_eq | rewrite mget_insert_ne by exact Hne; exact Hfree].
  - exfalso. exact (transferFrom_never _ _ _ _ _ _ _ Hsender H).
Qed.

Lemma rtc_retired (s s' : State) (t : Z) :
  rtc step s s' ->
  t < tokenIdCounter s -> _ownerOf s t = 0 ->
  t < tokenIdCounter s' /\ _ownerOf s' t = 0.
Proof.
  induction 1 as [|s1 s2 s3 Hstep _ IH]; [auto|].
  intros Hbelow Hfree. destruct (step_retired _ _ _ Hstep Hbelow Hfree). auto.
Qed.

Lemma reachable_bothHold : reachable bothHold.
Proof.
  exists deployer.
  apply (rtc_l step _ authorised).
  { eapply (step_authorizeMinter deployer (constructor deployer) minter authorised).
    vm_compute. reflexivity. }
  apply (rtc_l step _ aliceHolds).
  { eapply (step_mintCredential minter 1000 authorised alice 55 aliceHolds).
    vm_compute. reflexivity. }
  apply (rtc_l step _ bothHold); [|apply rtc_refl].
  eapply (step_mintCredential minter 1100 aliceHolds bob 66 bothHold).
  vm_compute. reflexivity.
Defined.

(** X27. When the contract owner revokes a token that has a holder, the
    call succeeds and logs the burn and the revocation; afterwards nobody
    owns the token, the holder has no credential and one token less, the
    counter and the stored encrypted ages are as before, and the tokens and
    records of every other address are untouched. *)
Theorem revokeCredential_revokes (sender : address) (s : RevocableCredential.State)
        (tokenId : Z) :
  let holder := RevocableCredential._ownerOf s tokenId in
  sender = RevocableCredential.owner s ->
  holder <> 0 ->
  exists s' : RevocableCredential.State,
    RevocableCredential.revokeCredential sender s tokenId
    = Ok (s', [RevocableCredential.Transfer holder 0 tokenId;
               RevocableCredential.CredentialRevoked holder tokenId]) /\
    RevocableCredential._ownerOf s' tokenId = 0 /\
    RevocableCredential.hasCredential s' holder = false /\
    RevocableCredential.balanceOf s' holder = RevocableCredential.balanceOf s holder - 1 /\
    RevocableCredential.tokenIdCounter s' = RevocableCredential.tokenIdCounter s /\
    RevocableCredential.encryptedAges s' = RevocableCredential.encryptedAges s /\
    (forall t : Z, t <> tokenId ->
                   RevocableCredential._ownerOf s' t = RevocableCredential._ownerOf s t) /\
    (forall a : address, a <> holder ->
                         RevocableCredential.getTokenIdOf s' a
                         = RevocableCredential.getTokenIdOf s a /\
                         RevocableCredential.balanceOf s' a
                         = RevocableCredential.balanceOf s a).
Proof.
  intros holder Hsender Hheld. exists (revoked s tokenId).
  split; [apply revokeCredential_Ok_iff; repeat split; assumption|].
  unfold revoked, _ownerOf, hasCredential, getTokenIdOf, balanceOf.
  cbn [owner owners balances tokenIdCounter encryptedAges addressToTokenId tokenIdToAddress
       mintTimestamp authorizedMinters].
  fold (_ownerOf s tokenId). fold holder.
  split; [apply mget_insert_eq|].
  split; [rewrite mget_delete_eq; reflexivity|].
  split; [apply mget_insert_eq|].
  split; [reflexivity|]. split; [reflexivity|].
  split.
  - intros t Ht. apply mget_insert_ne. congruence.
  - intros a Ha. split; [apply mget_delete_ne | apply mget_insert_ne]; congruence.
Qed.

Lemma revokeCredential_revokes_witness :
  exists s' : RevocableCredential.State,
    RevocableCredential.revokeCredential RevocableCredential.deployer
      RevocableCredential.bothHold 1
    = Ok (s', [RevocableCredential.Transfer RevocableCredential.alice 0 1;
               RevocableCredential.CredentialRevoked RevocableCredential.alice 1]) /\
    RevocableCredential._ownerOf s' 1 = 0 /\
    RevocableCredential.hasCredential s' RevocableCredential.alice = false.
Proof.
  destruct (revokeCredential_revokes RevocableCredential.deployer
              RevocableCredential.bothHold 1)
    as (s' & Hcall & Hfree & Hnone & _);
    [vm_compute; reflexivity | vm_compute; discriminate |].
  exists s'. split; [exact Hcall|]. split; [exact Hfree | exact Hnone].
Defined.

(** X28. A revoked token id is never issued again: in every later state of
    the contract nobody owns it, and the counter is past it. *)
Theorem revoked_token_never_reissued
        (sender : address) (s s' s'' : RevocableCredential.State) (tokenId : Z)
        (logs : list RevocableCredential.Log) :
  RevocableCredential.reachable s ->
  RevocableCredential.revokeCredential sender s tokenId = Ok (s', logs) ->
  rtc RevocableCredential.step s' s'' ->
  RevocableCredential._ownerOf s'' tokenId = 0 /\
  tokenId < RevocableCredential.tokenIdCounter s''.
Proof.
  intros Hreach Hrevoke Hlater.
  destruct (reachable_is_consistent s Hreach) as (_ & Howned & _).
  apply revokeCredential_Ok_iff in Hrevoke as (_ & Hheld & -> & _).
  destruct (Howned tokenId Hheld) as [Hrange _].
  destruct (rtc_retired _ _ tokenId Hlater) as [Hbelow Hfree].
  - unfold revoked. cbn [tokenIdCounter]. lia.
  - unfold revoked, _ownerOf. cbn [owners]. apply mget_insert_eq.
  - split; assumption.
Qed.

Lemma revoked_token_never_reissued_witness :
  RevocableCredential._ownerOf
    (match RevocableCredential.mintCredential RevocableCredential.minter 1200
             RevocableCredential.aliceRevoked RevocableCredential.alice 55 with
     | Ok (s'', _, _) => s''
     | _ => RevocableCredential.aliceRevoked
     end) 1 = 0 /\
  1 < RevocableCredential.tokenIdCounter
        (match RevocableCredential.mintCredential RevocableCredential.minter 1200
                 RevocableCredential.aliceRevoked RevocableCredential.alice 55 with
         | Ok (s'', _, _) => s''
         | _ => RevocableCredential.aliceRevoked
         end).
Proof.
  apply (revoked_token_never_reissued RevocableCredential.deployer
           RevocableCredential.bothHold RevocableCredential.aliceRevoked _ 1
           [RevocableCredential.Transfer RevocableCredential.alice 0 1;
            RevocableCredential.CredentialRevoked RevocableCredential.alice 1]).
  - exact reachable_bothHold.
  - vm_compute. reflexivity.
  - eapply rtc_l; [|apply rtc_refl].
    eapply (step_mintCredential RevocableCredential.minter 1200
              RevocableCredential.aliceRevoked RevocableCredential.alice 55).
    vm_compute. reflexivity.
Defined.

(** With a recipient that makes no call, the checked mint is the mint
    followed by the recipient's answer. *)
Lemma mintCredential_checked_spec (r : Receiver) (sender : address) (now : Z) (s : State)
      (to : address) (age : euint32) :
  mintCredential_checked r sender now s to age
  = match mintCredential sender now s to age with
    | Ok x => if accepts r then Ok x else Revert "ERC721InvalidReceiver"
    | Revert reason => Revert reason
    | Panic code => Panic code
    end.
Proof.
  unfold mintCredential_checked, mintCredential.
  destruct (mget false (authorizedMinters s) sender); [|reflexivity].
  destruct (mget 0 (addressToTokenId s) to =? 0); [|reflexivity].
  cbn [Evm.bind Evm.require].
  destruct (checked_add (tokenIdCounter s) 1) as [next| |]; [|reflexivity|reflexivity].
  cbn [Evm.bind]. unfold _safeMint_checked, _safeMint.
  destruct (negb (to =? 0)); [|reflexivity].
  cbn [Evm.bind Evm.require].
  match goal with
  | |- context [_update ?n to ?t 0] =>
      destruct (_update n to t 0) as [[[s' evs] previous]| |]
  end; [|reflexivity|reflexivity].
  cbn [Evm.bind]. destruct (previous =? 0); [|reflexivity].
  cbn [Evm.bind Evm.require].
  destruct r as [|[|]]; reflexivity.
Qed.

(** X29. After a revocation the former holder can be issued a credential
    again by an authorised minter, provided it takes the token: for a
    holder that is an account without code, or a contract that just returns
    the selector when asked, the mint succeeds, and the new token has the
    counter's value as its id, which differs from the revoked id; for a
    holder that is a contract returning something else, the mint reverts. *)
Theorem revoked_holder_can_mint_again
        (r : RevocableCredential.Receiver)
        (sender minter : address) (now : Z) (age : euint32)
        (s s' : RevocableCredential.State) (tokenId : Z)
        (logs : list RevocableCredential.Log) :
  let holder := RevocableCredential._ownerOf s tokenId in
  RevocableCredential.reachable s ->
  RevocableCredential.revokeCredential sender s tokenId = Ok (s', logs) ->
  mget false (RevocableCredential.authorizedMinters s') minter = true ->
  RevocableCredential.tokenIdCounter s' + 1 <= uint256_max ->
  if RevocableCredential.accepts r then
    exists (s'' : RevocableCredential.State) (logs' : list RevocableCredential.Log),
      RevocableCredential.mintCredential_checked r minter now s' holder age
      = Ok (s'', logs', RevocableCredential.tokenIdCounter s') /\
      RevocableCredential.tokenIdCounter s' <> tokenId /\
      RevocableCredential._ownerOf s'' (RevocableCredential.tokenIdCounter s') = holder /\
      RevocableCredential.getTokenIdOf s'' holder = RevocableCredential.tokenIdCounter s' /\
      RevocableCredential.hasCredential s'' holder = true
  else
    RevocableCredential.mintCredential_checked r minter now s' holder age
    = Revert "ERC721InvalidReceiver".
Proof.
  intros holder Hreach Hrevoke Hminter Hfit.
  pose proof (reachable_is_consistent s Hreach) as Hs.
  apply revokeCredential_Ok_iff in Hrevoke as (_ & Hheld & -> & _).
  pose proof (revoked_consistent s tokenId Hs Hheld) as (Hone & Howned & _).
  destruct Hs as (_ & Howned0 & _). destruct (Howned0 tokenId Hheld) as [Hrange _].
  assert (_ownerOf (revoked s tokenId) (tokenIdCounter (revoked s tokenId)) = 0) as Hfree.
  { destruct (Z.eq_dec (_ownerOf (revoked s tokenId) (tokenIdCounter (revoked s tokenId))) 0)
      as [|Hused]; [assumption|]. apply Howned in Hused. lia. }
  assert (getTokenIdOf (revoked s tokenId) holder = 0) as Hnone.
  { unfold revoked, getTokenIdOf. cbn [addressToTokenId]. apply mget_delete_eq. }
  assert (mintCredential minter now (revoked s tokenId) holder age
          = Ok (minted (revoked s tokenId) now holder age,
                [Transfer 0 holder (tokenIdCounter (revoked s tokenId));
                 CredentialMinted holder (tokenIdCounter (revoked s tokenId)) now],
                tokenIdCounter (revoked s tokenId))) as Hmint.
  { apply mintCredential_Ok_iff. repeat split; try assumption; reflexivity. }
  rewrite mintCredential_checked_spec, Hmint.
  destruct (accepts r); [|reflexivity].
  exists (minted (revoked s tokenId) now holder age),
         [Transfer 0 holder (tokenIdCounter (revoked s tokenId));
          CredentialMinted holder (tokenIdCounter (revoked s tokenId)) now].
  split; [reflexivity|].
  split; [unfold revoked; cbn [tokenIdCounter]; lia|].
  unfold minted, _ownerOf, getTokenIdOf, hasCredential.
  cbn [owners addressToTokenId].
  rewrite !mget_insert_eq. split; [reflexivity|]. split; [reflexivity|].
  replace (tokenIdCounter (revoked s tokenId) =? 0) with false by (symmetry; lia).
  reflexivity.
Qed.

Lemma revoked_holder_can_mint_again_witness :
  exists (s'' : RevocableCredential.State) (logs' : list RevocableCredential.Log),
    RevocableCredential.mintCredential_checked RevocableCredential.NoCode
      RevocableCredential.minter 1200
      RevocableCredential.aliceRevoked RevocableCredential.alice 55
    = Ok (s'', logs', 3) /\
    RevocableCredential.hasCredential s'' RevocableCredential.alice = true.
Proof.
  pose proof (revoked_holder_can_mint_again RevocableCredential.NoCode
                RevocableCredential.deployer
                RevocableCredential.minter 1200 55 RevocableCredential.bothHold
                RevocableCredential.aliceRevoked 1
                [RevocableCredential.Transfer RevocableCredential.alice 0 1;
                 RevocableCredential.CredentialRevoked RevocableCredential.alice 1]
                reachable_bothHold) as H.
  cbv zeta in H. cbn [RevocableCredential.accepts] in H.
  destruct H as (s'' & logs' & Hmint & _ & _ & _ & Hhas).
  - vm_compute. reflexivity.
  - vm_compute. reflexivity.
  - vm_compute. discriminate.
  - exists s'', logs'. split; [exact Hmint | exact Hhas].
Defined.

End Revocation.
